(** * SysML v2 front end: lexer, parser and model queries

    A shallow embedding of [sysml_visualizer/src/parser/lexer.ts],
    [parser.ts], [types.ts], the query functions of the model context, the
    type filters of the details panel and the effect of the diagram canvas
    that computes nodes and edges, followed by the properties of the front
    end.

    Conventions of the embedding.
    - A JavaScript string is a sequence of UTF-16 code units; a code unit is
      a natural number ([N]).  String literals of the source are written
      [js "..."].
    - A JavaScript [number] used as an index, a counter or a line number is
      a [nat].
    - Every [while] of the source is the combinator [while], which takes a
      bound on the number of iterations ("fuel").  Running out of fuel is
      the outcome [OutOfFuel]; a loop of the source that runs forever is one
      that yields [OutOfFuel] for every fuel.
    - A method of the parser object is a function from the object's fields
      to an [Outcome]: a returned value and the new fields, a thrown error,
      or [OutOfFuel].
    - [String.prototype.toLowerCase] is not interpreted: the diagram is
      defined for an arbitrary function on strings in its place. *)

From Stdlib Require Import String Ascii DecimalString DecimalNat.
From Stdlib Require Import NArith Arith Lia Bool List.
Import ListNotations.

(* ================================================================== *)
(** * JavaScript strings *)

Definition char := N.
Definition jsstring := list char.

Definition ch (a : ascii) : char := N_of_ascii a.
Definition js (s : string) : jsstring := map N_of_ascii (list_ascii_of_string s).

Arguments ch a%_char.

(** The double quote character. *)
Definition quote : ascii := "034"%char.
Arguments js s%_string.

Fixpoint str_eqb (a b : jsstring) : bool :=
  match a, b with
  | [], [] => true
  | x :: a', y :: b' => N.eqb x y && str_eqb a' b'
  | _, _ => false
  end.

(** [s.slice(start, end)] for [0 <= start]: an [end] beyond the length is
    clamped, an [end] below [start] gives the empty string. *)
Definition slice (s : jsstring) (start end_ : nat) : jsstring :=
  firstn (Nat.min end_ (length s) - start) (skipn start s).

(** The decimal rendering of a non-negative integer, as a template literal
    prints it. *)
Definition decimal (n : nat) : jsstring := js (NilEmpty.string_of_uint (Nat.to_uint n)).

(** Truthiness of a string: the empty string is falsy. *)
Definition truthy (s : jsstring) : bool :=
  match s with [] => false | _ => true end.

(* ================================================================== *)
(** * Outcomes, the state-and-exception monad and [while] *)

Inductive Outcome (E St A : Type) : Type :=
| Return (a : A) (s : St)
| Throw (e : E)
| OutOfFuel.

Arguments Return {E St A} a s.
Arguments Throw {E St A} e.
Arguments OutOfFuel {E St A}.

Definition M (E St A : Type) : Type := St -> Outcome E St A.

Definition ret {E St A} (a : A) : M E St A := fun s => Return a s.

Definition bind {E St A B} (m : M E St A) (k : A -> M E St B) : M E St B :=
  fun s =>
    match m s with
    | Return a s' => k a s'
    | Throw e => Throw e
    | OutOfFuel => OutOfFuel
    end.

Definition throw {E St A} (e : E) : M E St A := fun _ => Throw e.
Definition gets {E St A} (f : St -> A) : M E St A := fun s => Return (f s) s.
Definition modify {E St} (f : St -> St) : M E St unit := fun s => Return tt (f s).

Declare Scope monad_scope.
Delimit Scope monad_scope with monad.
Notation "x <- m ;; k" := (bind m (fun x => k))
  (at level 100, m at next level, right associativity) : monad_scope.
Notation "m ;; k" := (bind m (fun _ => k))
  (at level 100, right associativity) : monad_scope.
Open Scope monad_scope.

(** [while (cond) { a = body(a) }], where [a] stands for the local
    variables the loop assigns. *)
Fixpoint while {E St A} (fuel : nat) (cond : St -> bool) (body : A -> M E St A)
    (a : A) : M E St A :=
  fun s =>
    match fuel with
    | O => OutOfFuel
    | S fuel' =>
        if cond s then
          match body a s with
          | Return a' s' => while fuel' cond body a' s'
          | Throw e => Throw e
          | OutOfFuel => OutOfFuel
          end
        else Return a s
    end.

(** [o1] is [o2], or ran out of fuel where [o2] did not: the order in
    which outcomes grow with the fuel. *)
Definition approx {E St A} (o1 o2 : Outcome E St A) : Prop :=
  o1 = OutOfFuel \/ o1 = o2.

Definition mle {E St A} (m1 m2 : M E St A) : Prop :=
  forall s, approx (m1 s) (m2 s).

(* ================================================================== *)
(** * Tokens ([lexer.ts]) *)

Inductive TokenType :=
| KEYWORD | IDENTIFIER | STRING | NUMBER
| LBRACE | RBRACE | LBRACKET | RBRACKET | LPAREN | RPAREN
| COLON | SEMICOLON | EQUALS | COMMA | DOT
| COMMENT | EOF.

Definition TokenType_eqb (a b : TokenType) : bool :=
  match a, b with
  | KEYWORD, KEYWORD | IDENTIFIER, IDENTIFIER | STRING, STRING
  | NUMBER, NUMBER | LBRACE, LBRACE | RBRACE, RBRACE
  | LBRACKET, LBRACKET | RBRACKET, RBRACKET | LPAREN, LPAREN
  | RPAREN, RPAREN | COLON, COLON | SEMICOLON, SEMICOLON
  | EQUALS, EQUALS | COMMA, COMMA | DOT, DOT
  | COMMENT, COMMENT | EOF, EOF => true
  | _, _ => false
  end.

(** A token type is, in the source, the string that spells it. *)
Definition TokenType_string (t : TokenType) : jsstring :=
  js match t with
     | KEYWORD => "KEYWORD" | IDENTIFIER => "IDENTIFIER" | STRING => "STRING"
     | NUMBER => "NUMBER" | LBRACE => "LBRACE" | RBRACE => "RBRACE"
     | LBRACKET => "LBRACKET" | RBRACKET => "RBRACKET" | LPAREN => "LPAREN"
     | RPAREN => "RPAREN" | COLON => "COLON" | SEMICOLON => "SEMICOLON"
     | EQUALS => "EQUALS" | COMMA => "COMMA" | DOT => "DOT"
     | COMMENT => "COMMENT" | EOF => "EOF"
     end.

Module Token.
Record t := mk { type : TokenType; value : jsstring; line : nat; column : nat }.
End Token.

Definition KEYWORDS : list jsstring :=
  map js
    ["package"; "part"; "def"; "port"; "item"; "requirement"; "state";
     "transition"; "attribute"; "interface"; "connect"; "bind"; "entry";
     "then"; "first"; "accept"; "action"; "inout"; "in"; "out"; "id";
     "text"]%string.

Definition KEYWORDS_has (v : jsstring) : bool := existsb (str_eqb v) KEYWORDS.

(* ================================================================== *)
(** * The lexer ([tokenize], [lexer.ts]) *)

Module Lexer.

(** The regular expressions of the lexer, each applied to [source[i]].
    [None] is [undefined]: only [/\d/] is ever applied to it (at
    [source[pos + 1]]), and it does not match. *)

Definition between (lo hi : N) (c : char) : bool := (N.leb lo c && N.leb c hi)%bool.

(** [/\s/]: the white space and line terminator code units of ECMAScript. *)
Definition isSpace (c : char) : bool :=
  (between 9 13 c || N.eqb c 32 || N.eqb c 160 || N.eqb c 5760
   || between 8192 8202 c || N.eqb c 8232 || N.eqb c 8233
   || N.eqb c 8239 || N.eqb c 8287 || N.eqb c 12288 || N.eqb c 65279)%bool.

(** [/\d/] *)
Definition isDigit (c : char) : bool := between 48 57 c.
(** [/[\d.]/] *)
Definition isNumberPart (c : char) : bool := (isDigit c || N.eqb c 46)%bool.
(** [/[a-zA-Z_]/] *)
Definition isIdentStart (c : char) : bool :=
  (between 97 122 c || between 65 90 c || N.eqb c 95)%bool.
(** [/[a-zA-Z0-9_]/] *)
Definition isIdentPart (c : char) : bool := (isIdentStart c || isDigit c)%bool.

Definition test (p : char -> bool) (o : option char) : bool :=
  match o with Some c => p c | None => false end.

Definition charIs (a : ascii) (o : option char) : bool := test (N.eqb (ch a)) o.
Arguments charIs a%_char o.

(** The table [singleTokens]; [None] when [char in singleTokens] is false. *)
Definition singleTokens (c : char) : option TokenType :=
  if N.eqb c (ch "{") then Some LBRACE
  else if N.eqb c (ch "}") then Some RBRACE
  else if N.eqb c (ch "[") then Some LBRACKET
  else if N.eqb c (ch "]") then Some RBRACKET
  else if N.eqb c (ch "(") then Some LPAREN
  else if N.eqb c (ch ")") then Some RPAREN
  else if N.eqb c (ch ":") then Some COLON
  else if N.eqb c (ch ";") then Some SEMICOLON
  else if N.eqb c (ch "=") then Some EQUALS
  else if N.eqb c (ch ",") then Some COMMA
  else if N.eqb c (ch ".") then Some DOT
  else None.

(** The local variables of [tokenize]. *)
Record State := mk { tokens : list Token.t; pos : nat; line : nat; column : nat }.

Definition L := M Empty_set State.

Definition newline : ascii := "010"%char.

Definition push (t : Token.t) : L unit :=
  modify (fun s => mk (tokens s ++ [t]) (pos s) (line s) (column s)).
Definition incr_pos (n : nat) : L unit :=
  modify (fun s => mk (tokens s) (pos s + n) (line s) (column s)).
Definition incr_column : L unit :=
  modify (fun s => mk (tokens s) (pos s) (line s) (column s + 1)).
(** [line++; column = 1] *)
Definition next_line : L unit :=
  modify (fun s => mk (tokens s) (pos s) (line s + 1) 1).

Section Tokenize.
Variable fuel : nat.
Variable source : jsstring.

(** [source[i]] *)
Definition at_ (i : nat) : option char := nth_error source i.

Definition lineComment : L unit :=
  start <- gets pos ;;
  while fuel
    (fun s => (pos s <? length source) && negb (charIs newline (at_ (pos s))))
    (fun _ => incr_pos 1) tt ;;
  s <- gets (fun s => s) ;;
  push (Token.mk COMMENT (slice source start (pos s)) (line s) (column s)).

Definition blockComment : L unit :=
  start <- gets pos ;;
  incr_pos 2 ;;
  while fuel
    (fun s => (pos s <? length source - 1)
              && negb (charIs "*" (at_ (pos s)) && charIs "/" (at_ (pos s + 1))))
    (fun _ =>
       s <- gets (fun s => s) ;;
       (if charIs newline (at_ (pos s)) then next_line else ret tt) ;;
       incr_pos 1) tt ;;
  incr_pos 2 ;;
  s <- gets (fun s => s) ;;
  push (Token.mk COMMENT (slice source start (pos s)) (line s) (column s)).

Definition stringLiteral : L unit :=
  startCol <- gets column ;;
  incr_pos 1 ;;
  incr_column ;;
  start <- gets pos ;;
  while fuel
    (fun s => (pos s <? length source) && negb (charIs quote (at_ (pos s))))
    (fun _ =>
       s <- gets (fun s => s) ;;
       (if charIs newline (at_ (pos s)) then next_line else incr_column) ;;
       incr_pos 1) tt ;;
  s <- gets (fun s => s) ;;
  push (Token.mk STRING (slice source start (pos s)) (line s) startCol) ;;
  incr_pos 1 ;;
  incr_column.

Definition number : L unit :=
  startCol <- gets column ;;
  start <- gets pos ;;
  while fuel
    (fun s => (pos s <? length source) && test isNumberPart (at_ (pos s)))
    (fun _ => incr_pos 1 ;; incr_column) tt ;;
  s <- gets (fun s => s) ;;
  push (Token.mk NUMBER (slice source start (pos s)) (line s) startCol).

Definition identifier : L unit :=
  startCol <- gets column ;;
  start <- gets pos ;;
  while fuel
    (fun s => (pos s <? length source) && test isIdentPart (at_ (pos s)))
    (fun _ => incr_pos 1 ;; incr_column) tt ;;
  s <- gets (fun s => s) ;;
  let value := slice source start (pos s) in
  push (Token.mk (if KEYWORDS_has value then KEYWORD else IDENTIFIER)
          value (line s) startCol).

(** One iteration of the main loop of [tokenize]. *)
Definition step : L unit :=
  s <- gets (fun s => s) ;;
  let char := at_ (pos s) in
  if test isSpace char then
    (if charIs newline char then next_line else incr_column) ;;
    incr_pos 1
  else if charIs "/" char && charIs "/" (at_ (pos s + 1)) then lineComment
  else if charIs "/" char && charIs "*" (at_ (pos s + 1)) then blockComment
  else if charIs quote char then stringLiteral
  else if test isDigit char || (charIs "." char && test isDigit (at_ (pos s + 1)))
  then number
  else if test isIdentStart char then identifier
  else
    match char with
    | Some c =>
        match singleTokens c with
        | Some ty =>
            push (Token.mk ty [c] (line s) (column s)) ;;
            incr_pos 1 ;;
            incr_column
        | None => incr_pos 1 ;; incr_column
        end
    | None => incr_pos 1 ;; incr_column
    end.

Definition main : L unit :=
  while fuel (fun s => pos s <? length source) (fun _ => step) tt.

End Tokenize.

(** [tokenize(source)]; [None] when [fuel] iterations do not suffice. *)
Definition tokenize (fuel : nat) (source : jsstring) : option (list Token.t) :=
  match main fuel source (mk [] 0 1 1) with
  | Return _ s => Some (tokens s ++ [Token.mk EOF [] (line s) (column s)])
  | _ => None
  end.

End Lexer.

(* ================================================================== *)
(** * The element graph ([types.ts]) *)

Module ElementType.
Inductive t :=
| package | part_def | part | port_def | port | item_def | item
| requirement_def | requirement | state_def | state | transition
| attribute | connection | bind.

Definition eqb (a b : t) : bool :=
  match a, b with
  | package, package | part_def, part_def | part, part
  | port_def, port_def | port, port | item_def, item_def | item, item
  | requirement_def, requirement_def | requirement, requirement
  | state_def, state_def | state, state | transition, transition
  | attribute, attribute | connection, connection | bind, bind => true
  | _, _ => false
  end.
End ElementType.

(** The fields an interface of [types.ts] adds to [SysMLElement].  An
    optional property is an [option]; [None] is [undefined]. *)
Inductive Fields :=
| NoFields
| PartDefFields (ports parts : list jsstring)
| PartFields (defRef multiplicity : option jsstring)
| PortDefFields (items : list jsstring) (direction : option jsstring)
| PortFields (defRef direction : option jsstring)
| RequirementDefFields (reqId text : option jsstring)
| StateDefFields (states transitions : list jsstring)
| StateFields (entryAction : option jsstring)
| TransitionFields (source target : jsstring) (trigger : option jsstring)
| ConnectionFields (source target : jsstring)
| BindFields (source target : jsstring).

Module Element.
Record t := mk {
  type : ElementType.t;
  name : jsstring;
  id : jsstring;
  parent : option jsstring;
  children : list jsstring;
  metadata : list (jsstring * jsstring);
  fields : Fields
}.

(** The convenience lists; a property an element lacks reads as empty. *)
Definition ports (e : t) : list jsstring :=
  match fields e with PartDefFields ports _ => ports | _ => [] end.
Definition parts (e : t) : list jsstring :=
  match fields e with PartDefFields _ parts => parts | _ => [] end.
Definition states (e : t) : list jsstring :=
  match fields e with StateDefFields states _ => states | _ => [] end.
Definition transitions (e : t) : list jsstring :=
  match fields e with StateDefFields _ transitions => transitions | _ => [] end.

Definition with_children (c : list jsstring) (e : t) : t :=
  mk (type e) (name e) (id e) (parent e) c (metadata e) (fields e).
Definition with_fields (f : Fields) (e : t) : t :=
  mk (type e) (name e) (id e) (parent e) (children e) (metadata e) f.
End Element.

(** A JavaScript [Map] with string keys: the entries in insertion order.
    [set] on a key that is present replaces the value where it stands. *)
Module JsMap.
Definition t (V : Type) := list (jsstring * V).

Definition empty {V} : t V := [].

Fixpoint get {V} (k : jsstring) (m : t V) : option V :=
  match m with
  | [] => None
  | (k', v) :: m' => if str_eqb k k' then Some v else get k m'
  end.

Fixpoint set {V} (k : jsstring) (v : V) (m : t V) : t V :=
  match m with
  | [] => [(k, v)]
  | (k', v') :: m' =>
      if str_eqb k k' then (k', v) :: m' else (k', v') :: set k v m'
  end.

Definition values {V} (m : t V) : list V := map snd m.
Definition keys {V} (m : t V) : list jsstring := map fst m.
End JsMap.

Record SysMLModel := mkModel {
  elements : JsMap.t Element.t;
  rootPackage : option jsstring
}.

(* ================================================================== *)
(** * The parser ([SysMLParser], [parser.ts]) *)

Module Parser.

(** What a method can throw: the [Error] of [expect], or the [TypeError]
    of a property access on [undefined]. *)
Inductive Exn :=
| Error (message : jsstring)
| TypeError.

(** The fields of a [SysMLParser] object. *)
Record State := mk {
  tokens : list Token.t;
  pos : nat;
  model : SysMLModel;
  idCounter : nat
}.

Definition P := M Exn State.

Definition this : P State := gets (fun st => st).

Definition set_pos (n : nat) (st : State) : State :=
  mk (tokens st) n (model st) (idCounter st).
Definition set_model (m : SysMLModel) (st : State) : State :=
  mk (tokens st) (pos st) m (idCounter st).

(** [`elem_${n}`] *)
Definition elem_ (n : nat) : jsstring := js "elem_" ++ decimal n.

Definition generateId : P jsstring :=
  fun st =>
    let n := idCounter st + 1 in
    Return (elem_ n) (mk (tokens st) (pos st) (model st) n).

Definition current (st : State) : Token.t :=
  nth (pos st) (tokens st) (Token.mk EOF [] 0 0).

Definition advance : P Token.t :=
  fun st => Return (current st) (set_pos (pos st + 1) st).

Definition token_is (type : TokenType) (value : option jsstring) (token : Token.t)
  : bool :=
  if negb (TokenType_eqb (Token.type token) type) then false
  else match value with
       | Some v => str_eqb (Token.value token) v
       | None => true
       end.

Definition check (type : TokenType) (value : option jsstring) (st : State) : bool :=
  token_is type value (current st).

Definition match_ (type : TokenType) (value : option jsstring) : P bool :=
  st <- this ;;
  if check type value st then advance ;; ret true else ret false.

Definition expected (type : TokenType) (value : option jsstring) (token : Token.t)
  : jsstring :=
  js "Expected " ++ TokenType_string type
    ++ match value with
       | Some v => if truthy v then js " '" ++ v ++ js "'" else []
       | None => []
       end
    ++ js " but got " ++ TokenType_string (Token.type token)
    ++ js " '" ++ Token.value token ++ js "' at line "
    ++ decimal (Token.line token).

Definition expect (type : TokenType) (value : option jsstring) : P Token.t :=
  st <- this ;;
  if negb (check type value st)
  then throw (Error (expected type value (current st)))
  else advance.

Definition lookAhead (type : TokenType) (value : option jsstring) (st : State)
  : bool :=
  match nth_error (tokens st) (pos st + 1) with
  | None => false
  | Some nextToken => token_is type value nextToken
  end.

(** [this.model.elements.set(id, element)] *)
Definition setElement (id : jsstring) (e : Element.t) : P unit :=
  modify (fun st =>
    set_model (mkModel (JsMap.set id e (elements (model st)))
                 (rootPackage (model st))) st).

(** [this.model.rootPackage = id] *)
Definition setRootPackage (id : jsstring) : P unit :=
  modify (fun st => set_model (mkModel (elements (model st)) (Some id)) st).

(** [parent.children.push(elemId)], where [parent] is the object that
    [this.model.elements.get(parentId)] returned: the map holds that very
    object, so the push shows in the map.  On [undefined] the access
    throws. *)
Definition pushChild (parentId elemId : jsstring) : P unit :=
  st <- this ;;
  match JsMap.get parentId (elements (model st)) with
  | Some parent =>
      setElement parentId
        (Element.with_children (Element.children parent ++ [elemId]) parent)
  | None => throw TypeError
  end.

Definition kw (s : string) : option jsstring := Some (js s).
Arguments kw s%_string.

Definition any : option jsstring := None.

(** Updates of the object a production is building. *)
Definition push_children (c : jsstring) (e : Element.t) : Element.t :=
  Element.with_children (Element.children e ++ [c]) e.

Definition push_ports (c : jsstring) (e : Element.t) : Element.t :=
  match Element.fields e with
  | PartDefFields ports parts =>
      Element.with_fields (PartDefFields (ports ++ [c]) parts) e
  | _ => e
  end.

Definition push_parts (c : jsstring) (e : Element.t) : Element.t :=
  match Element.fields e with
  | PartDefFields ports parts =>
      Element.with_fields (PartDefFields ports (parts ++ [c])) e
  | _ => e
  end.

Definition push_items (i : jsstring) (e : Element.t) : Element.t :=
  match Element.fields e with
  | PortDefFields items direction =>
      Element.with_fields (PortDefFields (items ++ [i]) direction) e
  | _ => e
  end.

Definition set_reqId (v : jsstring) (e : Element.t) : Element.t :=
  match Element.fields e with
  | RequirementDefFields _ text =>
      Element.with_fields (RequirementDefFields (Some v) text) e
  | _ => e
  end.

Definition set_text (v : jsstring) (e : Element.t) : Element.t :=
  match Element.fields e with
  | RequirementDefFields reqId _ =>
      Element.with_fields (RequirementDefFields reqId (Some v)) e
  | _ => e
  end.

Definition push_states (c : jsstring) (e : Element.t) : Element.t :=
  match Element.fields e with
  | StateDefFields states transitions =>
      Element.with_fields (StateDefFields (states ++ [c]) transitions) e
  | _ => e
  end.

Definition push_transitions (c : jsstring) (e : Element.t) : Element.t :=
  match Element.fields e with
  | StateDefFields states transitions =>
      Element.with_fields (StateDefFields states (transitions ++ [c])) e
  | _ => e
  end.

Definition set_entryAction (v : jsstring) (e : Element.t) : Element.t :=
  match Element.fields e with
  | StateFields _ => Element.with_fields (StateFields (Some v)) e
  | _ => e
  end.

(** [!check('RBRACE') && !check('EOF')] *)
Definition inBody (st : State) : bool :=
  negb (check RBRACE any st) && negb (check EOF any st).

(** [!check('SEMICOLON') && !check('RBRACE') && !check('EOF')] *)
Definition inStatement (st : State) : bool :=
  negb (check SEMICOLON any st) && negb (check RBRACE any st)
  && negb (check EOF any st).

(** The loop [while (this.match('DOT')) { name += '.' + ... }] of
    [parseQualifiedName]. *)
Fixpoint dotted (fuel : nat) (name : jsstring) : P jsstring :=
  match fuel with
  | O => fun _ => OutOfFuel
  | S fuel' =>
      dot <- match_ DOT any ;;
      if dot then
        seg <- expect IDENTIFIER any ;;
        dotted fuel' (name ++ js "." ++ Token.value seg)
      else ret name
  end.

Section Productions.
Variable fuel : nat.

Definition parseQualifiedName : P jsstring :=
  first <- expect IDENTIFIER any ;;
  dotted fuel (Token.value first).

Definition parseItemDef (parent : jsstring) : P jsstring :=
  expect KEYWORD (kw "item") ;;
  expect KEYWORD (kw "def") ;;
  name <- expect IDENTIFIER any ;;
  id <- generateId ;;
  let item :=
    Element.mk ElementType.item_def (Token.value name) id (Some parent)
      [] [] NoFields in
  brace <- match_ LBRACE any ;;
  (if brace then
     while fuel inBody (fun _ => advance ;; ret tt) tt ;;
     expect RBRACE any ;; ret tt
   else match_ SEMICOLON any ;; ret tt) ;;
  setElement id item ;;
  ret id.

Definition parsePortDef (parent : jsstring) : P jsstring :=
  expect KEYWORD (kw "port") ;;
  expect KEYWORD (kw "def") ;;
  name <- expect IDENTIFIER any ;;
  id <- generateId ;;
  let portDef :=
    Element.mk ElementType.port_def (Token.value name) id (Some parent)
      [] [] (PortDefFields [] None) in
  brace <- match_ LBRACE any ;;
  portDef <-
    (if brace then
       portDef <-
         while fuel inBody
           (fun portDef =>
              st <- this ;;
              if check KEYWORD (kw "inout") st || check KEYWORD (kw "in") st
                 || check KEYWORD (kw "out") st
              then
                direction <- advance ;;
                isItem <- match_ KEYWORD (kw "item") ;;
                if isItem then
                  itemName <- expect IDENTIFIER any ;;
                  colon <- match_ COLON any ;;
                  portDef <-
                    (if colon then
                       itemType <- expect IDENTIFIER any ;;
                       ret (push_items
                              (Token.value direction ++ js " "
                               ++ Token.value itemName ++ js ": "
                               ++ Token.value itemType) portDef)
                     else ret portDef) ;;
                  match_ SEMICOLON any ;;
                  ret portDef
                else ret portDef
              else advance ;; ret portDef)
           portDef ;;
       expect RBRACE any ;;
       ret portDef
     else match_ SEMICOLON any ;; ret portDef) ;;
  setElement id portDef ;;
  ret id.

Definition parsePort (parent : jsstring) : P jsstring :=
  expect KEYWORD (kw "port") ;;
  name <- expect IDENTIFIER any ;;
  id <- generateId ;;
  colon <- match_ COLON any ;;
  defRef <-
    (if colon then t <- expect IDENTIFIER any ;; ret (Some (Token.value t))
     else ret None) ;;
  let port :=
    Element.mk ElementType.port (Token.value name) id (Some parent)
      [] [] (PortFields defRef None) in
  match_ SEMICOLON any ;;
  setElement id port ;;
  ret id.

Definition parsePart (parent : jsstring) : P jsstring :=
  expect KEYWORD (kw "part") ;;
  name <- expect IDENTIFIER any ;;
  id <- generateId ;;
  colon <- match_ COLON any ;;
  refs <-
    (if colon then
       defRef <- expect IDENTIFIER any ;;
       bracket <- match_ LBRACKET any ;;
       if bracket then
         multiplicity <- expect NUMBER any ;;
         expect RBRACKET any ;;
         ret (Some (Token.value defRef), Some (Token.value multiplicity))
       else ret (Some (Token.value defRef), None)
     else ret (None, None)) ;;
  let part :=
    Element.mk ElementType.part (Token.value name) id (Some parent)
      [] [] (PartFields (fst refs) (snd refs)) in
  match_ SEMICOLON any ;;
  setElement id part ;;
  ret id.

Definition parseRequirementDef (parent : jsstring) : P jsstring :=
  expect KEYWORD (kw "requirement") ;;
  expect KEYWORD (kw "def") ;;
  name <- expect IDENTIFIER any ;;
  id <- generateId ;;
  let req :=
    Element.mk ElementType.requirement_def (Token.value name) id
      (Some parent) [] [] (RequirementDefFields None None) in
  brace <- match_ LBRACE any ;;
  req <-
    (if brace then
       req <-
         while fuel inBody
           (fun req =>
              st <- this ;;
              if check KEYWORD (kw "id") st then
                advance ;;
                expect EQUALS any ;;
                v <- expect STRING any ;;
                match_ SEMICOLON any ;;
                ret (set_reqId (Token.value v) req)
              else if check KEYWORD (kw "text") st then
                advance ;;
                expect EQUALS any ;;
                v <- expect STRING any ;;
                match_ SEMICOLON any ;;
                ret (set_text (Token.value v) req)
              else advance ;; ret req)
           req ;;
       expect RBRACE any ;;
       ret req
     else ret req) ;;
  setElement id req ;;
  ret id.

Definition parseState (parent : jsstring) : P jsstring :=
  expect KEYWORD (kw "state") ;;
  name <- expect IDENTIFIER any ;;
  id <- generateId ;;
  let state :=
    Element.mk ElementType.state (Token.value name) id (Some parent)
      [] [] (StateFields None) in
  brace <- match_ LBRACE any ;;
  state <-
    (if brace then
       state <-
         while fuel inBody
           (fun state =>
              st <- this ;;
              if check KEYWORD (kw "entry") st then
                advance ;;
                action <- match_ KEYWORD (kw "action") ;;
                if action then
                  entryAction <- expect IDENTIFIER any ;;
                  let state := set_entryAction (Token.value entryAction) state in
                  inner <- match_ LBRACE any ;;
                  if inner then
                    while fuel (fun st => negb (check RBRACE any st))
                      (fun _ => advance ;; ret tt) tt ;;
                    expect RBRACE any ;;
                    ret state
                  else ret state
                else ret state
              else advance ;; ret state)
           state ;;
       expect RBRACE any ;;
       ret state
     else ret state) ;;
  setElement id state ;;
  ret id.

(** The body of the loop of [parseTransition]; [vars] is the values of
    [source], [target] and [trigger]. *)
Definition transitionClause (vars : jsstring * jsstring * option jsstring)
  : P (jsstring * jsstring * option jsstring) :=
  let '(source, target, trigger) := vars in
  isFirst <- match_ KEYWORD (kw "first") ;;
  if isFirst then
    t <- expect IDENTIFIER any ;;
    ret (Token.value t, target, trigger)
  else
    isAccept <- match_ KEYWORD (kw "accept") ;;
    if isAccept then
      t <- expect IDENTIFIER any ;;
      ret (source, target, Some (Token.value t))
    else
      isThen <- match_ KEYWORD (kw "then") ;;
      if isThen then
        t <- expect IDENTIFIER any ;;
        ret (source, Token.value t, trigger)
      else advance ;; ret (source, target, trigger).

Definition parseTransition (parent : jsstring) : P jsstring :=
  expect KEYWORD (kw "transition") ;;
  name <- expect IDENTIFIER any ;;
  id <- generateId ;;
  vars <- while fuel inStatement transitionClause ([], [], None) ;;
  match_ SEMICOLON any ;;
  let '(source, target, trigger) := vars in
  let transition :=
    Element.mk ElementType.transition (Token.value name) id (Some parent)
      [] [] (TransitionFields source target trigger) in
  setElement id transition ;;
  ret id.

Definition parseConnection (parent : jsstring) : P (option jsstring) :=
  expect KEYWORD (kw "interface") ;;
  connect <- match_ KEYWORD (kw "connect") ;;
  if negb connect then
    while fuel inStatement (fun _ => advance ;; ret tt) tt ;;
    match_ SEMICOLON any ;;
    ret None
  else
    expect LPAREN any ;;
    source <- parseQualifiedName ;;
    expect COMMA any ;;
    target <- parseQualifiedName ;;
    expect RPAREN any ;;
    match_ SEMICOLON any ;;
    id <- generateId ;;
    let conn :=
      Element.mk ElementType.connection (source ++ js "->" ++ target) id
        (Some parent) [] [] (ConnectionFields source target) in
    setElement id conn ;;
    ret (Some id).

Definition parseBind (parent : jsstring) : P jsstring :=
  expect KEYWORD (kw "bind") ;;
  source <- parseQualifiedName ;;
  expect EQUALS any ;;
  target <- parseQualifiedName ;;
  match_ SEMICOLON any ;;
  id <- generateId ;;
  let bind :=
    Element.mk ElementType.bind (source ++ js "=" ++ target) id
      (Some parent) [] [] (BindFields source target) in
  setElement id bind ;;
  ret id.

Definition parseStateDefBody (parentId : jsstring) (stateDef : Element.t)
  : P Element.t :=
  while fuel inBody
    (fun stateDef =>
       st <- this ;;
       if check KEYWORD (kw "state") st then
         stateId <- parseState parentId ;;
         ret (push_children stateId (push_states stateId stateDef))
       else if check KEYWORD (kw "transition") st then
         transId <- parseTransition parentId ;;
         ret (push_children transId (push_transitions transId stateDef))
       else if check KEYWORD (kw "entry") st then
         advance ;;
         match_ SEMICOLON any ;;
         isThen <- match_ KEYWORD (kw "then") ;;
         (if isThen then
            expect IDENTIFIER any ;;
            match_ SEMICOLON any ;;
            ret tt
          else ret tt) ;;
         ret stateDef
       else advance ;; ret stateDef)
    stateDef.

Definition parseStateDef (parent : jsstring) : P jsstring :=
  expect KEYWORD (kw "state") ;;
  expect KEYWORD (kw "def") ;;
  name <- expect IDENTIFIER any ;;
  id <- generateId ;;
  let stateDef :=
    Element.mk ElementType.state_def (Token.value name) id (Some parent)
      [] [] (StateDefFields [] []) in
  brace <- match_ LBRACE any ;;
  stateDef <-
    (if brace then
       stateDef <- parseStateDefBody id stateDef ;;
       expect RBRACE any ;;
       ret stateDef
     else ret stateDef) ;;
  setElement id stateDef ;;
  ret id.

(** [if (id) children.push(id)] for the [string | null] that
    [parseConnection] returns. *)
Definition whenId {A} (id : option jsstring) (k : jsstring -> A) (a : A) : A :=
  match id with
  | Some i => if truthy i then k i else a
  | None => a
  end.

Definition parsePartDefBody (parentId : jsstring) (partDef : Element.t)
  : P Element.t :=
  while fuel inBody
    (fun partDef =>
       st <- this ;;
       if check KEYWORD (kw "port") st then
         portId <- parsePort parentId ;;
         ret (push_children portId (push_ports portId partDef))
       else if check KEYWORD (kw "part") st then
         childPartId <- parsePart parentId ;;
         ret (push_children childPartId (push_parts childPartId partDef))
       else if check KEYWORD (kw "state") st
               && lookAhead KEYWORD (kw "def") st then
         stateDefId <- parseStateDef parentId ;;
         ret (push_children stateDefId partDef)
       else if check KEYWORD (kw "interface") st then
         connId <- parseConnection parentId ;;
         ret (whenId connId (fun i => push_children i partDef) partDef)
       else if check KEYWORD (kw "bind") st then
         bindId <- parseBind parentId ;;
         ret (push_children bindId partDef)
       else advance ;; ret partDef)
    partDef.

Definition parsePartDef (parent : jsstring) : P jsstring :=
  expect KEYWORD (kw "part") ;;
  expect KEYWORD (kw "def") ;;
  name <- expect IDENTIFIER any ;;
  id <- generateId ;;
  let partDef :=
    Element.mk ElementType.part_def (Token.value name) id (Some parent)
      [] [] (PartDefFields [] []) in
  brace <- match_ LBRACE any ;;
  partDef <-
    (if brace then
       partDef <- parsePartDefBody id partDef ;;
       expect RBRACE any ;;
       ret partDef
     else match_ SEMICOLON any ;; ret partDef) ;;
  setElement id partDef ;;
  ret id.

Definition parsePackageBody (parentId : jsstring) : P unit :=
  while fuel inBody
    (fun _ =>
       st <- this ;;
       if check KEYWORD (kw "item") st && lookAhead KEYWORD (kw "def") st then
         elemId <- parseItemDef parentId ;;
         pushChild parentId elemId
       else if check KEYWORD (kw "port") st
               && lookAhead KEYWORD (kw "def") st then
         elemId <- parsePortDef parentId ;;
         pushChild parentId elemId
       else if check KEYWORD (kw "part") st
               && lookAhead KEYWORD (kw "def") st then
         elemId <- parsePartDef parentId ;;
         pushChild parentId elemId
       else if check KEYWORD (kw "part") st then
         elemId <- parsePart parentId ;;
         pushChild parentId elemId
       else if check KEYWORD (kw "requirement") st
               && lookAhead KEYWORD (kw "def") st then
         elemId <- parseRequirementDef parentId ;;
         pushChild parentId elemId
       else if check KEYWORD (kw "state") st
               && lookAhead KEYWORD (kw "def") st then
         elemId <- parseStateDef parentId ;;
         pushChild parentId elemId
       else if check KEYWORD (kw "interface") st then
         elemId <- parseConnection parentId ;;
         whenId elemId (fun i => pushChild parentId i) (ret tt)
       else if check KEYWORD (kw "bind") st then
         elemId <- parseBind parentId ;;
         pushChild parentId elemId
       else advance ;; ret tt)
    tt.

(** [if (!parent)]: [undefined] and the empty string are falsy. *)
Definition absent (parent : option jsstring) : bool :=
  match parent with
  | Some p => negb (truthy p)
  | None => true
  end.

Definition parsePackage (parent : option jsstring) : P unit :=
  expect KEYWORD (kw "package") ;;
  name <- expect IDENTIFIER any ;;
  id <- generateId ;;
  let pkg :=
    Element.mk ElementType.package (Token.value name) id parent
      [] [] NoFields in
  setElement id pkg ;;
  (if absent parent then setRootPackage id else ret tt) ;;
  expect LBRACE any ;;
  parsePackageBody id ;;
  expect RBRACE any ;;
  ret tt.

Definition notComment (t : Token.t) : bool :=
  negb (TokenType_eqb (Token.type t) COMMENT).

Definition parse (source : jsstring) : P SysMLModel :=
  fun this_ =>
    match Lexer.tokenize fuel source with
    | None => OutOfFuel
    | Some toks =>
        (modify (fun st =>
           mk (filter notComment toks) (pos st) (model st) (idCounter st)) ;;
         modify (set_pos 0) ;;
         modify (set_model (mkModel JsMap.empty None)) ;;
         modify (fun st => mk (tokens st) (pos st) (model st) 0) ;;
         st <- this ;;
         (if check KEYWORD (kw "package") st then parsePackage None
          else ret tt) ;;
         gets model) this_
    end.

End Productions.

(** [new SysMLParser()] *)
Definition new : State := mk [] 0 (mkModel JsMap.empty None) 0.

End Parser.

(** [parseSysML(source)]: the returned model, the thrown error, or
    [OutOfFuel]. *)
Definition parseSysML (fuel : nat) (source : jsstring)
  : Outcome Parser.Exn Parser.State SysMLModel :=
  Parser.parse fuel source Parser.new.

Definition result {E St A} (o : Outcome E St A) : option A :=
  match o with Return a _ => Some a | _ => None end.

(* ================================================================== *)
(** * The query layer (the model context) *)

Module ModelContext.

(** [l.filter(e => e !== undefined)] *)
Fixpoint defined {A} (l : list (option A)) : list A :=
  match l with
  | [] => []
  | Some a :: l' => a :: defined l'
  | None :: l' => defined l'
  end.

Section WithModel.
(** The [model] of the context; [None] is [null]. *)
Variable model : option SysMLModel.

(** [model?.elements.get(id)] *)
Definition getElement (id : jsstring) : option Element.t :=
  match model with
  | Some m => JsMap.get id (elements m)
  | None => None
  end.

Definition getChildren (id : jsstring) : list Element.t :=
  match getElement id with
  | None => []
  | Some element =>
      defined (map (fun childId => getElement childId)
                 (Element.children element))
  end.

Definition getRootElements : list Element.t :=
  match model with
  | None => []
  | Some m =>
      match rootPackage m with
      | None => []
      | Some root => if truthy root then getChildren root else []
      end
  end.

Definition getPartDefs : list Element.t :=
  match model with
  | None => []
  | Some m =>
      filter (fun e => ElementType.eqb (Element.type e) ElementType.part_def)
        (JsMap.values (elements m))
  end.

Definition getConnections : list Element.t :=
  match model with
  | None => []
  | Some m =>
      filter (fun e =>
                ElementType.eqb (Element.type e) ElementType.connection
                || ElementType.eqb (Element.type e) ElementType.bind)
        (JsMap.values (elements m))
  end.
End WithModel.

End ModelContext.

(* ================================================================== *)
(** * Vocabulary of the properties *)

(** [l] is [m] with some elements left out, the rest in the same order. *)
Inductive Subseq {A} : list A -> list A -> Prop :=
| Subseq_nil : Subseq [] []
| Subseq_skip x l m : Subseq l m -> Subseq l (m ++ [x])
| Subseq_keep x l m : Subseq l m -> Subseq (l ++ [x]) (m ++ [x]).

(** The ids that [generateId] has handed out when the counter is [c]. *)
Definition allocated (c : nat) (k : jsstring) : Prop :=
  exists n, 1 <= n <= c /\ k = Parser.elem_ n.

(** Every id of [chs] is in [m], on an element whose parent is [p]. *)
Definition children_in (m : JsMap.t Element.t) (p : jsstring)
    (chs : list jsstring) : Prop :=
  forall ch, In ch chs ->
    exists ce, JsMap.get ch m = Some ce /\ Element.parent ce = Some p.

(** The convenience lists of an element are sublists of its children. *)
Definition lists_in_order (e : Element.t) : Prop :=
  Subseq (Element.ports e) (Element.children e)
  /\ Subseq (Element.parts e) (Element.children e)
  /\ Subseq (Element.states e) (Element.children e)
  /\ Subseq (Element.transitions e) (Element.children e).

(** The invariant of the element map [m] under construction, when the id
    counter is [c]. *)
Record Inv (m : JsMap.t Element.t) (c : nat) : Prop := {
  inv_nodup : NoDup (JsMap.keys m);
  inv_key : forall k e, JsMap.get k m = Some e ->
                        Element.id e = k /\ allocated c k;
  inv_children : forall k e, JsMap.get k m = Some e ->
                             children_in m k (Element.children e);
  inv_lists : forall k e, JsMap.get k m = Some e -> lists_in_order e
}.

(** [(m', c')] extends [(m, c)]: the entries of [m] are untouched and the
    new keys are ids handed out in between. *)
Record Ext (m : JsMap.t Element.t) (c : nat) (m' : JsMap.t Element.t)
    (c' : nat) : Prop := {
  ext_counter : c <= c';
  ext_old : forall k e, JsMap.get k m = Some e -> JsMap.get k m' = Some e;
  ext_new : forall k, JsMap.get k m' <> None ->
                      JsMap.get k m <> None
                      \/ exists n, c < n <= c' /\ k = Parser.elem_ n
}.

(** The element map of a parser. *)
Definition els (st : Parser.State) : JsMap.t Element.t :=
  elements (Parser.model st).

(** Two parser states that differ in the cursor only. *)
Definition frame (st st' : Parser.State) : Prop :=
  Parser.tokens st' = Parser.tokens st
  /\ Parser.model st' = Parser.model st
  /\ Parser.idCounter st' = Parser.idCounter st.

(** Two versions of an object under construction that agree on what the
    invariant reads. *)
Definition same_core (e e' : Element.t) : Prop :=
  Element.id e' = Element.id e
  /\ Element.parent e' = Element.parent e
  /\ Element.children e' = Element.children e
  /\ Element.ports e' = Element.ports e
  /\ Element.parts e' = Element.parts e
  /\ Element.states e' = Element.states e
  /\ Element.transitions e' = Element.transitions e.

(** What a production that returns the id of a new child of [parent]
    establishes, from parser [st] to parser [st']. *)
Definition produces (parent : jsstring) (st : Parser.State) (id : jsstring)
    (st' : Parser.State) : Prop :=
  Inv (els st') (Parser.idCounter st')
  /\ Ext (els st) (Parser.idCounter st) (els st') (Parser.idCounter st')
  /\ exists e, JsMap.get id (els st') = Some e
               /\ Element.parent e = Some parent.

(** The state of a production that is filling the body of the element with
    id [pid]: [a] is the object under construction, whose body started in
    parser [s0] as [e0]; every child pushed so far is in the map, under
    [pid]. *)
Definition under (pid : jsstring) (s0 : Parser.State) (e0 a : Element.t)
    (s : Parser.State) : Prop :=
  Inv (els s) (Parser.idCounter s)
  /\ Ext (els s0) (Parser.idCounter s0) (els s) (Parser.idCounter s)
  /\ Element.id a = Element.id e0
  /\ Element.parent a = Element.parent e0
  /\ children_in (els s) pid (Element.children a)
  /\ lists_in_order a.

(** Parent consistency of a model: each child id of each element resolves
    to an element whose parent is that element. *)
Definition parent_consistent (m : SysMLModel) : Prop :=
  forall E, In E (JsMap.values (elements m)) ->
  forall C, In C (Element.children E) ->
    exists ce, ModelContext.getElement (Some m) C = Some ce
               /\ Element.parent ce = Some (Element.id E).

(** Two models that differ by a renaming [r] of the element ids only: the
    same elements in the same order, with the same types, names and other
    fields, and the same parent, child and root relationships. *)
Definition rename_fields (r : jsstring -> jsstring) (f : Fields) : Fields :=
  match f with
  | PartDefFields ports parts => PartDefFields (map r ports) (map r parts)
  | StateDefFields states transitions =>
      StateDefFields (map r states) (map r transitions)
  | f => f
  end.

Definition rename (r : jsstring -> jsstring) (e : Element.t) : Element.t :=
  Element.mk (Element.type e) (Element.name e) (r (Element.id e))
    (option_map r (Element.parent e)) (map r (Element.children e))
    (Element.metadata e) (rename_fields r (Element.fields e)).

Definition structurally_identical (m1 m2 : SysMLModel) : Prop :=
  exists r : jsstring -> jsstring,
    (forall a b, r a = r b -> a = b)
    /\ elements m2 = map (fun ke => (r (fst ke), rename r (snd ke))) (elements m1)
    /\ rootPackage m2 = option_map r (rootPackage m1).

(** The tokens from the cursor of the parser on are [l]. *)
Definition rest_is (st : Parser.State) (l : list Token.t) : Prop :=
  skipn (Parser.pos st) (Parser.tokens st) = l.

(** Tokens by type and text, for token sequences that are written down;
    the parser does not read the line and the column of a token that it
    accepts. *)
Definition keyword (v : string) : Token.t := Token.mk KEYWORD (js v) 0 0.
Definition ident (v : jsstring) : Token.t := Token.mk IDENTIFIER v 0 0.
Definition punct (type : TokenType) : Token.t := Token.mk type [] 0 0.

Arguments keyword v%_string.







(** A qualified name: an identifier token and then pairs of a dot and an
    identifier. *)
Definition qualified (x : Token.t) (segs : list (Token.t * Token.t))
  : list Token.t :=
  x :: flat_map (fun ds => [fst ds; snd ds]) segs.

Definition qualified_ok (x : Token.t) (segs : list (Token.t * Token.t)) : bool :=
  Parser.token_is IDENTIFIER Parser.any x
  && forallb (fun ds => Parser.token_is DOT Parser.any (fst ds)
                        && Parser.token_is IDENTIFIER Parser.any (snd ds)) segs.

(** The texts of the identifiers, joined by dots. *)
Definition dot_joined (x : Token.t) (segs : list (Token.t * Token.t)) : jsstring :=
  Token.value x ++ concat (map (fun ds => js "." ++ Token.value (snd ds)) segs).

(** The outcome [o] is not [OutOfFuel]; when it is a return, [Q] holds of
    the value and the state. *)
Definition safe {E St A} (Q : A -> St -> Prop) (o : Outcome E St A) : Prop :=
  match o with
  | Return a s => Q a s
  | Throw _ => True
  | OutOfFuel => False
  end.

(** No token is the keyword [action]. *)
Definition no_action (toks : list Token.t) : Prop :=
  forall t, In t toks -> Parser.token_is KEYWORD (Parser.kw "action") t = false.

(** The token sequence opens with the keyword [package]. *)
Definition opensWithPackage (toks : list Token.t) : bool :=
  match toks with
  | t :: _ => Parser.token_is KEYWORD (Parser.kw "package") t
  | [] => false
  end.

(** The lexer operation [m] returns, moves [pos] forward and pushes one
    token at most. *)
Definition progress (m : Lexer.L unit) (st : Lexer.State) : Prop :=
  exists st',
    m st = Return tt st'
    /\ Lexer.pos st < Lexer.pos st'
    /\ length (Lexer.tokens st') <= length (Lexer.tokens st) + 1.

(** A character that no rule of the lexer matches, given the character
    [next] that follows it. *)
Definition unmatched (c : char) (next : option char) : bool :=
  negb (Lexer.isSpace c)
  && negb (N.eqb c (ch "/") && (Lexer.charIs "/" next || Lexer.charIs "*" next))
  && negb (N.eqb c (ch quote))
  && negb (Lexer.isDigit c)
  && negb (Lexer.isIdentStart c)
  && match Lexer.singleTokens c with Some _ => false | None => true end.

(* ================================================================== *)
(** ** The shape of the element graph *)

(** The id [k] resolves in [m] to an element of type [T]. *)
Definition has_type (m : JsMap.t Element.t) (T : ElementType.t) (k : jsstring)
  : bool :=
  match JsMap.get k m with
  | Some e => ElementType.eqb (Element.type e) T
  | None => false
  end.

(** The ids of [chs] that resolve to an element of type [T], in order. *)
Definition of_type (m : JsMap.t Element.t) (T : ElementType.t)
    (chs : list jsstring) : list jsstring :=
  filter (has_type m T) chs.

(** The element types that the body of an element of type [P] gives as
    children: the branches of [parsePackageBody], [parsePartDefBody] and
    [parseStateDefBody] that push a child.  No other production pushes
    one. *)
Definition allowed (P C : ElementType.t) : bool :=
  match P, C with
  | ElementType.package,
    (ElementType.item_def | ElementType.port_def | ElementType.part_def
    | ElementType.part | ElementType.requirement_def | ElementType.state_def
    | ElementType.connection | ElementType.bind) => true
  | ElementType.part_def,
    (ElementType.port | ElementType.part | ElementType.state_def
    | ElementType.connection | ElementType.bind) => true
  | ElementType.state_def,
    (ElementType.state | ElementType.transition) => true
  | _, _ => false
  end.

(** The fields of an element are those of the interface of [types.ts]
    that its type tag names. *)
Definition fields_match (T : ElementType.t) (f : Fields) : bool :=
  match T, f with
  | ElementType.package, NoFields
  | ElementType.item_def, NoFields
  | ElementType.part_def, PartDefFields _ _
  | ElementType.part, PartFields _ _
  | ElementType.port_def, PortDefFields _ _
  | ElementType.port, PortFields _ _
  | ElementType.requirement_def, RequirementDefFields _ _
  | ElementType.state_def, StateDefFields _ _
  | ElementType.state, StateFields _
  | ElementType.transition, TransitionFields _ _ _
  | ElementType.connection, ConnectionFields _ _
  | ElementType.bind, BindFields _ _ => true
  | _, _ => false
  end.

(** The element under [p] lists [k] among its children. *)
Definition listed (m : JsMap.t Element.t) (p k : jsstring) : Prop :=
  exists pe, JsMap.get p m = Some pe /\ In k (Element.children pe).

(** Every child of [e] resolves, to an element of a type that the body of
    [e] can hold. *)
Definition typed_children (m : JsMap.t Element.t) (e : Element.t) : Prop :=
  forall ch, In ch (Element.children e) ->
    exists ce, JsMap.get ch m = Some ce
               /\ allowed (Element.type e) (Element.type ce) = true.

(** The convenience lists of a definition are its children of the type
    that the list is named after. *)
Definition lists_exact (m : JsMap.t Element.t) (e : Element.t) : Prop :=
  (Element.type e = ElementType.part_def ->
   Element.ports e = of_type m ElementType.port (Element.children e)
   /\ Element.parts e = of_type m ElementType.part (Element.children e))
  /\ (Element.type e = ElementType.state_def ->
      Element.states e = of_type m ElementType.state (Element.children e)
      /\ Element.transitions e
         = of_type m ElementType.transition (Element.children e)).

Definition elem_shape (m : JsMap.t Element.t) (e : Element.t) : Prop :=
  fields_match (Element.type e) (Element.fields e) = true
  /\ typed_children m e
  /\ lists_exact m e
  /\ NoDup (Element.children e).

(** The shape of the element map [m] under construction.  [r] is the id
    of the root package; [P p k] holds of the ids [k] that were produced
    under [p] and that [p] does not list yet. *)
Record Shape (r : jsstring) (m : JsMap.t Element.t)
    (P : jsstring -> jsstring -> Prop) : Prop := {
  shape_elem : forall k e, JsMap.get k m = Some e -> elem_shape m e;
  shape_root : forall k e, JsMap.get k m = Some e ->
                 Element.type e = ElementType.package
                 \/ Element.parent e = None -> k = r;
  shape_conv : forall k e p, JsMap.get k m = Some e ->
                 Element.parent e = Some p -> listed m p k \/ P p k
}.

(** Every id handed out after [c] and up to [c'] is a key of [m]. *)
Definition filled (c : nat) (m : JsMap.t Element.t) (c' : nat) : Prop :=
  forall n, c < n <= c' -> JsMap.get (Parser.elem_ n) m <> None.

(** An element of type [T] under [parent], as a production builds it
    before it parses a body. *)
Definition fresh_elem (T : ElementType.t) (parent : jsstring) (e : Element.t)
  : Prop :=
  Element.type e = T
  /\ ElementType.eqb T ElementType.package = false
  /\ Element.parent e = Some parent
  /\ Element.children e = []
  /\ fields_match T (Element.fields e) = true
  /\ Element.ports e = [] /\ Element.parts e = []
  /\ Element.states e = [] /\ Element.transitions e = [].

(** What a production that returns the id of a new element of type [T]
    under [parent] establishes. *)
Definition makes (r : jsstring) (P : jsstring -> jsstring -> Prop)
    (T : ElementType.t) (parent : jsstring) (st : Parser.State)
    (id : jsstring) (st' : Parser.State) : Prop :=
  Shape r (els st') (fun p k => P p k \/ (p = parent /\ k = id))
  /\ JsMap.get id (els st) = None
  /\ (exists e, JsMap.get id (els st') = Some e /\ Element.type e = T)
  /\ filled (Parser.idCounter st) (els st') (Parser.idCounter st')
  /\ rootPackage (Parser.model st') = rootPackage (Parser.model st).

(** The object [a] of type [T] whose body is being parsed, with id [pid],
    when the element map is [m]. *)
Definition filling (r : jsstring) (P : jsstring -> jsstring -> Prop)
    (pid : jsstring) (T : ElementType.t) (parent : jsstring) (a : Element.t)
    (m : JsMap.t Element.t) : Prop :=
  Shape r m (fun p k => P p k \/ (p = pid /\ In k (Element.children a)))
  /\ JsMap.get pid m = None
  /\ Element.type a = T
  /\ ElementType.eqb T ElementType.package = false
  /\ Element.parent a = Some parent
  /\ elem_shape m a.

(** [a'] is [a] after the child [ch], of type [Tc], was pushed to its
    children and to the convenience list for that type. *)
Definition snoc_if (b : bool) (l : list jsstring) (ch : jsstring)
  : list jsstring :=
  if b then l ++ [ch] else l.

Definition pushes (a : Element.t) (ch : jsstring) (Tc : ElementType.t)
    (a' : Element.t) : Prop :=
  Element.id a' = Element.id a
  /\ Element.parent a' = Element.parent a
  /\ Element.type a' = Element.type a
  /\ Element.children a' = Element.children a ++ [ch]
  /\ fields_match (Element.type a) (Element.fields a') = true
  /\ Element.ports a'
     = snoc_if (ElementType.eqb Tc ElementType.port) (Element.ports a) ch
  /\ Element.parts a'
     = snoc_if (ElementType.eqb Tc ElementType.part) (Element.parts a) ch
  /\ Element.states a'
     = snoc_if (ElementType.eqb Tc ElementType.state) (Element.states a) ch
  /\ Element.transitions a'
     = snoc_if (ElementType.eqb Tc ElementType.transition)
         (Element.transitions a) ch.

(** The invariant of the loop that parses the body of the element with id
    [pid], which started in parser [s0] with the object [e0]. *)
Definition body_inv (r : jsstring) (P : jsstring -> jsstring -> Prop)
    (pid : jsstring) (T : ElementType.t) (parent : jsstring)
    (s0 : Parser.State) (e0 a : Element.t) (s : Parser.State) : Prop :=
  under pid s0 e0 a s
  /\ filling r P pid T parent a (els s)
  /\ filled (Parser.idCounter s0) (els s) (Parser.idCounter s)
  /\ allocated (Parser.idCounter s0) pid
  /\ rootPackage (Parser.model s) = rootPackage (Parser.model s0).

(** The invariant of the loop that parses the body of the root package,
    whose id is [r]. *)
Definition package_inv (r : jsstring) (s : Parser.State) : Prop :=
  Inv (els s) (Parser.idCounter s)
  /\ Shape r (els s) (fun _ _ => False)
  /\ filled 0 (els s) (Parser.idCounter s)
  /\ (exists pe, JsMap.get r (els s) = Some pe
                 /\ Element.type pe = ElementType.package
                 /\ Element.parent pe = None)
  /\ rootPackage (Parser.model s) = Some r.

(** [m'] has the entries of [m], with the same types. *)
Definition keeps_types (m m' : JsMap.t Element.t) : Prop :=
  forall k e, JsMap.get k m = Some e ->
    exists e', JsMap.get k m' = Some e' /\ Element.type e' = Element.type e.

(* ================================================================== *)
(** * The details panel ([ElementDetails]) *)

Module ElementDetails.

(** [children.filter(c => c.type === T)] *)
Definition ofType (T : ElementType.t) (children : list Element.t)
  : list Element.t :=
  filter (fun c => ElementType.eqb (Element.type c) T) children.

(** The lists [ports] and [parts] that [PartDefDetails] shows. *)
Definition PartDefDetails (children : list Element.t)
  : list Element.t * list Element.t :=
  (ofType ElementType.port children, ofType ElementType.part children).

(** The lists [states] and [transitions] that [StateDefDetails] shows. *)
Definition StateDefDetails (children : list Element.t)
  : list Element.t * list Element.t :=
  (ofType ElementType.state children, ofType ElementType.transition children).

End ElementDetails.

(* ================================================================== *)
(** * The diagram ([DiagramCanvas]) *)

(** [s.split(sep)] for a separator of one code unit. *)
Fixpoint split (sep : char) (s : jsstring) : list jsstring :=
  match s with
  | [] => [[]]
  | c :: s' =>
      if N.eqb c sep then [] :: split sep s'
      else match split sep s' with
           | w :: ws => (c :: w) :: ws
           | [] => [[c]]
           end
  end.

Fixpoint startsWith (s sub : jsstring) {struct sub} : bool :=
  match sub, s with
  | [], _ => true
  | _ :: _, [] => false
  | a :: sub', b :: s' => N.eqb a b && startsWith s' sub'
  end.

(** [s.includes(sub)] *)
Fixpoint includes (s sub : jsstring) : bool :=
  startsWith s sub
  || match s with
     | [] => false
     | _ :: s' => includes s' sub
     end.

(** ['sysml' | 'simplified'] *)
Inductive ViewMode := sysml | simplified.

Module NodeData.
Record t := mk {
  element : Element.t;
  ports : list Element.t;
  parts : list Element.t;
  isSelected : bool
}.
End NodeData.

(** A node of the diagram; its [type] is ['sysmlPart'] in the view mode
    [sysml] and ['simplifiedPart'] in the view mode [simplified]. *)
Module Node.
Record t := mk {
  id : jsstring;
  type : ViewMode;
  position : nat * nat;
  data : NodeData.t
}.
End Node.

(** An edge of the diagram; [style] and [animated] are constants. *)
Module Edge.
Record t := mk {
  id : jsstring;
  source : jsstring;
  target : jsstring
}.
End Edge.

Module DiagramCanvas.

Definition nodeWidth (viewMode : ViewMode) : nat :=
  match viewMode with sysml => 280 | simplified => 200 end.
Definition nodeHeight (viewMode : ViewMode) : nat :=
  match viewMode with sysml => 200 | simplified => 120 end.
Definition horizontalGap : nat := 60.
Definition verticalGap : nat := 40.
Definition cols : nat := 4.

(** The [source] and [target] properties of an element; [None] is
    [undefined]. *)
Definition source_of (conn : Element.t) : option jsstring :=
  match Element.fields conn with
  | ConnectionFields source _ | BindFields source _
  | TransitionFields source _ _ => Some source
  | _ => None
  end.

Definition target_of (conn : Element.t) : option jsstring :=
  match Element.fields conn with
  | ConnectionFields _ target | BindFields _ target
  | TransitionFields _ target _ => Some target
  | _ => None
  end.

Section Effect.
(** [String.prototype.toLowerCase], which the development does not
    interpret. *)
Variable toLowerCase : jsstring -> jsstring.
Variable model : option SysMLModel.
Variable viewMode : ViewMode.
Variable selectedElement : option jsstring.

(** The node that [partDefs.forEach] pushes for [partDef] at [index]. *)
Definition node (index : nat) (partDef : Element.t) : Node.t :=
  let col := index mod cols in
  let row := index / cols in
  let x := col * (nodeWidth viewMode + horizontalGap) + 50 in
  let y := row * (nodeHeight viewMode + verticalGap) + 50 in
  let ports :=
    ModelContext.defined
      (map (ModelContext.getElement model) (Element.ports partDef)) in
  let parts :=
    ModelContext.defined
      (map (ModelContext.getElement model) (Element.parts partDef)) in
  Node.mk (Element.id partDef) viewMode (x, y)
    (NodeData.mk partDef ports parts
       (match selectedElement with
        | Some s => str_eqb s (Element.id partDef)
        | None => false
        end)).

Fixpoint nodesFrom (index : nat) (partDefs : list Element.t) : list Node.t :=
  match partDefs with
  | [] => []
  | partDef :: rest => node index partDef :: nodesFrom (S index) rest
  end.

Definition newNodes : list Node.t :=
  nodesFrom 0 (ModelContext.getPartDefs model).

(** [parts.some(sp => elem.name.toLowerCase().includes(sp.toLowerCase()))]
    for the element of the node [n]. *)
Definition named (parts : list jsstring) (n : Node.t) : bool :=
  existsb
    (fun sp =>
       includes (toLowerCase (Element.name (NodeData.element (Node.data n))))
         (toLowerCase sp))
    parts.

(** The body of [connections.forEach]; [None] is the [TypeError] of
    [split] on [undefined]. *)
Definition connect (newEdges : list Edge.t) (conn : Element.t)
  : option (list Edge.t) :=
  match source_of conn, target_of conn with
  | Some source, Some target =>
      let sourceParts := split (ch ".") source in
      let targetParts := split (ch ".") target in
      match find (named sourceParts) newNodes,
            find (named targetParts) newNodes with
      | Some sourceNode, Some targetNode =>
          if negb (str_eqb (Node.id sourceNode) (Node.id targetNode)) then
            let edgeId := js "edge-" ++ Element.id conn in
            match find (fun e => str_eqb (Edge.id e) edgeId) newEdges with
            | None =>
                Some (newEdges
                      ++ [Edge.mk edgeId (Node.id sourceNode)
                            (Node.id targetNode)])
            | Some _ => Some newEdges
            end
          else Some newEdges
      | _, _ => Some newEdges
      end
  | _, _ => None
  end.

Fixpoint forEach (newEdges : list Edge.t) (connections : list Element.t)
  : option (list Edge.t) :=
  match connections with
  | [] => Some newEdges
  | conn :: rest =>
      match connect newEdges conn with
      | Some newEdges' => forEach newEdges' rest
      | None => None
      end
  end.

(** The elements of type [connection] of [model]. *)
Definition connections (m : SysMLModel) : list Element.t :=
  filter (fun e => ElementType.eqb (Element.type e) ElementType.connection)
    (JsMap.values (elements m)).

(** The nodes and the edges that the effect sets; [None] is a
    [TypeError]. *)
Definition effect : option (list Node.t * list Edge.t) :=
  match model with
  | None => Some ([], [])
  | Some m =>
      match viewMode with
      | simplified =>
          match forEach [] (connections m) with
          | Some newEdges => Some (newNodes, newEdges)
          | None => None
          end
      | sysml => Some (newNodes, [])
      end
  end.

End Effect.
End DiagramCanvas.

(** Two boxes of the size of a node, at the positions [a] and [b], with
    the gap between columns or between rows in between. *)
Definition apart (viewMode : ViewMode) (a b : nat * nat) : Prop :=
  fst a + DiagramCanvas.nodeWidth viewMode + DiagramCanvas.horizontalGap
    <= fst b
  \/ fst b + DiagramCanvas.nodeWidth viewMode + DiagramCanvas.horizontalGap
       <= fst a
  \/ snd a + DiagramCanvas.nodeHeight viewMode + DiagramCanvas.verticalGap
       <= snd b
  \/ snd b + DiagramCanvas.nodeHeight viewMode + DiagramCanvas.verticalGap
       <= snd a.

(** What holds of the edges pushed so far. *)
Definition edges_ok (nodes : list Node.t) (conns : list Element.t)
    (edges : list Edge.t) : Prop :=
  NoDup (map Edge.id edges)
  /\ forall e, In e edges ->
       In (Edge.source e) (map Node.id nodes)
       /\ In (Edge.target e) (map Node.id nodes)
       /\ Edge.source e <> Edge.target e
       /\ exists conn, In conn conns
                       /\ Edge.id e = js "edge-" ++ Element.id conn.

(* ================================================================== *)
(** ** Well-formed tokens *)

(** [v] is a first character that satisfies [first] and then characters
    that satisfy [rest]. *)
Definition word_ok (first rest : char -> bool) (v : jsstring) : bool :=
  match v with
  | c :: w => first c && forallb rest w
  | [] => false
  end.

(** [v] is the one character that the table [singleTokens] maps to
    [type]. *)
Definition single_ok (type : TokenType) (v : jsstring) : bool :=
  match v with
  | [c] =>
      match Lexer.singleTokens c with
      | Some type' => TokenType_eqb type' type
      | None => false
      end
  | _ => false
  end.

(** What the rules of the lexer give to a token of each type. *)
Definition token_ok (t : Token.t) : bool :=
  match Token.type t with
  | KEYWORD =>
      KEYWORDS_has (Token.value t)
      && word_ok Lexer.isIdentStart Lexer.isIdentPart (Token.value t)
  | IDENTIFIER =>
      negb (KEYWORDS_has (Token.value t))
      && word_ok Lexer.isIdentStart Lexer.isIdentPart (Token.value t)
  | NUMBER => word_ok Lexer.isNumberPart Lexer.isNumberPart (Token.value t)
  | STRING => forallb (fun c => negb (N.eqb (ch quote) c)) (Token.value t)
  | COMMENT =>
      startsWith (Token.value t) (js "//")
      || startsWith (Token.value t) (js "/*")
  | EOF => false
  | type => single_ok type (Token.value t)
  end.

Fixpoint nondecreasing (l : list nat) : Prop :=
  match l with
  | [] => True
  | x :: l' => Forall (le x) l' /\ nondecreasing l'
  end.

(** The number of newline characters of [s]. *)
Definition newlines (s : jsstring) : nat :=
  length (filter (N.eqb (ch Lexer.newline)) s).

(** The invariant of the main loop of [tokenize]. *)
Definition lex_inv (source : jsstring) (s : Lexer.State) : Prop :=
  Forall (fun t => token_ok t = true /\ 1 <= Token.line t
                   /\ 1 <= Token.column t) (Lexer.tokens s)
  /\ nondecreasing (map Token.line (Lexer.tokens s) ++ [Lexer.line s])
  /\ 1 <= Lexer.line s
  /\ Lexer.line s <= 1 + newlines (firstn (Lexer.pos s) source)
  /\ 1 <= Lexer.column s.

(** The invariant of a loop that scans from [start] over characters that
    satisfy [p], after the state [st]. *)
Definition scanning (source : jsstring) (st : Lexer.State) (start : nat)
    (p : char -> bool) (s : Lexer.State) : Prop :=
  Lexer.tokens s = Lexer.tokens st
  /\ Lexer.line st <= Lexer.line s
  /\ Lexer.line s <= 1 + newlines (firstn (Lexer.pos s) source)
  /\ 1 <= Lexer.column s
  /\ start <= Lexer.pos s
  /\ forall i, start <= i < Lexer.pos s ->
               Lexer.test p (Lexer.at_ source i) = true.

(** The texts of the tokens [toks] are pieces of [source] that lie
    between the positions [lo] and [hi], one after the other. *)
Fixpoint located (source : jsstring) (lo : nat) (toks : list Token.t)
    (hi : nat) : Prop :=
  match toks with
  | [] => lo <= hi
  | t :: rest =>
      exists a b,
        lo <= a /\ a <= b /\ Token.value t = slice source a b
        /\ located source b rest hi
  end.

(* ================================================================== *)
(** ** Errors *)

(** The error [e] is one that [expect] throws on a token of [toks]. *)
Definition expected_error (toks : list Token.t) (e : Parser.Exn) : Prop :=
  exists type value tok,
    In tok toks /\ Parser.token_is type value tok = false
    /\ e = Parser.Error (Parser.expected type value tok).

(** The outcome [o] is a return that satisfies [Q], an error of [expect]
    on a token of [toks], or [OutOfFuel]. *)
Definition sound {A} (toks : list Token.t) (Q : A -> Parser.State -> Prop)
    (o : Outcome Parser.Exn Parser.State A) : Prop :=
  match o with
  | Return a s => Q a s
  | Throw e => expected_error toks e
  | OutOfFuel => True
  end.

(** The cursor of the parser [s] is on a token of [body ++ [eof]]. *)
Definition on_token (body : list Token.t) (eof : Token.t) (s : Parser.State)
  : Prop :=
  Parser.tokens s = body ++ [eof] /\ Parser.pos s <= length body.

(** The state of the loop of [parsePackageBody]: the cursor is on a
    token, the element map satisfies the invariant and holds the package. *)
Definition in_package (body : list Token.t) (eof : Token.t)
    (parentId : jsstring) (s : Parser.State) : Prop :=
  on_token body eof s /\ Inv (els s) (Parser.idCounter s)
  /\ JsMap.get parentId (els s) <> None.

(* ================================================================== *)
(** * Reasoning about outcomes and loops *)

Section MonadFacts.
Context {E St : Type}.

Lemma bind_Return {A B} (m : M E St A) (k : A -> M E St B) s b s' :
  bind m k s = Return b s' ->
  exists a s1, m s = Return a s1 /\ k a s1 = Return b s'.
Proof.
  unfold bind. destruct (m s) as [a s1| |]; try discriminate.
  intros H. exists a, s1. split; [reflexivity | exact H].
Qed.

Lemma while_S {A} fuel cond (body : A -> M E St A) a s :
  while (S fuel) cond body a s =
  if cond s then bind (body a) (while fuel cond body) s else Return a s.
Proof. reflexivity. Qed.

(** Partial correctness: an invariant of the body holds when the loop
    returns, and the condition is then false. *)
Lemma while_inv {A} (I : A -> St -> Prop) cond (body : A -> M E St A) :
  (forall a s a' s', I a s -> cond s = true ->
                     body a s = Return a' s' -> I a' s') ->
  forall fuel a s a' s',
    I a s -> while fuel cond body a s = Return a' s' ->
    I a' s' /\ cond s' = false.
Proof.
  intros Hbody. induction fuel as [|fuel IH]; intros a s a' s' HI H.
  - discriminate.
  - rewrite while_S in H. destruct (cond s) eqn:Hc.
    + apply bind_Return in H. destruct H as (a1 & s1 & Hb & Hw).
      eapply IH; [|exact Hw]. eapply Hbody; eauto.
    + inversion H; subst. auto.
Qed.

(** Total correctness: a body that returns and decreases a measure makes
    the loop return, given fuel above the measure. *)
Lemma while_total {A} (mu : St -> nat) (I : A -> St -> Prop) cond
    (body : A -> M E St A) :
  (forall a s, I a s -> cond s = true ->
               exists a' s', body a s = Return a' s' /\ I a' s' /\ mu s' < mu s) ->
  forall fuel a s,
    I a s -> mu s < fuel ->
    exists a' s', while fuel cond body a s = Return a' s'
                  /\ I a' s' /\ cond s' = false /\ mu s' <= mu s.
Proof.
  intros Hbody. induction fuel as [|fuel IH]; intros a s HI Hmu.
  - lia.
  - rewrite while_S. destruct (cond s) eqn:Hc.
    + destruct (Hbody a s HI Hc) as (a1 & s1 & Hb & HI1 & Hlt).
      unfold bind. rewrite Hb.
      destruct (IH a1 s1 HI1) as (a' & s' & Hw & HI' & Hc' & Hle); [lia|].
      exists a', s'. repeat split; auto. lia.
    + exists a, s. repeat split; auto.
Qed.

(** ** More fuel never changes an outcome that is not [OutOfFuel] *)

Lemma mle_refl {A} (m : M E St A) : mle m m.
Proof. intros s. right. reflexivity. Qed.

Lemma mle_bind {A B} (m m' : M E St A) (k k' : A -> M E St B) :
  mle m m' -> (forall a, mle (k a) (k' a)) -> mle (bind m k) (bind m' k').
Proof.
  intros Hm Hk s. unfold bind.
  destruct (Hm s) as [H|H]; rewrite H.
  - left. reflexivity.
  - destruct (m' s); try (right; reflexivity). apply Hk.
Qed.

Lemma mle_while {A} fuel fuel' cond (body body' : A -> M E St A) :
  fuel <= fuel' -> (forall a, mle (body a) (body' a)) ->
  forall a, mle (while fuel cond body a) (while fuel' cond body' a).
Proof.
  intros Hle Hb. revert fuel' Hle.
  induction fuel as [|fuel IH]; intros fuel' Hle a s.
  - left. reflexivity.
  - destruct fuel' as [|fuel']; [lia|].
    rewrite !while_S. destruct (cond s); [|right; reflexivity].
    apply mle_bind; [apply Hb|]. intros a1. apply IH. lia.
Qed.

Lemma mle_Return {A} (m1 m2 : M E St A) s a s' :
  mle m1 m2 -> m1 s = Return a s' -> m2 s = Return a s'.
Proof. intros H H1. destruct (H s) as [H2|H2]; congruence. Qed.

Lemma mle_Throw {A} (m1 m2 : M E St A) s e :
  mle m1 m2 -> m1 s = Throw e -> m2 s = Throw e.
Proof. intros H H1. destruct (H s) as [H2|H2]; congruence. Qed.

End MonadFacts.

(** Steps that prove [mle m m'] for two instances of a production that
    differ in their fuel. *)
Ltac mono_step :=
  cbv beta zeta;
  match goal with
  | |- mle ?m ?m => apply mle_refl
  | |- mle (bind _ _) (bind _ _) => apply mle_bind; [|intros ?]
  | |- mle (while _ _ _ _) (while _ _ _ _) =>
      apply mle_while; [assumption | intros ?]
  | |- mle (if ?b then _ else _) (if ?b then _ else _) => destruct b
  | |- mle (match ?x with _ => _ end) (match ?x with _ => _ end) => destruct x
  end.
Ltac mono := repeat mono_step.

(* ================================================================== *)
(** * The lexer: totality *)

Section LexerFacts.
Import Lexer.

Lemma lineComment_mono fuel fuel' source :
  fuel <= fuel' -> mle (lineComment fuel source) (lineComment fuel' source).
Proof. intros H. unfold lineComment. mono. Qed.

Lemma blockComment_mono fuel fuel' source :
  fuel <= fuel' -> mle (blockComment fuel source) (blockComment fuel' source).
Proof. intros H. unfold blockComment. mono. Qed.

Lemma stringLiteral_mono fuel fuel' source :
  fuel <= fuel' -> mle (stringLiteral fuel source) (stringLiteral fuel' source).
Proof. intros H. unfold stringLiteral. mono. Qed.

Lemma number_mono fuel fuel' source :
  fuel <= fuel' -> mle (number fuel source) (number fuel' source).
Proof. intros H. unfold number. mono. Qed.

Lemma identifier_mono fuel fuel' source :
  fuel <= fuel' -> mle (identifier fuel source) (identifier fuel' source).
Proof. intros H. unfold identifier. mono. Qed.

Lemma step_mono fuel fuel' source :
  fuel <= fuel' -> mle (step fuel source) (step fuel' source).
Proof.
  intros H. unfold step. mono;
    auto using lineComment_mono, blockComment_mono, stringLiteral_mono,
               number_mono, identifier_mono.
Qed.

Lemma main_mono fuel fuel' source :
  fuel <= fuel' -> mle (main fuel source) (main fuel' source).
Proof. intros H. unfold main. mono. apply step_mono, H. Qed.

Lemma tokenize_mono fuel fuel' source toks :
  fuel <= fuel' ->
  tokenize fuel source = Some toks -> tokenize fuel' source = Some toks.
Proof.
  intros Hle. unfold tokenize.
  destruct (main fuel source _) as [[] s| |] eqn:Hm; try discriminate.
  rewrite (mle_Return _ _ _ _ _ (main_mono _ _ source Hle) Hm). auto.
Qed.

(** A scanning loop whose guard keeps [pos] inside the source and whose
    body moves [pos] forward and pushes no token returns. *)
Lemma scan_total fuel (source : jsstring) cond (body : L unit) st :
  (forall s, cond s = true -> pos s < length source) ->
  (forall s, exists s', body s = Return tt s' /\ pos s < pos s'
                        /\ tokens s' = tokens s) ->
  length source - pos st < fuel ->
  exists s', while fuel cond (fun _ => body) tt st = Return tt s'
             /\ pos st <= pos s' /\ tokens s' = tokens st.
Proof.
  intros Hguard Hbody Hfuel.
  destruct (while_total (fun s => length source - pos s)
              (fun _ s => pos st <= pos s /\ tokens s = tokens st)
              cond (fun _ => body))
    with (fuel := fuel) (a := tt) (s := st)
    as ([] & s' & Hw & HI & _); [| auto | lia |].
  - intros [] s [HI HT] Hc. destruct (Hbody s) as (s' & Hb & Hlt & Ht).
    exists tt, s'. specialize (Hguard s Hc).
    repeat split; auto; try lia. congruence.
  - exists s'. tauto.
Qed.

(** When the guard holds at the start, the loop moves [pos]. *)
Lemma scan_progress fuel (source : jsstring) cond (body : L unit) st :
  (forall s, cond s = true -> pos s < length source) ->
  (forall s, exists s', body s = Return tt s' /\ pos s < pos s'
                        /\ tokens s' = tokens s) ->
  length source - pos st < fuel ->
  cond st = true ->
  exists s', while fuel cond (fun _ => body) tt st = Return tt s'
             /\ pos st < pos s' /\ tokens s' = tokens st.
Proof.
  intros Hguard Hbody Hfuel Hc.
  destruct fuel as [|fuel]; [lia|]. rewrite while_S, Hc. unfold bind.
  destruct (Hbody st) as (s1 & Hb & Hlt & Ht1). rewrite Hb.
  destruct (scan_total fuel source cond body s1) as (s' & Hw & Hle & Ht); auto.
  - specialize (Hguard st Hc). lia.
  - exists s'. repeat split; [exact Hw | lia | congruence].
Qed.

Ltac in_range :=
  let s := fresh "s" in
  let H := fresh "H" in
  intros s H; apply andb_prop in H; destruct H as [H _];
  apply Nat.ltb_lt in H; simpl in *; lia.

Ltac moves_on :=
  let s := fresh "s" in
  intros s;
  unfold bind, gets, modify, incr_pos, incr_column, next_line, ret;
  repeat match goal with
         | |- context [if ?b then _ else _] => destruct b
         end;
  (eexists; split; [reflexivity | simpl; split; [lia | reflexivity]]).

Ltac scan_with lemma src :=
  match goal with
  | |- context [while ?f ?cond (fun _ => ?b) tt ?st] =>
      let s' := fresh "s'" in
      destruct (lemma f src cond b st) as (s' & Hw & Hlt & Htok)
  end.

(** The operation returned: [pos] has moved and at most one token was
    pushed. *)
Ltac moved_on :=
  eexists; split;
  [ reflexivity
  | simpl in *; rewrite ?length_app; simpl;
    repeat match goal with
           | H : tokens _ = tokens _ |- _ => rewrite H; clear H
           end;
    simpl; split; lia ].

Lemma at_Some (source : jsstring) i (p : char -> bool) :
  test p (at_ source i) = true -> i < length source.
Proof.
  unfold test, at_. intros H. apply nth_error_Some.
  destruct (nth_error source i); [discriminate | discriminate H].
Qed.

Section Progress.
Variables (fuel : nat) (source : jsstring).
Hypothesis Hfuel : length source < fuel.

Lemma lineComment_progress st :
  charIs "/" (at_ source (pos st)) = true ->
  progress (lineComment fuel source) st.
Proof.
  intros Hc. unfold progress, lineComment, bind at 1 2, gets.
  scan_with scan_progress source; [ | | | | rewrite Hw ].
  - in_range.
  - moves_on.
  - lia.
  - simpl. apply andb_true_intro. split.
    + apply Nat.ltb_lt. eapply at_Some, Hc.
    + unfold charIs, test in *. destruct (at_ source (pos st)); [|discriminate].
      apply N.eqb_eq in Hc. subst. reflexivity.
  - moved_on.
Qed.

Lemma blockComment_progress st : progress (blockComment fuel source) st.
Proof.
  unfold progress, blockComment, bind at 1 2 3, gets, incr_pos at 1, modify.
  scan_with scan_total source; [ | | | rewrite Hw ].
  - intros s H. apply andb_prop in H. destruct H as [H _].
    apply Nat.ltb_lt in H. lia.
  - moves_on.
  - simpl. lia.
  - moved_on.
Qed.

Lemma stringLiteral_progress st : progress (stringLiteral fuel source) st.
Proof.
  unfold progress, stringLiteral, bind at 1 2 3 4 5, gets, incr_pos at 1,
    incr_column at 1, modify.
  scan_with scan_total source; [ | | | rewrite Hw ].
  - in_range.
  - moves_on.
  - simpl. lia.
  - moved_on.
Qed.

Lemma number_progress st :
  test isNumberPart (at_ source (pos st)) = true ->
  progress (number fuel source) st.
Proof.
  intros Hc. unfold progress, number, bind at 1 2 3, gets.
  scan_with scan_progress source; [ | | | | rewrite Hw ].
  - in_range.
  - moves_on.
  - lia.
  - simpl. rewrite Hc, andb_true_r. apply Nat.ltb_lt. eapply at_Some, Hc.
  - moved_on.
Qed.

Lemma identifier_progress st :
  test isIdentStart (at_ source (pos st)) = true ->
  progress (identifier fuel source) st.
Proof.
  intros Hc.
  assert (Hp : test isIdentPart (at_ source (pos st)) = true).
  { unfold test, isIdentPart in *. destruct (at_ source (pos st)); auto.
    rewrite Hc. reflexivity. }
  unfold progress, identifier, bind at 1 2 3, gets.
  scan_with scan_progress source; [ | | | | rewrite Hw ].
  - in_range.
  - moves_on.
  - lia.
  - simpl. rewrite Hp, andb_true_r. apply Nat.ltb_lt. eapply at_Some, Hp.
  - moved_on.
Qed.

Lemma step_progress st : progress (step fuel source) st.
Proof.
  unfold progress, step, bind at 1, gets. cbv beta zeta.
  destruct (test isSpace (at_ source (pos st))) eqn:Hsp.
  { unfold bind, incr_pos, next_line, incr_column, modify.
    destruct (charIs newline _); moved_on. }
  destruct (charIs "/" (at_ source (pos st))) eqn:Hsl; simpl.
  { destruct (charIs "/" (at_ source (pos st + 1)));
      [apply lineComment_progress, Hsl|].
    destruct (charIs "*" (at_ source (pos st + 1)));
      [apply blockComment_progress|].
    (* a lone slash matches no later rule *)
    unfold charIs, test in Hsl |- *.
    destruct (at_ source (pos st)) as [c|]; [|discriminate].
    apply N.eqb_eq in Hsl. subst c. simpl. moved_on. }
  destruct (charIs quote (at_ source (pos st)));
    [apply stringLiteral_progress|].
  destruct (test isDigit (at_ source (pos st))) eqn:Hd; simpl.
  { apply number_progress. unfold test, isNumberPart in *.
    destruct (at_ source (pos st)); auto. rewrite Hd. reflexivity. }
  destruct (charIs "." (at_ source (pos st))) eqn:Hdot; simpl.
  { destruct (test isDigit (at_ source (pos st + 1))).
    - apply number_progress. unfold charIs, test, isNumberPart in *.
      destruct (at_ source (pos st)); auto.
      apply N.eqb_eq in Hdot. subst. reflexivity.
    - destruct (test isIdentStart _) eqn:Hi;
        [apply identifier_progress, Hi|].
      destruct (at_ source (pos st)) as [c|];
        [destruct (singleTokens c)|]; moved_on. }
  destruct (test isIdentStart _) eqn:Hi; [apply identifier_progress, Hi|].
  destruct (at_ source (pos st)) as [c|];
    [destruct (singleTokens c)|]; moved_on.
Qed.

(** The main loop returns; there are no more tokens than iterations. *)
Lemma main_total st :
  length (tokens st) <= pos st -> length (tokens st) <= length source ->
  exists st', main fuel source st = Return tt st'
              /\ length (tokens st') <= length source.
Proof.
  intros H1 H2. unfold main.
  destruct (while_total (fun s => length source - pos s)
              (fun (_ : unit) s => length (tokens s) <= pos s
                                   /\ length (tokens s) <= length source)
              (fun s => pos s <? length source)
              (fun _ => step fuel source))
    with (fuel := fuel) (a := tt) (s := st)
    as ([] & s' & Hw & [_ HI] & _); [| auto | lia |].
  - intros [] s [Ha Hb] Hc. apply Nat.ltb_lt in Hc.
    destruct (step_progress s) as (s' & Hs & Hlt & Hn).
    exists tt, s'. repeat split; auto; lia.
  - exists s'. auto.
Qed.

End Progress.

(** With fuel above the length of the source [tokenize] returns; the
    last token is the end-of-input token, and there is at most one token
    for each code unit before it. *)
Lemma tokenize_total fuel source :
  length source < fuel ->
  exists toks eof,
    tokenize fuel source = Some (toks ++ [eof])
    /\ Token.type eof = EOF /\ Token.value eof = []
    /\ length toks <= length source.
Proof.
  intros Hfuel. unfold tokenize.
  destruct (main_total fuel source Hfuel (mk [] 0 1 1)) as (st' & Hm & Hn);
    [simpl; lia | simpl; lia |].
  rewrite Hm. eexists _, _. split; [reflexivity|]. repeat split. exact Hn.
Qed.

End LexerFacts.

(* ================================================================== *)
(** * Strings, maps and ids *)

Lemma str_eqb_eq a b : str_eqb a b = true <-> a = b.
Proof.
  revert b. induction a as [|x a IH]; intros [|y b]; simpl;
    try (split; [discriminate | discriminate]); [tauto|].
  rewrite andb_true_iff, N.eqb_eq, IH. split.
  - intros [-> ->]. reflexivity.
  - intros H. inversion H. auto.
Qed.

Lemma str_eqb_refl a : str_eqb a a = true.
Proof. apply str_eqb_eq. reflexivity. Qed.

Lemma str_eqb_neq a b : a <> b -> str_eqb a b = false.
Proof.
  intros H. destruct (str_eqb a b) eqn:Heq; [|reflexivity].
  apply str_eqb_eq in Heq. contradiction.
Qed.

Lemma js_inj s t : js s = js t -> s = t.
Proof.
  unfold js. intros H.
  rewrite <- (string_of_list_ascii_of_string s),
          <- (string_of_list_ascii_of_string t).
  f_equal. revert H.
  generalize (list_ascii_of_string s) (list_ascii_of_string t).
  induction l as [|a l IH]; intros [|b l']; simpl; try discriminate; auto.
  intros H. inversion H as [[Hab Hl]]. f_equal; [|auto].
  rewrite <- (ascii_N_embedding a), <- (ascii_N_embedding b), Hab. reflexivity.
Qed.

Lemma decimal_inj n m : decimal n = decimal m -> n = m.
Proof.
  unfold decimal. intros H. apply js_inj in H.
  assert (Hu : Some (Nat.to_uint n) = Some (Nat.to_uint m))
    by (rewrite <- !NilEmpty.usu, H; reflexivity).
  inversion Hu as [Hu'].
  rewrite <- (Unsigned.of_to n), <- (Unsigned.of_to m), Hu'. reflexivity.
Qed.

(** Distinct counter values give distinct ids. *)
Lemma elem_inj n m : Parser.elem_ n = Parser.elem_ m -> n = m.
Proof.
  unfold Parser.elem_. intros H. apply app_inv_head in H.
  apply decimal_inj, H.
Qed.

Lemma elem_truthy n : truthy (Parser.elem_ n) = true.
Proof. reflexivity. Qed.

Section MapFacts.
Context {V : Type}.
Implicit Types (m : JsMap.t V) (k : jsstring) (v : V).

Lemma get_set_same k v m : JsMap.get k (JsMap.set k v m) = Some v.
Proof.
  induction m as [|[k' v'] m IH]; simpl.
  - rewrite str_eqb_refl. reflexivity.
  - destruct (str_eqb k k') eqn:Hk; simpl; rewrite Hk; auto.
Qed.

Lemma get_set_other k k' v m :
  k <> k' -> JsMap.get k (JsMap.set k' v m) = JsMap.get k m.
Proof.
  intros Hne. induction m as [|[k1 v1] m IH]; simpl.
  - rewrite (str_eqb_neq _ _ Hne). reflexivity.
  - destruct (str_eqb k' k1) eqn:Hk; simpl.
    + apply str_eqb_eq in Hk. subst k1.
      rewrite (str_eqb_neq _ _ Hne). reflexivity.
    + rewrite IH. reflexivity.
Qed.

Lemma get_In_keys k m : JsMap.get k m <> None <-> In k (JsMap.keys m).
Proof.
  induction m as [|[k' v'] m IH]; simpl; [tauto|].
  destruct (str_eqb k k') eqn:Hk.
  - apply str_eqb_eq in Hk. subst. split; [auto | discriminate].
  - rewrite IH. split; [auto|]. intros [H|H]; [|exact H].
    subst. rewrite str_eqb_refl in Hk. discriminate.
Qed.

Lemma keys_set k v m :
  JsMap.keys (JsMap.set k v m)
  = if existsb (str_eqb k) (JsMap.keys m) then JsMap.keys m
    else JsMap.keys m ++ [k].
Proof.
  induction m as [|[k' v'] m IH]; simpl; [reflexivity|].
  destruct (str_eqb k k') eqn:Hk; simpl; [reflexivity|].
  unfold JsMap.keys in *. rewrite IH.
  destruct (existsb _ _); reflexivity.
Qed.

Lemma NoDup_set k v m :
  NoDup (JsMap.keys m) -> NoDup (JsMap.keys (JsMap.set k v m)).
Proof.
  intros Hnd. rewrite keys_set.
  destruct (existsb (str_eqb k) (JsMap.keys m)) eqn:Hex; [exact Hnd|].
  apply NoDup_app; [exact Hnd | repeat constructor; intros [] |].
  intros x Hx [Hk|[]]. subst x.
  assert (Ht : existsb (str_eqb k) (JsMap.keys m) = true).
  { apply existsb_exists. exists k. split; [exact Hx | apply str_eqb_refl]. }
  congruence.
Qed.

Lemma In_get k v m :
  NoDup (JsMap.keys m) -> In (k, v) m -> JsMap.get k m = Some v.
Proof.
  induction m as [|[k' v'] m IH]; simpl; [tauto|].
  intros Hnd [H|H].
  - inversion H; subst. rewrite str_eqb_refl. reflexivity.
  - inversion Hnd as [|? ? Hnot Hnd']; subst.
    destruct (str_eqb k k') eqn:Hk; [|auto].
    apply str_eqb_eq in Hk. subst k'. exfalso. apply Hnot.
    unfold JsMap.keys. change k with (fst (k, v)). apply in_map, H.
Qed.

Lemma In_values m v :
  NoDup (JsMap.keys m) -> In v (JsMap.values m) ->
  exists k, JsMap.get k m = Some v.
Proof.
  intros Hnd Hin. unfold JsMap.values in Hin. apply in_map_iff in Hin.
  destruct Hin as ([k v'] & Hv & Hin). simpl in Hv. subst v'.
  exists k. apply In_get; assumption.
Qed.

Lemma get_In_values k v m : JsMap.get k m = Some v -> In v (JsMap.values m).
Proof.
  induction m as [|[k' v'] m IH]; simpl; [discriminate|].
  destruct (str_eqb k k'); [|auto]. intros H. inversion H. auto.
Qed.

End MapFacts.

Section SubseqFacts.
Context {A : Type}.

Lemma Subseq_nil_l (m : list A) : Subseq [] m.
Proof.
  induction m as [|x m IH] using rev_ind; [constructor|].
  apply Subseq_skip, IH.
Qed.

Lemma Subseq_refl (l : list A) : Subseq l l.
Proof.
  induction l as [|x l IH] using rev_ind; [constructor|].
  apply Subseq_keep, IH.
Qed.

Lemma Subseq_In (l m : list A) x : Subseq l m -> In x l -> In x m.
Proof.
  induction 1 as [|y l m _ IH|y l m _ IH]; intros Hin; [exact Hin| |].
  - apply in_or_app. left. auto.
  - apply in_app_or in Hin. apply in_or_app. destruct Hin; [left|right]; auto.
Qed.
End SubseqFacts.

(** ** The invariant under the updates of the element map *)

Section InvFacts.
Implicit Types (m : JsMap.t Element.t) (c : nat).

Lemma allocated_le c c' k : allocated c k -> c <= c' -> allocated c' k.
Proof. intros (n & Hn & ->) Hle. exists n. split; [lia | reflexivity]. Qed.

Lemma Inv_empty : Inv JsMap.empty 0.
Proof. split; simpl; try discriminate. constructor. Qed.

Lemma Inv_le m c c' : Inv m c -> c <= c' -> Inv m c'.
Proof.
  intros [Hnd Hk Hc Hl] Hle. split; auto.
  intros k e H. destruct (Hk k e H). eauto using allocated_le.
Qed.

(** The next id is not a key yet. *)
Lemma Inv_fresh m c n : Inv m c -> c < n -> JsMap.get (Parser.elem_ n) m = None.
Proof.
  intros HI Hlt. destruct (JsMap.get (Parser.elem_ n) m) as [e|] eqn:He; auto.
  destruct (inv_key _ _ HI _ _ He) as (_ & n' & Hn' & Heq).
  apply elem_inj in Heq. lia.
Qed.

Lemma Ext_refl m c : Ext m c m c.
Proof. split; auto. Qed.

Lemma Ext_le m c c' : c <= c' -> Ext m c m c'.
Proof. split; auto. Qed.

Lemma Ext_trans m1 c1 m2 c2 m3 c3 :
  Ext m1 c1 m2 c2 -> Ext m2 c2 m3 c3 -> Ext m1 c1 m3 c3.
Proof.
  intros [Hc1 Ho1 Hn1] [Hc2 Ho2 Hn2]. split; [lia | auto |].
  intros k Hk. destruct (Hn2 k Hk) as [H|(n & Hn & ->)].
  - destruct (Hn1 k H) as [H'|(n & Hn & ->)]; [auto|].
    right. exists n. split; [lia | reflexivity].
  - right. exists n. split; [lia | reflexivity].
Qed.

Lemma children_in_ext m c m' c' p chs :
  Ext m c m' c' -> children_in m p chs -> children_in m' p chs.
Proof.
  intros HE H ch Hin. destruct (H ch Hin) as (ce & Hg & Hp).
  exists ce. split; [apply (ext_old _ _ _ _ HE), Hg | exact Hp].
Qed.

Lemma children_in_snoc m p chs ch ce :
  children_in m p chs -> JsMap.get ch m = Some ce ->
  Element.parent ce = Some p -> children_in m p (chs ++ [ch]).
Proof.
  intros H Hg Hp x Hin. apply in_app_or in Hin. destruct Hin as [Hin|[<-|[]]].
  - apply H, Hin.
  - exists ce. auto.
Qed.

(** Storing a finished element under its own id, which is not a key
    yet. *)
Lemma Inv_set m c id e :
  Inv m c -> allocated c id -> JsMap.get id m = None ->
  Element.id e = id -> children_in m id (Element.children e) ->
  lists_in_order e ->
  Inv (JsMap.set id e m) c.
Proof.
  intros HI Hal Hnone Hid Hch Hl.
  assert (Hother : forall k v, JsMap.get k m = Some v -> k <> id)
    by (intros k v Hk ->; congruence).
  split.
  - apply NoDup_set, (inv_nodup _ _ HI).
  - intros k e' Hg. destruct (list_eq_dec N.eq_dec k id) as [->|Hne].
    + rewrite get_set_same in Hg. inversion Hg; subst. auto.
    + rewrite get_set_other in Hg by exact Hne. apply (inv_key _ _ HI _ _ Hg).
  - intros k e' Hg ch Hin.
    assert (Hin_m : exists ce, JsMap.get ch m = Some ce
                               /\ Element.parent ce = Some k).
    { destruct (list_eq_dec N.eq_dec k id) as [->|Hne].
      - rewrite get_set_same in Hg. inversion Hg; subst. apply Hch, Hin.
      - rewrite get_set_other in Hg by exact Hne.
        apply (inv_children _ _ HI _ _ Hg), Hin. }
    destruct Hin_m as (ce & Hce & Hp). exists ce. split; [|exact Hp].
    rewrite get_set_other; [exact Hce | eapply Hother, Hce].
  - intros k e' Hg. destruct (list_eq_dec N.eq_dec k id) as [->|Hne].
    + rewrite get_set_same in Hg. inversion Hg; subst. exact Hl.
    + rewrite get_set_other in Hg by exact Hne. apply (inv_lists _ _ HI _ _ Hg).
Qed.

Lemma Ext_set m c m' c' n e :
  Ext m c m' c' -> c < n <= c' -> JsMap.get (Parser.elem_ n) m' = None ->
  Ext m c (JsMap.set (Parser.elem_ n) e m') c'.
Proof.
  intros [Hc Ho Hn] Hrange Hnone. split; [exact Hc | |].
  - intros k e0 Hg. apply Ho in Hg. rewrite get_set_other; [exact Hg|].
    intros ->. congruence.
  - intros k Hk. destruct (list_eq_dec N.eq_dec k (Parser.elem_ n)) as [->|Hne].
    + right. exists n. auto.
    + rewrite get_set_other in Hk by exact Hne. auto.
Qed.

Lemma Subseq_lists_snoc e ch :
  lists_in_order e ->
  lists_in_order (Element.with_children (Element.children e ++ [ch]) e).
Proof.
  unfold lists_in_order, Element.ports, Element.parts, Element.states,
    Element.transitions. simpl.
  intros (H1 & H2 & H3 & H4). repeat split; apply Subseq_skip; assumption.
Qed.

(** Appending a child to an element that is in the map. *)
Lemma Inv_push m c p pe ch ce :
  Inv m c -> JsMap.get p m = Some pe ->
  JsMap.get ch m = Some ce -> Element.parent ce = Some p ->
  Inv (JsMap.set p
         (Element.with_children (Element.children pe ++ [ch]) pe) m) c.
Proof.
  intros HI Hp Hch Hpar.
  set (pe' := Element.with_children (Element.children pe ++ [ch]) pe).
  assert (Hkeep : forall k v q, JsMap.get k m = Some v ->
                                Element.parent v = Some q ->
            exists v', JsMap.get k (JsMap.set p pe' m) = Some v'
                       /\ Element.parent v' = Some q).
  { intros k v q Hk Hq. destruct (list_eq_dec N.eq_dec k p) as [->|Hne].
    - rewrite get_set_same. exists pe'. split; [reflexivity|].
      rewrite Hp in Hk. inversion Hk; subst. exact Hq.
    - rewrite get_set_other by exact Hne. eauto. }
  split.
  - apply NoDup_set, (inv_nodup _ _ HI).
  - intros k e Hg. destruct (list_eq_dec N.eq_dec k p) as [->|Hne].
    + rewrite get_set_same in Hg. inversion Hg; subst.
      apply (inv_key _ _ HI _ _ Hp).
    + rewrite get_set_other in Hg by exact Hne. apply (inv_key _ _ HI _ _ Hg).
  - intros k e Hg x Hin. destruct (list_eq_dec N.eq_dec k p) as [->|Hne].
    + rewrite get_set_same in Hg. inversion Hg; subst. simpl in Hin.
      apply in_app_or in Hin. destruct Hin as [Hin|[<-|[]]].
      * destruct (inv_children _ _ HI _ _ Hp _ Hin) as (v & Hv & Hq). eauto.
      * eauto.
    + rewrite get_set_other in Hg by exact Hne.
      destruct (inv_children _ _ HI _ _ Hg _ Hin) as (v & Hv & Hq). eauto.
  - intros k e Hg. destruct (list_eq_dec N.eq_dec k p) as [->|Hne].
    + rewrite get_set_same in Hg. inversion Hg; subst.
      apply Subseq_lists_snoc, (inv_lists _ _ HI _ _ Hp).
    + rewrite get_set_other in Hg by exact Hne. apply (inv_lists _ _ HI _ _ Hg).
Qed.

End InvFacts.

(* ================================================================== *)
(** * The parser: basic facts *)

Section ParserFacts.
Import Parser.

Lemma expect_Return type value st t st' :
  expect type value st = Return t st' ->
  check type value st = true /\ t = current st
  /\ st' = set_pos (pos st + 1) st.
Proof.
  unfold expect, bind, this, gets, throw, advance.
  destruct (check type value st); simpl; [|discriminate].
  intros H. inversion H. auto.
Qed.

Lemma expect_ok type value st :
  check type value st = true ->
  expect type value st = Return (current st) (set_pos (pos st + 1) st).
Proof.
  intros H. unfold expect, bind, this, gets. rewrite H. reflexivity.
Qed.

Lemma expect_fail type value st :
  check type value st = false ->
  expect type value st = Throw (Error (expected type value (current st))).
Proof.
  intros H. unfold expect, bind, this, gets. rewrite H. reflexivity.
Qed.

Lemma match_eq type value st :
  match_ type value st =
  if check type value st then Return true (set_pos (pos st + 1) st)
  else Return false st.
Proof.
  unfold match_, bind, this, gets. destruct (check type value st); reflexivity.
Qed.

(** ** More fuel does not change what a production returns or throws *)

Section Mono.
Variables fuel fuel' : nat.
Hypothesis Hle : fuel <= fuel'.

Lemma dotted_mono name : mle (dotted fuel name) (dotted fuel' name).
Proof.
  revert fuel' Hle name. induction fuel as [|n IH]; intros n' Hle name.
  - intros s. left. reflexivity.
  - destruct n' as [|n']; [lia|]. simpl. mono. apply IH. lia.
Qed.

Lemma parseQualifiedName_mono :
  mle (parseQualifiedName fuel) (parseQualifiedName fuel').
Proof. unfold parseQualifiedName. mono. apply dotted_mono. Qed.

Lemma parseItemDef_mono p : mle (parseItemDef fuel p) (parseItemDef fuel' p).
Proof. unfold parseItemDef. mono. Qed.

Lemma parsePortDef_mono p : mle (parsePortDef fuel p) (parsePortDef fuel' p).
Proof. unfold parsePortDef. mono. Qed.

Lemma parseRequirementDef_mono p :
  mle (parseRequirementDef fuel p) (parseRequirementDef fuel' p).
Proof. unfold parseRequirementDef. mono. Qed.

Lemma parseState_mono p : mle (parseState fuel p) (parseState fuel' p).
Proof. unfold parseState. mono. Qed.

Lemma parseTransition_mono p :
  mle (parseTransition fuel p) (parseTransition fuel' p).
Proof. unfold parseTransition. mono. Qed.

Lemma parseConnection_mono p :
  mle (parseConnection fuel p) (parseConnection fuel' p).
Proof. unfold parseConnection. mono; apply parseQualifiedName_mono. Qed.

Lemma parseBind_mono p : mle (parseBind fuel p) (parseBind fuel' p).
Proof. unfold parseBind. mono; apply parseQualifiedName_mono. Qed.

Lemma parseStateDefBody_mono p e :
  mle (parseStateDefBody fuel p e) (parseStateDefBody fuel' p e).
Proof.
  unfold parseStateDefBody. mono;
    auto using parseState_mono, parseTransition_mono.
Qed.

Lemma parseStateDef_mono p : mle (parseStateDef fuel p) (parseStateDef fuel' p).
Proof. unfold parseStateDef. mono. apply parseStateDefBody_mono. Qed.

Lemma parsePartDefBody_mono p e :
  mle (parsePartDefBody fuel p e) (parsePartDefBody fuel' p e).
Proof.
  unfold parsePartDefBody. mono;
    auto using parseStateDef_mono, parseConnection_mono, parseBind_mono.
Qed.

Lemma parsePartDef_mono p : mle (parsePartDef fuel p) (parsePartDef fuel' p).
Proof. unfold parsePartDef. mono. apply parsePartDefBody_mono. Qed.

Lemma parsePackageBody_mono p :
  mle (parsePackageBody fuel p) (parsePackageBody fuel' p).
Proof.
  unfold parsePackageBody. mono;
    auto using parseItemDef_mono, parsePortDef_mono, parsePartDef_mono,
               parseRequirementDef_mono, parseStateDef_mono,
               parseConnection_mono, parseBind_mono.
Qed.

Lemma parsePackage_mono p : mle (parsePackage fuel p) (parsePackage fuel' p).
Proof. unfold parsePackage. mono. apply parsePackageBody_mono. Qed.

Lemma parse_mono source : mle (parse fuel source) (parse fuel' source).
Proof.
  intros st. unfold parse.
  destruct (Lexer.tokenize fuel source) as [toks|] eqn:Ht;
    [|left; reflexivity].
  rewrite (tokenize_mono _ _ _ _ Hle Ht).
  match goal with
  | |- approx (?m st) (?m' st) => revert st; change (mle m m')
  end.
  mono. apply parsePackage_mono.
Qed.

End Mono.

(** ** What the primitive operations change *)

Lemma frame_refl st : frame st st.
Proof. repeat split. Qed.

Lemma frame_trans st1 st2 st3 : frame st1 st2 -> frame st2 st3 -> frame st1 st3.
Proof. unfold frame. intuition congruence. Qed.

Lemma ret_Return {A} (a b : A) (s s' : State) :
  ret (E := Exn) a s = Return b s' -> b = a /\ s' = s.
Proof. intros H. inversion H. auto. Qed.

Lemma this_Return (s s0 s' : State) : this s = Return s0 s' -> s0 = s /\ s' = s.
Proof. intros H. inversion H. auto. Qed.

Lemma expect_frame type value st t st' :
  expect type value st = Return t st' -> frame st st'.
Proof.
  intros H. apply expect_Return in H. destruct H as (_ & _ & ->).
  repeat split.
Qed.

Lemma match_frame type value st b st' :
  match_ type value st = Return b st' -> frame st st'.
Proof.
  rewrite match_eq. destruct (check type value st); intros H;
    inversion H; repeat split.
Qed.

Lemma advance_frame st t st' : advance st = Return t st' -> frame st st'.
Proof. intros H. inversion H. repeat split. Qed.

Lemma generateId_Return st id st' :
  generateId st = Return id st' ->
  id = elem_ (idCounter st + 1)
  /\ tokens st' = tokens st /\ model st' = model st
  /\ idCounter st' = idCounter st + 1.
Proof. intros H. inversion H. auto. Qed.

Lemma setElement_Return id e st u st' :
  setElement id e st = Return u st' ->
  tokens st' = tokens st /\ idCounter st' = idCounter st
  /\ rootPackage (model st') = rootPackage (model st)
  /\ els st' = JsMap.set id e (els st).
Proof. intros H. inversion H. auto. Qed.

(** A loop whose body moves only the cursor moves only the cursor; [J]
    is an invariant of the local variables. *)
Lemma while_frame {A} (J : A -> Prop) fuel cond (body : A -> P A) a s a' s' :
  (forall a s a' s', J a -> body a s = Return a' s' -> frame s s' /\ J a') ->
  J a -> while fuel cond body a s = Return a' s' -> frame s s' /\ J a'.
Proof.
  intros Hbody HJ Hw.
  destruct (while_inv (fun a s1 => frame s s1 /\ J a) cond body)
    with (fuel := fuel) (a := a) (s := s) (a' := a') (s' := s')
    as [H _]; auto using frame_refl.
  intros a1 s1 a2 s2 [Hf HJ1] _ Hb. destruct (Hbody _ _ _ _ HJ1 Hb).
  eauto using frame_trans.
Qed.

End ParserFacts.

(** Symbolic execution of a production that returned: splits the binds,
    the branches and the primitive operations of a hypothesis
    [m st = Return a st']. *)
Ltac exec :=
  repeat
    (cbv beta zeta in *;
     match goal with
     | H : bind _ _ _ = Return _ _ |- _ =>
         apply bind_Return in H; destruct H as (? & ? & ? & H)
     | H : ret _ _ = Return _ _ |- _ =>
         apply ret_Return in H; destruct H; subst
     | H : Parser.this _ = Return _ _ |- _ =>
         apply this_Return in H; destruct H; subst
     | H : Parser.expect _ _ _ = Return _ _ |- _ => apply expect_frame in H
     | H : Parser.match_ _ _ _ = Return _ _ |- _ => apply match_frame in H
     | H : Parser.advance _ = Return _ _ |- _ => apply advance_frame in H
     | H : Parser.generateId _ = Return _ _ |- _ =>
         apply generateId_Return in H; destruct H as (? & ? & ? & ?); subst
     | H : Parser.setElement _ _ _ = Return _ _ |- _ =>
         apply setElement_Return in H; destruct H as (? & ? & ? & ?)
     | H : (if ?b then _ else _) _ = Return _ _ |- _ => destruct b eqn:?
     | H : (let '(_, _) := ?x in _) _ = Return _ _ |- _ => destruct x
     end).

(** Closes an equation between fields of parser states from the facts
    [exec] collected. *)
Ltac frames :=
  unfold els in *;
  repeat match goal with
         | H : frame _ _ |- _ => destruct H as (? & ? & ?)
         end;
  unfold frame; simpl in *;
  repeat match goal with |- _ /\ _ => split end;
  congruence.

(* ================================================================== *)
(** * The parser: the invariant of the element map *)

Section ParserInvariant.
Import Parser.

Lemma same_core_refl e : same_core e e.
Proof. repeat split. Qed.

Lemma same_core_trans e1 e2 e3 :
  same_core e1 e2 -> same_core e2 e3 -> same_core e1 e3.
Proof. unfold same_core. intuition congruence. Qed.

Lemma same_core_lists e e' :
  same_core e e' -> lists_in_order e -> lists_in_order e'.
Proof.
  unfold same_core, lists_in_order.
  intros (_ & _ & -> & -> & -> & -> & ->). auto.
Qed.

Lemma same_core_push_items i e : same_core e (push_items i e).
Proof.
  unfold push_items. destruct e as [? ? ? ? ? ? []]; repeat split.
Qed.

Lemma same_core_set_reqId v e : same_core e (set_reqId v e).
Proof.
  unfold set_reqId. destruct e as [? ? ? ? ? ? []]; repeat split.
Qed.

Lemma same_core_set_text v e : same_core e (set_text v e).
Proof.
  unfold set_text. destruct e as [? ? ? ? ? ? []]; repeat split.
Qed.

Lemma same_core_set_entryAction v e : same_core e (set_entryAction v e).
Proof.
  unfold set_entryAction. destruct e as [? ? ? ? ? ? []]; repeat split.
Qed.

Hint Resolve same_core_refl same_core_push_items same_core_set_reqId
  same_core_set_text same_core_set_entryAction : core.

(** Storing a finished element whose children were produced since its
    id was generated. *)
Lemma produce_node parent st s st' id e :
  Inv (els st) (idCounter st) ->
  id = elem_ (idCounter st + 1) ->
  Inv (els s) (idCounter s) ->
  Ext (els st) (idCounter st + 1) (els s) (idCounter s) ->
  els st' = JsMap.set id e (els s) ->
  idCounter st' = idCounter s ->
  Element.id e = id ->
  Element.parent e = Some parent ->
  children_in (els s) id (Element.children e) ->
  lists_in_order e ->
  produces parent st id st'.
Proof.
  intros HI -> HIs HE Hels Hc Hid Hpar Hch Hl.
  assert (Hnone : JsMap.get (elem_ (idCounter st + 1)) (els s) = None).
  { destruct (JsMap.get (elem_ (idCounter st + 1)) (els s)) eqn:Hg; auto.
    destruct (ext_new _ _ _ _ HE (elem_ (idCounter st + 1))) as [H|H].
    - congruence.
    - rewrite (Inv_fresh _ _ (idCounter st + 1) HI) in H by lia.
      congruence.
    - destruct H as (n & Hn & Heq). apply elem_inj in Heq. lia. }
  pose proof (ext_counter _ _ _ _ HE) as Hle.
  unfold produces. rewrite Hels, Hc. split; [|split].
  - apply Inv_set; auto.
    exists (idCounter st + 1). split; [lia | reflexivity].
  - apply Ext_set; [| lia | exact Hnone].
    eapply Ext_trans; [apply Ext_le | exact HE]. lia.
  - exists e. split; [apply get_set_same | exact Hpar].
Qed.

(** Storing a new element without children. *)
Lemma produce_leaf parent st s st' id e :
  Inv (els st) (idCounter st) ->
  id = elem_ (idCounter st + 1) ->
  els s = els st -> idCounter s = idCounter st + 1 ->
  els st' = JsMap.set id e (els s) ->
  idCounter st' = idCounter s ->
  Element.id e = id ->
  Element.parent e = Some parent ->
  Element.children e = [] ->
  lists_in_order e ->
  produces parent st id st'.
Proof.
  intros HI Hid0 Hels Hc Hels' Hc' Hid Hpar Hch Hl.
  apply produce_node with (s := s) (e := e); auto.
  - rewrite Hels, Hc. apply Inv_le with (c := idCounter st); [exact HI | lia].
  - rewrite Hels, Hc. apply Ext_refl.
  - rewrite Hch. intros ch [].
Qed.

Lemma lists_in_order_leaf e :
  Element.children e = [] ->
  Element.ports e = [] -> Element.parts e = [] ->
  Element.states e = [] -> Element.transitions e = [] ->
  lists_in_order e.
Proof.
  unfold lists_in_order. intros -> -> -> -> ->. repeat split; constructor.
Qed.

(** Replaces a loop that moves only the cursor by its frame and the
    invariant [J] of its local variable. *)
Ltac loop_frame J :=
  match goal with
  | H : while _ _ _ _ _ = Return _ _ |- _ =>
      apply (while_frame J) in H;
      [ destruct H
      | let HJ := fresh "HJ" in
        intros ? ? ? ? HJ ?; exec;
        (split; [frames | eauto using same_core_trans])
      | auto ]
  end.

Ltac unit_loops :=
  repeat match goal with
         | H : while _ _ (fun _ : unit => _) _ _ = Return _ _ |- _ =>
             apply (while_frame (fun _ : unit => True)) in H;
             [ destruct H as [H _]
             | intros ? ? ? ? _ ?; exec; (split; [frames | exact I])
             | exact I ]
         end.

(** Facts about the object that is stored, from [same_core]. *)
Ltac elem_facts :=
  repeat match goal with
         | H : same_core _ _ |- _ =>
             unfold same_core in H;
             destruct H as (? & ? & ? & ? & ? & ? & ?)
         end;
  try apply lists_in_order_leaf;
  cbv [Element.ports Element.parts Element.states Element.transitions
       Element.fields Element.id Element.children Element.parent] in *;
  congruence.

Ltac leaf :=
  match goal with
  | H : els ?s1 = JsMap.set _ _ (els ?s0) |- produces _ _ _ ?s1 =>
      eapply produce_leaf with (s := s0);
      [ eassumption | frames | frames | frames | eassumption | frames
      | elem_facts | elem_facts | elem_facts | elem_facts ]
  end.

Lemma parseItemDef_produces fuel parent st id st' :
  parseItemDef fuel parent st = Return id st' ->
  Inv (els st) (idCounter st) -> produces parent st id st'.
Proof.
  unfold parseItemDef. intros H HI. exec; unit_loops; exec; leaf.
Qed.

Lemma parsePortDef_produces fuel parent st id st' :
  parsePortDef fuel parent st = Return id st' ->
  Inv (els st) (idCounter st) -> produces parent st id st'.
Proof.
  unfold parsePortDef. intros H HI. exec.
  - match goal with
    | H : while _ _ _ ?e0 _ = Return _ _ |- _ => loop_frame (same_core e0)
    end.
    exec. leaf.
  - leaf.
Qed.

Lemma parsePort_produces parent st id st' :
  parsePort parent st = Return id st' ->
  Inv (els st) (idCounter st) -> produces parent st id st'.
Proof. unfold parsePort. intros H HI. exec; leaf. Qed.

Lemma parsePart_produces parent st id st' :
  parsePart parent st = Return id st' ->
  Inv (els st) (idCounter st) -> produces parent st id st'.
Proof. unfold parsePart. intros H HI. exec; leaf. Qed.

Lemma parseRequirementDef_produces fuel parent st id st' :
  parseRequirementDef fuel parent st = Return id st' ->
  Inv (els st) (idCounter st) -> produces parent st id st'.
Proof.
  unfold parseRequirementDef. intros H HI. exec.
  - match goal with
    | H : while _ _ _ ?e0 _ = Return _ _ |- _ => loop_frame (same_core e0)
    end.
    exec. leaf.
  - leaf.
Qed.

Lemma parseState_produces fuel parent st id st' :
  parseState fuel parent st = Return id st' ->
  Inv (els st) (idCounter st) -> produces parent st id st'.
Proof.
  unfold parseState. intros H HI. exec.
  - match goal with
    | H : while _ _ _ ?e0 _ = Return _ _ |- _ =>
        apply (while_frame (same_core e0)) in H;
        [ destruct H
        | intros ? ? ? ? HJ ?; exec; unit_loops; exec;
          (split; [frames | eauto using same_core_trans])
        | auto ]
    end.
    exec. leaf.
  - leaf.
Qed.

Lemma parseTransition_produces fuel parent st id st' :
  parseTransition fuel parent st = Return id st' ->
  Inv (els st) (idCounter st) -> produces parent st id st'.
Proof.
  unfold parseTransition. intros H HI. exec.
  match goal with
  | H : while _ _ _ _ _ = Return _ _ |- _ =>
      apply (while_frame (fun _ => True)) in H;
      [ destruct H as [H _]
      | intros [[? ?] ?] ? ? ? _ ?; unfold transitionClause in *; exec;
      (split; [frames | exact I])
      | exact I ]
  end.
  leaf.
Qed.

Lemma dotted_frame fuel name st r st' :
  dotted fuel name st = Return r st' -> frame st st'.
Proof.
  revert name st. induction fuel as [|fuel IH]; intros name st H;
    [discriminate|].
  simpl in H. exec.
  - apply IH in H. frames.
  - frames.
Qed.

Lemma parseQualifiedName_frame fuel st r st' :
  parseQualifiedName fuel st = Return r st' -> frame st st'.
Proof.
  unfold parseQualifiedName. intros H. exec. apply dotted_frame in H. frames.
Qed.

Ltac names :=
  repeat match goal with
         | H : parseQualifiedName _ _ = Return _ _ |- _ =>
             apply parseQualifiedName_frame in H
         end.

Lemma parseConnection_produces fuel parent st r st' :
  parseConnection fuel parent st = Return r st' ->
  Inv (els st) (idCounter st) ->
  match r with
  | Some id => produces parent st id st'
  | None => frame st st'
  end.
Proof.
  unfold parseConnection. intros H HI.
  exec; names; unit_loops; exec; first [leaf | frames].
Qed.

Lemma parseBind_produces fuel parent st id st' :
  parseBind fuel parent st = Return id st' ->
  Inv (els st) (idCounter st) -> produces parent st id st'.
Proof. unfold parseBind. intros H HI. exec. names. leaf. Qed.

(** ** Productions with a body of child elements *)

Lemma under_frame pid s0 e0 a s s1 :
  under pid s0 e0 a s -> frame s s1 -> under pid s0 e0 a s1.
Proof.
  intros H Hf. unfold under in *.
  replace (els s1) with (els s) by frames.
  replace (idCounter s1) with (idCounter s) by frames. exact H.
Qed.

Lemma under_push pid s0 e0 a s ch s1 a' :
  under pid s0 e0 a s -> produces pid s ch s1 ->
  Element.id a' = Element.id a -> Element.parent a' = Element.parent a ->
  Element.children a' = Element.children a ++ [ch] ->
  lists_in_order a' ->
  under pid s0 e0 a' s1.
Proof.
  intros (HI & HE & Hid & Hpar & Hch & Hl) (HI1 & HE1 & ce & Hce & Hp)
    Hid' Hpar' Hch' Hl'.
  unfold under. repeat match goal with |- _ /\ _ => split end;
    try congruence; auto.
  - eapply Ext_trans; eassumption.
  - rewrite Hch'. eapply children_in_snoc; eauto.
    eapply children_in_ext; eassumption.
Qed.

Lemma lists_push_children ch a :
  lists_in_order a -> lists_in_order (push_children ch a).
Proof. apply Subseq_lists_snoc. Qed.

Ltac lists_push :=
  let a := fresh "a" in
  intros ch a; destruct a as [? ? ? ? ? ? []];
  cbv [lists_in_order push_children push_ports push_parts push_states
       push_transitions Element.with_children Element.with_fields
       Element.ports Element.parts Element.states Element.transitions
       Element.fields Element.children];
  intros (? & ? & ? & ?);
  repeat match goal with |- _ /\ _ => split end;
  first [ apply Subseq_keep; assumption | apply Subseq_skip; assumption ].

Lemma lists_push_ports :
  forall ch a, lists_in_order a ->
               lists_in_order (push_children ch (push_ports ch a)).
Proof. lists_push. Qed.

Lemma lists_push_parts :
  forall ch a, lists_in_order a ->
               lists_in_order (push_children ch (push_parts ch a)).
Proof. lists_push. Qed.

Lemma lists_push_states :
  forall ch a, lists_in_order a ->
               lists_in_order (push_children ch (push_states ch a)).
Proof. lists_push. Qed.

Lemma lists_push_transitions :
  forall ch a, lists_in_order a ->
               lists_in_order (push_children ch (push_transitions ch a)).
Proof. lists_push. Qed.

(** One iteration that pushes the child [ch] a production returned. *)
Ltac pushed lemma lists :=
  match goal with
  | Hu : under _ _ _ ?a ?s, H : _ = Return ?ch ?s1
    |- under _ _ _ ?a' ?s1 =>
      apply lemma in H; [| apply Hu];
      eapply under_push; [exact Hu | exact H | | | |];
      [ destruct a as [? ? ? ? ? ? []]; reflexivity
      | destruct a as [? ? ? ? ? ? []]; reflexivity
      | destruct a as [? ? ? ? ? ? []]; reflexivity
      | apply lists, Hu ]
  end.

Ltac moved :=
  match goal with
  | Hu : under _ _ _ ?a ?s |- under _ _ _ ?a _ =>
      eapply under_frame; [exact Hu | frames]
  end.

Lemma parseStateDefBody_under fuel pid e0 st e' st' :
  parseStateDefBody fuel pid e0 st = Return e' st' ->
  under pid st e0 e0 st -> under pid st e0 e' st'.
Proof.
  unfold parseStateDefBody. intros H Hu.
  apply (while_inv (fun a s => under pid st e0 a s)) in H;
    [destruct H as [H _]; exact H | | exact Hu].
  intros a s a' s' Hua _ Hb. exec.
  - pushed parseState_produces lists_push_states.
  - pushed parseTransition_produces lists_push_transitions.
  - moved.
  - moved.
  - moved.
Qed.

(** Storing the element whose body was parsed from [sb] to [se]. *)
Lemma produce_under parent st sb se se' st' id e0 e' :
  Inv (els st) (idCounter st) ->
  id = elem_ (idCounter st + 1) ->
  els sb = els st -> idCounter sb = idCounter st + 1 ->
  under id sb e0 e' se ->
  Element.id e0 = id -> Element.parent e0 = Some parent ->
  els se' = els se -> idCounter se' = idCounter se ->
  els st' = JsMap.set id e' (els se') -> idCounter st' = idCounter se' ->
  produces parent st id st'.
Proof.
  intros HI Hid Hels Hc (HIe & HE & Hide & Hpare & Hch & Hl) Hid0 Hpar0
    Hels' Hc' Hset Hcset.
  apply produce_node with (s := se') (e := e');
    [ exact HI | exact Hid | | | exact Hset | exact Hcset | congruence
    | congruence | | exact Hl ].
  - rewrite Hels', Hc'. exact HIe.
  - rewrite Hels', Hc', <- Hels, <- Hc. exact HE.
  - rewrite Hels'. exact Hch.
Qed.

Lemma under_start pid st e0 :
  Inv (els st) (idCounter st) ->
  Element.children e0 = [] -> lists_in_order e0 ->
  under pid st e0 e0 st.
Proof.
  intros HI Hch Hl. unfold under.
  repeat match goal with |- _ /\ _ => split end; auto using Ext_refl.
  rewrite Hch. intros ch [].
Qed.

Ltac node body_lemma :=
  match goal with
  | Hb : _ = Return ?e1 ?s2,
    H : els ?s1 = JsMap.set _ ?e1 (els ?s0) |- produces _ ?st _ ?s1 =>
      apply body_lemma in Hb;
      [ eapply produce_under with (se := s2) (se' := s0);
        [ eassumption | frames | | | exact Hb | reflexivity | reflexivity
        | frames | frames | eassumption | frames ];
        frames
      | apply under_start;
        [ match goal with
          | |- Inv (els ?sb) _ =>
              replace (els sb) with (els st) by frames;
              replace (idCounter sb) with (idCounter st + 1) by frames;
              eapply Inv_le; [eassumption | lia]
          end
        | reflexivity
        | apply lists_in_order_leaf; reflexivity ] ]
  end.

Lemma parseStateDef_produces fuel parent st id st' :
  parseStateDef fuel parent st = Return id st' ->
  Inv (els st) (idCounter st) -> produces parent st id st'.
Proof.
  unfold parseStateDef. intros H HI. exec.
  - node parseStateDefBody_under.
  - leaf.
Qed.

(** A produced id is a non-empty string. *)
Lemma produces_truthy parent st id st' :
  produces parent st id st' -> truthy id = true.
Proof.
  intros (HI & _ & e & He & _).
  destruct (inv_key _ _ HI _ _ He) as (_ & n & _ & ->). apply elem_truthy.
Qed.

Lemma parsePartDefBody_under fuel pid e0 st e' st' :
  parsePartDefBody fuel pid e0 st = Return e' st' ->
  under pid st e0 e0 st -> under pid st e0 e' st'.
Proof.
  unfold parsePartDefBody. intros H Hu.
  apply (while_inv (fun a s => under pid st e0 a s)) in H;
    [destruct H as [H _]; exact H | | exact Hu].
  clear H Hu. intros a s a' s' Hua _ Hb. exec.
  - pushed parsePort_produces lists_push_ports.
  - pushed parsePart_produces lists_push_parts.
  - pushed parseStateDef_produces lists_push_children.
  - match goal with
    | H : parseConnection _ _ _ = Return ?r _ |- _ =>
        apply parseConnection_produces in H; [| apply Hua];
        destruct r as [i|]; unfold whenId
    end.
    + match goal with
      | H : produces _ _ _ _ |- _ =>
          rewrite (produces_truthy _ _ _ _ H);
          eapply under_push; [exact Hua | exact H | | | |]
      end;
        [ reflexivity | reflexivity | reflexivity
        | apply lists_push_children, Hua ].
    + moved.
  - pushed parseBind_produces lists_push_children.
  - moved.
Qed.

Lemma parsePartDef_produces fuel parent st id st' :
  parsePartDef fuel parent st = Return id st' ->
  Inv (els st) (idCounter st) -> produces parent st id st'.
Proof.
  unfold parsePartDef. intros H HI. exec.
  - node parsePartDefBody_under.
  - leaf.
Qed.

(** ** The package *)

Lemma pushChild_Return parentId elemId st u st' :
  pushChild parentId elemId st = Return u st' ->
  exists parent,
    JsMap.get parentId (els st) = Some parent
    /\ els st' = JsMap.set parentId
                   (Element.with_children
                      (Element.children parent ++ [elemId]) parent) (els st)
    /\ idCounter st' = idCounter st.
Proof.
  unfold pushChild, bind, this, gets, els.
  destruct (JsMap.get parentId (elements (model st))) as [parent|];
    [|discriminate].
  intros H. inversion H. exists parent. auto.
Qed.

Lemma pushChild_Inv parentId elemId s s1 u s2 :
  produces parentId s elemId s1 ->
  pushChild parentId elemId s1 = Return u s2 ->
  Inv (els s2) (idCounter s2).
Proof.
  intros (HI & _ & ce & Hce & Hpar) H.
  apply pushChild_Return in H. destruct H as (pe & Hpe & -> & ->).
  eapply Inv_push; eassumption.
Qed.

Ltac pushed_to_package lemma :=
  match goal with
  | H : _ = Return ?ch ?s1, Hp : pushChild _ ?ch ?s1 = Return _ _ |- _ =>
      apply lemma in H; [| assumption];
      eapply pushChild_Inv; [exact H | exact Hp]
  end.

Lemma parsePackageBody_Inv fuel parentId st u st' :
  parsePackageBody fuel parentId st = Return u st' ->
  Inv (els st) (idCounter st) -> Inv (els st') (idCounter st').
Proof.
  unfold parsePackageBody. intros H HI.
  apply (while_inv (fun (_ : unit) s => Inv (els s) (idCounter s))) in H;
    [destruct H as [H _]; exact H | | exact HI].
  clear H HI. intros [] s [] s' HI _ Hb. exec.
  - pushed_to_package parseItemDef_produces.
  - pushed_to_package parsePortDef_produces.
  - pushed_to_package parsePartDef_produces.
  - pushed_to_package parsePart_produces.
  - pushed_to_package parseRequirementDef_produces.
  - pushed_to_package parseStateDef_produces.
  - match goal with
    | H : parseConnection _ _ _ = Return ?r _ |- _ =>
        apply parseConnection_produces in H; [| assumption];
        destruct r as [i|]; unfold whenId in *
    end.
    + match goal with
      | H : produces _ _ _ _ |- _ =>
          rewrite (produces_truthy _ _ _ _ H) in *;
          eapply pushChild_Inv; [exact H | eassumption]
      end.
    + exec.
      match goal with
      | H : frame ?a ?b |- Inv (els ?b) _ =>
          replace (els b) with (els a) by frames;
          replace (idCounter b) with (idCounter a) by frames; assumption
      end.
  - pushed_to_package parseBind_produces.
  - match goal with
    | H : frame ?a ?b |- Inv (els ?b) _ =>
        replace (els b) with (els a) by frames;
        replace (idCounter b) with (idCounter a) by frames; assumption
    end.
Qed.

Lemma setRootPackage_Return id st u st' :
  setRootPackage id st = Return u st' ->
  els st' = els st /\ idCounter st' = idCounter st.
Proof. intros H. inversion H. auto. Qed.

Ltac via_frame :=
  match goal with
  | H : Inv (els ?a) (idCounter ?a) |- Inv (els ?b) (idCounter ?b) =>
      replace (els b) with (els a) by frames;
      replace (idCounter b) with (idCounter a) by frames; exact H
  end.

Lemma parsePackage_Inv fuel parent st u st' :
  parsePackage fuel parent st = Return u st' ->
  Inv (els st) (idCounter st) -> Inv (els st') (idCounter st').
Proof.
  unfold parsePackage. intros H HI. exec.
  all: match goal with
       | H : els ?s1 = JsMap.set ?id ?e (els ?s0) |- _ =>
           assert (HI1 : Inv (els s1) (idCounter s1));
           [ rewrite H;
             replace (els s0) with (els st) by frames;
             replace (idCounter s1) with (idCounter st + 1) by frames;
             apply Inv_set;
             [ eapply Inv_le; [exact HI | lia]
             | exists (idCounter st + 1); split; [lia | frames]
             | match goal with
               | |- JsMap.get (elem_ ?n) _ = None =>
                   replace n with (idCounter st + 1) by frames
               end;
               eapply Inv_fresh; [exact HI | lia]
             | reflexivity
             | intros ch []
             | apply lists_in_order_leaf; reflexivity ]
           | clear H HI ]
       end.
  all: repeat match goal with
         | H : setRootPackage _ ?s = Return _ ?s' |- _ =>
             apply setRootPackage_Return in H; destruct H as [H ?];
             assert (Inv (els s') (idCounter s')) by (rewrite H; congruence);
             clear H
         end.
  all: match goal with
       | H : parsePackageBody _ _ ?s = Return _ _ |- _ =>
           apply parsePackageBody_Inv in H; [| via_frame]
       end.
  all: via_frame.
Qed.

(** The element map of a model that [parse] returns satisfies the
    invariant. *)
Lemma parse_Inv fuel source p m st' :
  parse fuel source p = Return m st' -> Inv (elements m) (idCounter st').
Proof.
  unfold parse. destruct (Lexer.tokenize fuel source) as [toks|];
    [|discriminate].
  unfold modify. intros H. exec.
  all: repeat match goal with
         | H : Return _ _ = Return _ _ |- _ => inversion H; subst; clear H
         | H : gets model _ = Return _ _ |- _ => inversion H; subst; clear H
         end.
  - match goal with
    | H : parsePackage _ _ _ = Return _ _ |- _ =>
        apply parsePackage_Inv in H; [exact H | apply Inv_empty]
    end.
  - apply Inv_empty.
Qed.

End ParserInvariant.

(* ================================================================== *)
(** * The parser: running a production on given tokens *)

Section Running.
Import Parser.

Lemma bind_eq {A B} (m : P A) (k : A -> P B) s a s' :
  m s = Return a s' -> bind m k s = k a s'.
Proof. intros H. unfold bind. rewrite H. reflexivity. Qed.

Lemma bind_Throw {A B} (m : P A) (k : A -> P B) s e :
  m s = Throw e -> bind m k s = Throw e.
Proof. intros H. unfold bind. rewrite H. reflexivity. Qed.

Lemma bind_OutOfFuel {A B} (m : P A) (k : A -> P B) s :
  m s = OutOfFuel -> bind m k s = OutOfFuel.
Proof. intros H. unfold bind. rewrite H. reflexivity. Qed.

Lemma rest_current st t l : rest_is st (t :: l) -> current st = t.
Proof.
  unfold rest_is, current. generalize (pos st) (tokens st).
  induction n as [|n IH]; intros [|x toks]; simpl; try discriminate.
  - intros H. inversion H. reflexivity.
  - apply IH.
Qed.

Lemma rest_advance st t l :
  rest_is st (t :: l) -> rest_is (set_pos (pos st + 1) st) l.
Proof.
  unfold rest_is. simpl. generalize (pos st) (tokens st).
  induction n as [|n IH]; intros [|x toks]; simpl; try discriminate.
  - intros H. inversion H. reflexivity.
  - apply IH.
Qed.

Lemma rest_advance2 st t u l :
  rest_is st (t :: u :: l) -> rest_is (set_pos (pos st + 1 + 1) st) l.
Proof. intros H. do 2 apply rest_advance in H. exact H. Qed.

Lemma rest_lookAhead st t u l type value :
  rest_is st (t :: u :: l) -> lookAhead type value st = token_is type value u.
Proof.
  intros H. apply rest_advance in H. unfold lookAhead.
  unfold rest_is in H. simpl in H.
  rewrite <- (Nat.add_0_r (pos st + 1)), <- nth_error_skipn, H. reflexivity.
Qed.

Lemma check_next st t l type value :
  rest_is st (t :: l) -> check type value st = token_is type value t.
Proof. intros H. unfold check. rewrite (rest_current _ _ _ H). reflexivity. Qed.

Lemma expect_next st t l type value :
  rest_is st (t :: l) -> token_is type value t = true ->
  expect type value st = Return t (set_pos (pos st + 1) st).
Proof.
  intros H Ht. rewrite expect_ok.
  - rewrite (rest_current _ _ _ H). reflexivity.
  - rewrite (check_next _ _ _ _ _ H). exact Ht.
Qed.

Lemma expect_next_fail st t l type value :
  rest_is st (t :: l) -> token_is type value t = false ->
  expect type value st = Throw (Error (expected type value t)).
Proof.
  intros H Ht. rewrite expect_fail.
  - rewrite (rest_current _ _ _ H). reflexivity.
  - rewrite (check_next _ _ _ _ _ H). exact Ht.
Qed.

Lemma match_next st t l type value :
  rest_is st (t :: l) ->
  match_ type value st =
  if token_is type value t then Return true (set_pos (pos st + 1) st)
  else Return false st.
Proof.
  intros H. rewrite match_eq, (check_next _ _ _ _ _ H). reflexivity.
Qed.

Lemma match_next_yes st t l type value :
  rest_is st (t :: l) -> token_is type value t = true ->
  match_ type value st = Return true (set_pos (pos st + 1) st).
Proof. intros H Ht. rewrite (match_next _ _ _ _ _ H), Ht. reflexivity. Qed.

Lemma match_next_no st t l type value :
  rest_is st (t :: l) -> token_is type value t = false ->
  match_ type value st = Return false st.
Proof. intros H Ht. rewrite (match_next _ _ _ _ _ H), Ht. reflexivity. Qed.

Lemma TokenType_eqb_eq a b : TokenType_eqb a b = true <-> a = b.
Proof. destruct a, b; simpl; split; congruence. Qed.

Lemma token_is_type type value t :
  token_is type value t = true -> Token.type t = type.
Proof.
  unfold token_is. destruct (TokenType_eqb (Token.type t) type) eqn:H;
    [|discriminate].
  intros _. apply TokenType_eqb_eq, H.
Qed.

Lemma token_is_other type value type' value' t :
  token_is type value t = true -> type' <> type ->
  token_is type' value' t = false.
Proof.
  intros H Hne. apply token_is_type in H. unfold token_is.
  destruct (TokenType_eqb (Token.type t) type') eqn:H'; [|reflexivity].
  apply TokenType_eqb_eq in H'. congruence.
Qed.


Lemma set_pos_set_pos a b st : set_pos a (set_pos b st) = set_pos a st.
Proof. reflexivity. Qed.




End Running.

(* ================================================================== *)
(** * Properties of the front end *)

(** ** The lexer *)

(** C9. [tokenize] is total: for every source there is a token sequence,
    ending in the end-of-input token, that [tokenize] returns whenever it is
    given more fuel than the source has code units, so no input makes it
    fail or loop.  A character that no rule matches is skipped by one
    iteration of the main loop: the position and the column advance by one,
    no token is emitted and nothing is thrown. *)
Theorem tokenize_total_and_lenient (source : jsstring) :
  (exists toks eof,
      Token.type eof = EOF /\ Token.value eof = []
      /\ forall fuel, length source < fuel ->
                      Lexer.tokenize fuel source = Some (toks ++ [eof]))
  /\ (forall fuel st c,
         Lexer.at_ source (Lexer.pos st) = Some c ->
         unmatched c (Lexer.at_ source (Lexer.pos st + 1)) = true ->
         Lexer.step fuel source st
         = Return tt (Lexer.mk (Lexer.tokens st) (Lexer.pos st + 1)
                        (Lexer.line st) (Lexer.column st + 1))).
Proof.
  split.
  - destruct (tokenize_total (S (length source)) source)
      as (toks & eof & Ht & Hty & Hv & _);
      [lia|].
    exists toks, eof. repeat split; auto.
    intros fuel Hfuel. eapply tokenize_mono; [|exact Ht]. lia.
  - intros fuel st c Hc Hun. unfold unmatched in Hun.
    repeat (apply andb_prop in Hun; destruct Hun as [Hun ?]).
    repeat match goal with
           | H : negb _ = true |- _ => apply negb_true_iff in H
           end.
    assert (Hdot : Lexer.charIs "." (Some c) = false).
    { unfold Lexer.charIs, Lexer.test.
      destruct (N.eqb (ch ".") c) eqn:Hd; [|reflexivity].
      apply N.eqb_eq in Hd. subst c. discriminate. }
    assert (Hquote : Lexer.charIs quote (Some c) = false).
    { unfold Lexer.charIs, Lexer.test. rewrite N.eqb_sym. assumption. }
    assert (Hline : (Lexer.charIs "/" (Some c)
                     && Lexer.charIs "/" (Lexer.at_ source (Lexer.pos st + 1)))%bool
                    = false).
    { unfold Lexer.charIs at 1, Lexer.test at 1. rewrite N.eqb_sym.
      destruct (N.eqb c (ch "/")); [simpl in *|reflexivity].
      match goal with
      | H : (_ || _)%bool = false |- _ => apply orb_false_elim in H; tauto
      end. }
    assert (Hblock : (Lexer.charIs "/" (Some c)
                      && Lexer.charIs "*" (Lexer.at_ source (Lexer.pos st + 1)))%bool
                     = false).
    { unfold Lexer.charIs at 1, Lexer.test at 1. rewrite N.eqb_sym.
      destruct (N.eqb c (ch "/")); [simpl in *|reflexivity].
      match goal with
      | H : (_ || _)%bool = false |- _ => apply orb_false_elim in H; tauto
      end. }
    unfold Lexer.step, bind, gets. cbv zeta.
    rewrite Hc, Hline, Hblock, Hquote, Hdot.
    unfold Lexer.test.
    repeat match goal with
           | H : _ = false |- _ => rewrite H
           end.
    simpl. destruct (Lexer.singleTokens c); [discriminate | reflexivity].
Qed.

Lemma tokenize_total_and_lenient_witness :
  Lexer.at_ (js "a@") 1 = Some (ch "@")
  /\ unmatched (ch "@") (Lexer.at_ (js "a@") 2) = true
  /\ Lexer.step 3 (js "a@") (Lexer.mk [] 1 1 2)
     = Return tt (Lexer.mk [] 2 1 3).
Proof.
  split; [reflexivity|]. split; [reflexivity|].
  apply (proj2 (tokenize_total_and_lenient (js "a@")) 3 (Lexer.mk [] 1 1 2)
           (ch "@")); reflexivity.
Defined.

(** ** The parser *)

Lemma ElementType_eqb_eq a b : ElementType.eqb a b = true <-> a = b.
Proof. destruct a, b; simpl; split; congruence. Qed.

Lemma rename_id e : rename (fun k => k) e = e.
Proof.
  destruct e as [ty n i p c md f]. unfold rename. simpl.
  rewrite map_id. f_equal.
  - destruct p; reflexivity.
  - destruct f; simpl; rewrite ?map_id; reflexivity.
Qed.

Lemma structurally_identical_refl m : structurally_identical m m.
Proof.
  exists (fun k => k). repeat split; auto.
  - symmetry. rewrite <- (map_id (elements m)) at 2.
    apply map_ext. intros [k e]. simpl. rewrite rename_id. reflexivity.
  - destruct (rootPackage m); reflexivity.
Qed.

(** [parse] overwrites every field of the parser before it reads one. *)
Lemma parse_ignores_state fuel source p1 p2 :
  Parser.parse fuel source p1 = Parser.parse fuel source p2.
Proof.
  unfold Parser.parse. destruct (Lexer.tokenize fuel source); reflexivity.
Qed.

(** C3. A source whose first token that is not a comment is not the keyword
    [package] is parsed without an error into the model with no element
    and no root package: [tokenize] returns its tokens and, when the first
    one left by the comment filter is not [package], [parse] returns that
    model.  The empty source is one such source. *)
Theorem parse_without_package :
  (forall fuel source p,
      length source < fuel ->
      exists toks,
        Lexer.tokenize fuel source = Some toks
        /\ (opensWithPackage (filter Parser.notComment toks) = false ->
            exists st',
              Parser.parse fuel source p
              = Return (mkModel JsMap.empty None) st'))
  /\ (forall fuel,
         0 < fuel ->
         exists st', parseSysML fuel [] = Return (mkModel JsMap.empty None) st').
Proof.
  assert (H : forall fuel source p,
             length source < fuel ->
             exists toks,
               Lexer.tokenize fuel source = Some toks
               /\ (opensWithPackage (filter Parser.notComment toks) = false ->
                   exists st',
                     Parser.parse fuel source p
                     = Return (mkModel JsMap.empty None) st')).
  { intros fuel source p Hfuel.
    destruct (tokenize_total fuel source Hfuel) as (toks & eof & Ht & _).
    exists (toks ++ [eof]). split; [exact Ht|].
    intros Hopen. unfold Parser.parse. rewrite Ht.
    unfold bind, modify, Parser.this, gets. cbv beta iota.
    replace (Parser.check KEYWORD (Parser.kw "package") _) with false.
    - eexists. reflexivity.
    - symmetry. unfold Parser.check, Parser.current. simpl.
      unfold opensWithPackage in Hopen.
      destruct (filter Parser.notComment (toks ++ [eof])); [reflexivity|].
      exact Hopen. }
  split; [exact H|].
  intros fuel Hfuel.
  destruct (H fuel [] Parser.new Hfuel) as (toks & Ht & Hp).
  apply Hp. destruct fuel; [lia|]. simpl in Ht. inversion Ht. reflexivity.
Qed.

Lemma parse_without_package_witness :
  length (js "part def { }") < 13
  /\ exists toks,
       Lexer.tokenize 13 (js "part def { }") = Some toks
       /\ (opensWithPackage (filter Parser.notComment toks) = false ->
           exists st',
             Parser.parse 13 (js "part def { }") Parser.new
             = Return (mkModel JsMap.empty None) st').
Proof.
  split; [vm_compute; reflexivity|].
  apply (proj1 parse_without_package 13 (js "part def { }") Parser.new).
  vm_compute. reflexivity.
Defined.

(** C8. Two parses of one source return the same model, whatever state the
    parser objects were in and whatever fuel the two runs had: the models
    are equal, ids included, hence structurally identical. *)
Theorem parse_twice source fuel1 fuel2 p1 p2 m1 m2 s1 s2 :
  Parser.parse fuel1 source p1 = Return m1 s1 ->
  Parser.parse fuel2 source p2 = Return m2 s2 ->
  m1 = m2 /\ structurally_identical m1 m2.
Proof.
  intros H1 H2.
  assert (Heq : m1 = m2).
  { apply (mle_Return _ _ _ _ _
             (parse_mono fuel1 (Nat.max fuel1 fuel2) (Nat.le_max_l _ _) source))
      in H1.
    apply (mle_Return _ _ _ _ _
             (parse_mono fuel2 (Nat.max fuel1 fuel2) (Nat.le_max_r _ _) source))
      in H2.
    rewrite (parse_ignores_state _ _ p1 p2) in H1. congruence. }
  split; [exact Heq|]. subst. apply structurally_identical_refl.
Qed.

(** A parse that returns with some fuel throws with no fuel. *)
Lemma parse_Return_not_Throw source fuel1 fuel2 p1 p2 m1 s1 e :
  Parser.parse fuel1 source p1 = Return m1 s1 ->
  Parser.parse fuel2 source p2 <> Throw e.
Proof.
  intros H1 H2.
  apply (mle_Return _ _ _ _ _
           (parse_mono fuel1 (Nat.max fuel1 fuel2) (Nat.le_max_l _ _) source))
    in H1.
  apply (mle_Throw _ _ _ _
           (parse_mono fuel2 (Nat.max fuel1 fuel2) (Nat.le_max_r _ _) source))
    in H2.
  rewrite (parse_ignores_state _ _ p1 p2) in H1. congruence.
Qed.

(** C4. In a model that [parse] returns, every child id of every element
    resolves to an element of the map whose parent is that element. *)
Theorem parse_parent_consistent fuel source p m st' :
  Parser.parse fuel source p = Return m st' -> parent_consistent m.
Proof.
  intros H. apply parse_Inv in H. intros E HE C HC.
  destruct (In_values _ _ (inv_nodup _ _ H) HE) as (k & Hk).
  destruct (inv_key _ _ H _ _ Hk) as (Hid & _).
  destruct (inv_children _ _ H _ _ Hk C HC) as (ce & Hce & Hpar).
  exists ce. split; [exact Hce | congruence].
Qed.

(** The convenience lists of every element of a model that [parse]
    returns are in order. *)
Lemma parse_lists_in_order fuel source p m st' :
  Parser.parse fuel source p = Return m st' ->
  forall E, In E (JsMap.values (elements m)) -> lists_in_order E.
Proof.
  intros H E HE. apply parse_Inv in H.
  destruct (In_values _ _ (inv_nodup _ _ H) HE) as (k & Hk).
  apply (inv_lists _ _ H _ _ Hk).
Qed.

(** ** The query layer *)

(** C10. [getConnections] returns the elements of the map whose type is
    [connection] or [bind], those and no others, in the order of the map;
    without a model it returns nothing. *)
Theorem getConnections_spec (m : SysMLModel) :
  (forall e,
      In e (ModelContext.getConnections (Some m))
      <-> In e (JsMap.values (elements m))
          /\ (Element.type e = ElementType.connection
              \/ Element.type e = ElementType.bind))
  /\ Subseq (ModelContext.getConnections (Some m)) (JsMap.values (elements m))
  /\ ModelContext.getConnections None = [].
Proof.
  split; [|split; [|reflexivity]].
  - intros e. unfold ModelContext.getConnections.
    rewrite filter_In, orb_true_iff, !ElementType_eqb_eq. reflexivity.
  - unfold ModelContext.getConnections.
    induction (JsMap.values (elements m)) as [|x l IH] using rev_ind;
      [constructor|].
    rewrite filter_app. simpl.
    destruct (_ || _)%bool; [apply Subseq_keep, IH|].
    rewrite app_nil_r. apply Subseq_skip, IH.
Qed.

(** C2, as the code has it.  A part definition without a name makes
    [parsePartDef] throw: when the tokens at the cursor are [part], [def]
    and then a token [t] that is not an identifier, the error says that an
    identifier was expected and gives the type, the text and the line of
    [t].  The dispatcher of a package body calls [parsePartDef] there, so
    [package P { part def { } }] with the brace on line 2 fails with that
    message for line 2, whatever the fuel above 30. *)
Theorem part_def_without_name :
  (forall fuel parent st part_ def_ t l,
      rest_is st (part_ :: def_ :: t :: l) ->
      Parser.token_is KEYWORD (Parser.kw "part") part_ = true ->
      Parser.token_is KEYWORD (Parser.kw "def") def_ = true ->
      Token.type t <> IDENTIFIER ->
      Parser.parsePartDef fuel parent st
      = Throw (Parser.Error
                 (js "Expected IDENTIFIER but got "
                  ++ TokenType_string (Token.type t)
                  ++ js " '" ++ Token.value t ++ js "' at line "
                  ++ decimal (Token.line t))))
  /\ (forall fuel,
         30 < fuel ->
         parseSysML fuel (js "package P {
  part def { }
}")
         = Throw (Parser.Error
                    (js "Expected IDENTIFIER but got LBRACE '{' at line 2"))).
Proof.
  split.
  - intros fuel parent st part_ def_ t l Hrest Hpart Hdef Ht.
    unfold Parser.parsePartDef.
    rewrite (bind_eq _ _ _ _ _ (expect_next _ _ _ _ _ Hrest Hpart)).
    apply rest_advance in Hrest.
    rewrite (bind_eq _ _ _ _ _ (expect_next _ _ _ _ _ Hrest Hdef)).
    apply rest_advance in Hrest.
    apply bind_Throw. rewrite (expect_next_fail _ _ _ _ _ Hrest); [reflexivity|].
    unfold Parser.token_is. destruct (Token.type t); simpl; congruence.
  - intros fuel Hfuel. unfold parseSysML.
    eapply mle_Throw; [apply (parse_mono 31 fuel); lia|].
    vm_compute. reflexivity.
Qed.

Lemma part_def_without_name_witness :
  Parser.parsePartDef 0 (js "elem_1")
    (Parser.mk [Token.mk KEYWORD (js "part") 1 1; Token.mk KEYWORD (js "def") 1 6;
                Token.mk LBRACE (js "{") 1 10] 0 (mkModel JsMap.empty None) 1)
  = Throw (Parser.Error (js "Expected IDENTIFIER but got LBRACE '{' at line 1"))
  /\ parseSysML 31 (js "package P {
  part def { }
}")
     = Throw (Parser.Error
                (js "Expected IDENTIFIER but got LBRACE '{' at line 2")).
Proof.
  split.
  - apply (proj1 part_def_without_name 0 (js "elem_1") _
             (Token.mk KEYWORD (js "part") 1 1) (Token.mk KEYWORD (js "def") 1 6)
             (Token.mk LBRACE (js "{") 1 10) []);
      [reflexivity | reflexivity | reflexivity | discriminate].
  - apply (proj2 part_def_without_name 31). lia.
Defined.

(** C2, as the specification states it: the bare source [part def { }] does
    not open with [package], so [parse] returns the empty model and throws
    nothing, whatever the fuel. *)
Lemma bare_part_def_is_not_rejected :
  (exists st',
      parseSysML 13 (js "part def { }") = Return (mkModel JsMap.empty None) st')
  /\ (forall fuel e, parseSysML fuel (js "part def { }") <> Throw e).
Proof.
  unfold parseSysML.
  assert (H13 : exists st',
             Parser.parse 13 (js "part def { }") Parser.new
             = Return (mkModel JsMap.empty None) st')
    by (eexists; vm_compute; reflexivity).
  split; [exact H13|].
  intros fuel e. destruct H13 as (st' & H13).
  exact (parse_Return_not_Throw (js "part def { }") 13 fuel Parser.new
           Parser.new (mkModel JsMap.empty None) st' e H13).
Qed.

Lemma parse_parent_consistent_witness :
  exists m st',
    Parser.parse 60 (js "package M { part def P { port p1; part a; } }")
      Parser.new = Return m st'
    /\ parent_consistent m.
Proof.
  eexists _, _. split.
  - vm_compute. reflexivity.
  - eapply (parse_parent_consistent 60
              (js "package M { part def P { port p1; part a; } }") Parser.new).
    vm_compute. reflexivity.
Defined.

Lemma parse_twice_witness :
  exists m1 s1 m2 s2,
    Parser.parse 40 (js "package M { part a; }") Parser.new = Return m1 s1
    /\ Parser.parse 50 (js "package M { part a; }")
         (Parser.mk [] 7 (mkModel JsMap.empty (Some (js "elem_9"))) 3)
       = Return m2 s2
    /\ m1 = m2 /\ structurally_identical m1 m2.
Proof.
  eexists _, _, _, _. split; [|split].
  - vm_compute. reflexivity.
  - vm_compute. reflexivity.
  - eapply (parse_twice (js "package M { part a; }") 40 50 Parser.new
              (Parser.mk [] 7 (mkModel JsMap.empty (Some (js "elem_9"))) 3));
      vm_compute; reflexivity.
Defined.

(** C5. In a model that [parse] returns, the lists [ports], [parts],
    [states] and [transitions] of every element are sublists of its
    [children], in the same order.  In particular, for a part definition [P]
    that declares the ports [p1], [p2] and then the parts [a], [b], whatever
    these names are, [getChildren] of [P] is these four elements in that
    order, [P.ports] is the ids of the first two and [P.parts] the ids of
    the last two. *)
Theorem parse_lists_and_children :
  (forall fuel source p m st',
      Parser.parse fuel source p = Return m st' ->
      forall E, In E (JsMap.values (elements m)) -> lists_in_order E)
  /\ (forall M P p1 p2 a b : jsstring,
         exists st' eP e1 e2 e3 e4,
           Parser.parsePackage 5 None
             (Parser.mk
                [keyword "package"; ident M; punct LBRACE;
                 keyword "part"; keyword "def"; ident P; punct LBRACE;
                 keyword "port"; ident p1; punct SEMICOLON;
                 keyword "port"; ident p2; punct SEMICOLON;
                 keyword "part"; ident a; punct SEMICOLON;
                 keyword "part"; ident b; punct SEMICOLON;
                 punct RBRACE; punct RBRACE; punct EOF]
                0 (mkModel JsMap.empty None) 0)
           = Return tt st'
           /\ let model := Some (Parser.model st') in
              ModelContext.getPartDefs model = [eP]
              /\ Element.name eP = P
              /\ ModelContext.getChildren model (Element.id eP)
                 = [e1; e2; e3; e4]
              /\ map Element.name [e1; e2; e3; e4] = [p1; p2; a; b]
              /\ map Element.type [e1; e2; e3; e4]
                 = [ElementType.port; ElementType.port;
                    ElementType.part; ElementType.part]
              /\ Element.ports eP = [Element.id e1; Element.id e2]
              /\ Element.parts eP = [Element.id e3; Element.id e4])
  /\ (exists m st' eP e1 e2 e3 e4,
         parseSysML 80
           (js "package M { part def P { port p1; port p2; part a; part b; } }")
         = Return m st'
         /\ ModelContext.getPartDefs (Some m) = [eP]
         /\ Element.name eP = js "P"
         /\ ModelContext.getChildren (Some m) (Element.id eP) = [e1; e2; e3; e4]
         /\ map Element.name [e1; e2; e3; e4] = [js "p1"; js "p2"; js "a"; js "b"]
         /\ Element.ports eP = [Element.id e1; Element.id e2]
         /\ Element.parts eP = [Element.id e3; Element.id e4]).
Proof.
  split; [exact parse_lists_in_order|]. split.
  - intros M P p1 p2 a b. eexists _, _, _, _, _, _. split.
    + vm_compute. reflexivity.
    + vm_compute. repeat split.
  - eexists _, _, _, _, _, _, _. split.
    + vm_compute. reflexivity.
    + vm_compute. repeat split.
Qed.

Lemma parse_lists_and_children_witness :
  exists m st',
    Parser.parse 60 (js "package M { part def P { port p1; part a; } }")
      Parser.new = Return m st'
    /\ forall E, In E (JsMap.values (elements m)) -> lists_in_order E.
Proof.
  eexists _, _. split.
  - vm_compute. reflexivity.
  - eapply (proj1 parse_lists_and_children 60
              (js "package M { part def P { port p1; part a; } }") Parser.new).
    vm_compute. reflexivity.
Defined.

(** ** A loop that never ends *)

(** The loop [while (!this.check('RBRACE')) this.advance()] of [parseState]
    runs out of every fuel when no [RBRACE] lies at or after the cursor:
    past the last token [current] yields an end-of-input token for ever. *)
Lemma skip_forever fuel st :
  (forall i, Parser.pos st <= i ->
             Token.type (nth i (Parser.tokens st) (Token.mk EOF [] 0 0)) <> RBRACE) ->
  while fuel (fun st => negb (Parser.check RBRACE Parser.any st))
    (fun _ : unit => Parser.advance ;; ret tt) tt st = OutOfFuel.
Proof.
  revert st. induction fuel as [|fuel IH]; intros st Hno; [reflexivity|].
  rewrite while_S.
  assert (Hc : Parser.check RBRACE Parser.any st = false).
  { unfold Parser.check, Parser.token_is, Parser.current.
    specialize (Hno (Parser.pos st) (le_n _)).
    destruct (Token.type (nth _ _ _)); try reflexivity. congruence. }
  rewrite Hc. simpl. unfold bind at 1. simpl. unfold bind at 1. simpl.
  apply IH. simpl. intros i Hi. apply Hno. lia.
Qed.

(** Evaluates the first operation of a sequence when it does not mention
    the fuel [f], and the condition of a branch. *)
Ltac run_head f :=
  lazymatch goal with
  | |- bind ?m ?k ?s = _ =>
      lazymatch m with
      | context [f] => fail
      | _ =>
          let r := eval vm_compute in (m s) in
          lazymatch r with
          | Return ?a ?s' =>
              rewrite (bind_eq m k s a s' ltac:(vm_compute; reflexivity));
              cbv beta
          end
      end
  | |- (if ?b then _ else _) _ = _ =>
      let v := eval vm_compute in b in
      replace b with v by (vm_compute; reflexivity); cbv iota
  | |- (if ?b then _ else _) = _ =>
      let v := eval vm_compute in b in
      replace b with v by (vm_compute; reflexivity); cbv iota
  end.

(** Enters the first operation of a sequence, which runs out of fuel. *)
Ltac enter := apply bind_OutOfFuel; cbv beta.

Lemma parsePackage_unclosed_action fuel toks :
  Lexer.tokenize 60 (js "package P { state def S { state A { entry action a {")
  = Some toks ->
  Parser.parsePackage fuel None
    (Parser.mk (filter Parser.notComment toks) 0 (mkModel JsMap.empty None) 0)
  = OutOfFuel.
Proof.
  intros Ht. vm_compute in Ht. inversion Ht as [Htoks]. clear Ht Htoks toks.
  match goal with
  | |- _ _ _ (Parser.mk ?t _ _ _) = _ =>
      let v := eval vm_compute in t in change t with v
  end.
  destruct fuel as [|f].
  - vm_compute. reflexivity.
  - unfold Parser.parsePackage. repeat run_head f.
    enter. unfold Parser.parsePackageBody. rewrite while_S. run_head f.
    enter. repeat run_head f.
    enter. unfold Parser.parseStateDef. repeat run_head f.
    enter. enter. unfold Parser.parseStateDefBody. rewrite while_S. run_head f.
    enter. repeat run_head f.
    enter. unfold Parser.parseState. repeat run_head f.
    enter. enter. rewrite while_S. run_head f.
    enter. repeat run_head f.
    enter. apply skip_forever.
    simpl. intros i Hi.
    do 15 (destruct i as [|i]; [first [lia | simpl; discriminate]|]).
    simpl. destruct i; discriminate.
Qed.

(** C1 fails on the code.  On a source that ends inside the body of an
    entry action, [parse] runs out of every fuel: it neither returns a
    model nor throws. *)
Theorem parse_unclosed_entry_action_never_returns fuel :
  parseSysML fuel (js "package P { state def S { state A { entry action a {")
  = OutOfFuel.
Proof.
  unfold parseSysML, Parser.parse.
  destruct (Lexer.tokenize fuel _) as [toks|] eqn:Ht; [|reflexivity].
  assert (H60 : exists t60,
             Lexer.tokenize 60
               (js "package P { state def S { state A { entry action a {")
             = Some t60) by (eexists; vm_compute; reflexivity).
  destruct H60 as (t60 & H60).
  assert (Htoks : toks = t60).
  { apply (tokenize_mono _ (Nat.max fuel 60) _ _ (Nat.le_max_l _ _)) in Ht.
    rewrite (tokenize_mono _ (Nat.max fuel 60) _ _ (Nat.le_max_r _ _) H60) in Ht.
    congruence. }
  subst toks. clear Ht.
  pose proof (parsePackage_unclosed_action fuel _ H60) as Hd.
  assert (Hcheck : Parser.check KEYWORD (Parser.kw "package")
                     (Parser.mk (filter Parser.notComment t60) 0
                        (mkModel JsMap.empty None) 0) = true).
  { clear Hd. vm_compute in H60. inversion H60 as [H]. vm_compute. reflexivity. }
  unfold modify, bind at 1 2 3 4 5. unfold Parser.this, gets.
  unfold Parser.set_model, Parser.set_pos. simpl Parser.tokens.
  simpl Parser.pos. simpl Parser.idCounter. simpl Parser.model.
  rewrite Hcheck. apply bind_OutOfFuel. exact Hd.
Qed.

(** ** Transitions *)

Section Transitions.
Import Parser.








(** The state machine of the specification, from source text. *)
Example parse_state_machine :
  exists m st' sd t1,
    parseSysML 120
      (js "package M { state def S { state OPEN; state CLOSED; transition t1 first OPEN accept go then CLOSED; } }")
    = Return m st'
    /\ ModelContext.getElement (Some m) (js "elem_2") = Some sd
    /\ map Element.name (ModelContext.getChildren (Some m) (js "elem_2"))
       = [js "OPEN"; js "CLOSED"; js "t1"]
    /\ Element.states sd = [js "elem_3"; js "elem_4"]
    /\ Element.transitions sd = [js "elem_5"]
    /\ ModelContext.getElement (Some m) (js "elem_5") = Some t1
    /\ Element.fields t1
       = TransitionFields (js "OPEN") (js "CLOSED") (Some (js "go")).
Proof.
  eexists _, _, _, _. split; [vm_compute; reflexivity|].
  vm_compute. repeat split.
Qed.

End Transitions.

(** ** Connections *)

Section Connections.
Import Parser.

Lemma dotted_run segs :
  forall fuel st name nxt l,
    rest_is st (flat_map (fun ds => [fst ds; snd ds]) segs ++ nxt :: l) ->
    forallb (fun ds => token_is DOT any (fst ds)
                       && token_is IDENTIFIER any (snd ds)) segs = true ->
    token_is DOT any nxt = false ->
    length segs < fuel ->
    exists n,
      dotted fuel name st
      = Return (name ++ concat (map (fun ds => js "." ++ Token.value (snd ds)) segs))
          (set_pos n st)
      /\ rest_is (set_pos n st) (nxt :: l).
Proof.
  induction segs as [|[d x] segs IH]; intros fuel st name nxt l Hrest Hok Hnxt Hfuel;
    (destruct fuel as [|fuel]; [simpl in Hfuel; lia|]); simpl dotted.
  - simpl in Hrest.
    rewrite (bind_eq _ _ _ false st);
      [|rewrite (match_next _ _ _ _ _ Hrest), Hnxt; reflexivity].
    exists (pos st). destruct st. simpl. rewrite app_nil_r.
    split; [reflexivity | exact Hrest].
  - simpl in Hrest, Hok.
    apply andb_prop in Hok. destruct Hok as [Hdx Hok].
    apply andb_prop in Hdx. destruct Hdx as [Hd Hx].
    simpl in Hfuel. apply Nat.succ_lt_mono in Hfuel.
    rewrite (bind_eq _ _ _ true (set_pos (pos st + 1) st));
      [|rewrite (match_next _ _ _ _ _ Hrest), Hd; reflexivity].
    pose proof (rest_advance _ _ _ Hrest) as Hrest1.
    rewrite (bind_eq _ _ _ _ _ (expect_next _ _ _ _ _ Hrest1 Hx)).
    apply rest_advance2 in Hrest.
    destruct (IH fuel _ (name ++ js "." ++ Token.value x) nxt l Hrest Hok Hnxt Hfuel)
      as (n & Hrun & Hr).
    exists n. rewrite !set_pos_set_pos in *. split; [|exact Hr].
    change (pos (set_pos (pos st + 1) st) + 1) with (pos st + 1 + 1).
    etransitivity; [exact Hrun|]. simpl concat.
    rewrite <- !app_assoc. reflexivity.
Qed.

Lemma parseQualifiedName_run fuel st x segs nxt l :
  rest_is st (qualified x segs ++ nxt :: l) ->
  qualified_ok x segs = true ->
  token_is DOT any nxt = false ->
  length segs < fuel ->
  exists n,
    parseQualifiedName fuel st = Return (dot_joined x segs) (set_pos n st)
    /\ rest_is (set_pos n st) (nxt :: l).
Proof.
  unfold qualified, qualified_ok. simpl. intros Hrest Hok Hnxt Hfuel.
  apply andb_prop in Hok. destruct Hok as [Hx Hok].
  unfold parseQualifiedName.
  rewrite (bind_eq _ _ _ _ _ (expect_next _ _ _ _ _ Hrest Hx)).
  apply rest_advance in Hrest.
  destruct (dotted_run segs fuel _ (Token.value x) nxt l Hrest Hok Hnxt Hfuel)
    as (n & Hrun & Hr).
  exists n. rewrite !set_pos_set_pos in *. auto.
Qed.

Lemma rest_app st x l1 l2 :
  rest_is st ((x :: l1) ++ l2) -> rest_is st (x :: l1 ++ l2).
Proof. exact (fun H => H). Qed.

(** C7. [parseConnection] on the tokens
    [interface connect ( name , name ) ;], each name an identifier followed
    by any number of dot-and-identifier pairs: it stores a connection whose
    [source] is the texts of the identifiers of the first name joined by
    dots and whose [target] is those of the second, whatever the element
    map holds; the map is not consulted.  For the source text
    [interface connect (a.b, c.d);] in a package body and in the body of a
    part definition, the stored strings are ["a.b"] and ["c.d"]. *)
Theorem parseConnection_endpoints :
  (forall fuel parent st kI kC lp x1 segs1 comma x2 segs2 rp semi l,
      rest_is st (kI :: kC :: lp :: qualified x1 segs1
                  ++ comma :: qualified x2 segs2 ++ rp :: semi :: l) ->
      token_is KEYWORD (kw "interface") kI = true ->
      token_is KEYWORD (kw "connect") kC = true ->
      token_is LPAREN any lp = true ->
      qualified_ok x1 segs1 = true ->
      token_is COMMA any comma = true ->
      qualified_ok x2 segs2 = true ->
      token_is RPAREN any rp = true ->
      token_is SEMICOLON any semi = true ->
      length segs1 < fuel -> length segs2 < fuel ->
      exists st',
        parseConnection fuel parent st
        = Return (Some (elem_ (idCounter st + 1))) st'
        /\ rest_is st' l
        /\ els st'
           = JsMap.set (elem_ (idCounter st + 1))
               (Element.mk ElementType.connection
                  (dot_joined x1 segs1 ++ js "->" ++ dot_joined x2 segs2)
                  (elem_ (idCounter st + 1)) (Some parent) [] []
                  (ConnectionFields (dot_joined x1 segs1)
                     (dot_joined x2 segs2)))
               (els st))
  /\ (exists m st' e,
         parseSysML 50 (js "package P { interface connect (a.b, c.d); }")
         = Return m st'
         /\ ModelContext.getConnections (Some m) = [e]
         /\ Element.type e = ElementType.connection
         /\ Element.fields e = ConnectionFields (js "a.b") (js "c.d"))
  /\ (exists m st' e,
         parseSysML 70
           (js "package P { part def Q { interface connect (a.b, c.d); } }")
         = Return m st'
         /\ ModelContext.getConnections (Some m) = [e]
         /\ Element.type e = ElementType.connection
         /\ Element.fields e = ConnectionFields (js "a.b") (js "c.d")).
Proof.
  split; [|split].
  - intros fuel parent st kI kC lp x1 segs1 comma x2 segs2 rp semi l
      Hrest HkI HkC Hlp Hq1 Hcomma Hq2 Hrp Hsemi Hf1 Hf2.
    destruct st as [toks p m c]. unfold parseConnection.
    rewrite (bind_eq _ _ _ _ _ (expect_next _ _ _ _ _ Hrest HkI)).
    apply rest_advance in Hrest.
    rewrite (bind_eq _ _ _ _ _ (match_next_yes _ _ _ _ _ Hrest HkC)).
    apply rest_advance in Hrest. cbn [negb].
    rewrite (bind_eq _ _ _ _ _ (expect_next _ _ _ _ _ Hrest Hlp)).
    apply rest_advance in Hrest.
    destruct (parseQualifiedName_run fuel _ x1 segs1 comma _ Hrest Hq1
                (token_is_other COMMA any DOT any _ Hcomma ltac:(discriminate)) Hf1)
      as (n1 & Hrun1 & Hr1).
    rewrite (bind_eq _ _ _ _ _ Hrun1).
    rewrite (bind_eq _ _ _ _ _ (expect_next _ _ _ _ _ Hr1 Hcomma)).
    apply rest_advance in Hr1.
    destruct (parseQualifiedName_run fuel _ x2 segs2 rp _ Hr1 Hq2
                (token_is_other RPAREN any DOT any _ Hrp ltac:(discriminate)) Hf2)
      as (n2 & Hrun2 & Hr2).
    rewrite (bind_eq _ _ _ _ _ Hrun2).
    rewrite (bind_eq _ _ _ _ _ (expect_next _ _ _ _ _ Hr2 Hrp)).
    apply rest_advance in Hr2.
    rewrite (bind_eq _ _ _ _ _ (match_next_yes _ _ _ _ _ Hr2 Hsemi)).
    apply rest_advance in Hr2.
    eexists. split; [reflexivity|]. split; [exact Hr2 | reflexivity].
  - eexists _, _, _. split; [vm_compute; reflexivity|].
    vm_compute. repeat split.
  - eexists _, _, _. split; [vm_compute; reflexivity|].
    vm_compute. repeat split.
Qed.

Lemma parseConnection_endpoints_witness :
  exists st',
    parseConnection 2 (js "elem_1")
      (mk [keyword "interface"; keyword "connect"; punct LPAREN;
           ident (js "a"); punct DOT; ident (js "b"); punct COMMA;
           ident (js "c"); punct DOT; ident (js "d"); punct RPAREN;
           punct SEMICOLON; punct RBRACE] 0 (mkModel JsMap.empty None) 1)
    = Return (Some (js "elem_2")) st'
    /\ rest_is st' [punct RBRACE]
    /\ els st'
       = [(js "elem_2",
           Element.mk ElementType.connection (js "a.b->c.d") (js "elem_2")
             (Some (js "elem_1")) [] []
             (ConnectionFields (js "a.b") (js "c.d")))].
Proof.
  apply (proj1 parseConnection_endpoints 2 (js "elem_1")
           (mk [keyword "interface"; keyword "connect"; punct LPAREN;
                ident (js "a"); punct DOT; ident (js "b"); punct COMMA;
                ident (js "c"); punct DOT; ident (js "d"); punct RPAREN;
                punct SEMICOLON; punct RBRACE] 0 (mkModel JsMap.empty None) 1)
           (keyword "interface") (keyword "connect") (punct LPAREN)
           (ident (js "a")) [(punct DOT, ident (js "b"))] (punct COMMA)
           (ident (js "c")) [(punct DOT, ident (js "d"))] (punct RPAREN)
           (punct SEMICOLON) [punct RBRACE]);
    first [reflexivity | simpl; lia].
Defined.

End Connections.

(* ================================================================== *)
(** * The parser: the other loops end *)

Section Termination.
Import Parser.

Lemma bind_assoc {A B C} (m : P A) (k1 : A -> P B) (k2 : B -> P C) s :
  bind (bind m k1) k2 s = bind m (fun a => bind (k1 a) k2) s.
Proof. unfold bind. destruct (m s); reflexivity. Qed.

Lemma safe_bind {A B} (Q : B -> State -> Prop) (m : P A) (k : A -> P B) s :
  safe (fun a s1 => safe Q (k a s1)) (m s) -> safe Q (bind m k s).
Proof. unfold bind. destruct (m s); simpl; auto. Qed.

Lemma safe_mono {A} (Q Q' : A -> State -> Prop) (o : Outcome Exn State A) :
  (forall a s, Q a s -> Q' a s) -> safe Q o -> safe Q' o.
Proof. intros H. destruct o; simpl; auto. Qed.

Lemma current_past_end st :
  length (tokens st) <= pos st -> Token.type (current st) = EOF.
Proof. intros H. unfold current. rewrite nth_overflow by exact H. reflexivity. Qed.

Lemma check_in_range type value st :
  type <> EOF -> check type value st = true -> pos st < length (tokens st).
Proof.
  intros Hne Hc. destruct (Nat.lt_ge_cases (pos st) (length (tokens st)))
    as [H|H]; [exact H|].
  apply current_past_end in H. apply token_is_type in Hc. congruence.
Qed.

Lemma inBody_in_range st : inBody st = true -> pos st < length (tokens st).
Proof.
  unfold inBody. intros H. apply andb_prop in H. destruct H as [_ H].
  apply negb_true_iff in H.
  destruct (Nat.lt_ge_cases (pos st) (length (tokens st))) as [Hlt|Hge];
    [exact Hlt|].
  apply current_past_end in Hge. unfold check, token_is in H.
  rewrite Hge in H. discriminate.
Qed.

Lemma inStatement_in_range st :
  inStatement st = true -> pos st < length (tokens st).
Proof.
  unfold inStatement. intros H. apply andb_prop in H. destruct H as [_ H].
  apply negb_true_iff in H.
  destruct (Nat.lt_ge_cases (pos st) (length (tokens st))) as [Hlt|Hge];
    [exact Hlt|].
  apply current_past_end in Hge. unfold check, token_is in H.
  rewrite Hge in H. discriminate.
Qed.

(** A loop whose condition holds only inside the tokens and whose body
    moves the cursor forward ends, with fuel above the number of tokens. *)
Lemma safe_while {A} toks cond (body : A -> P A) :
  (forall s, tokens s = toks -> cond s = true -> pos s < length toks) ->
  (forall a s, tokens s = toks -> cond s = true ->
               safe (fun _ s' => tokens s' = toks /\ pos s < pos s') (body a s)) ->
  forall fuel a st,
    tokens st = toks -> length toks - pos st < fuel ->
    safe (fun _ s' => tokens s' = toks /\ pos st <= pos s')
      (while fuel cond body a st).
Proof.
  intros Hcond Hbody. induction fuel as [|fuel IH]; intros a st Ht Hfuel; [lia|].
  rewrite while_S. destruct (cond st) eqn:Hc; [|simpl; auto].
  apply safe_bind. eapply safe_mono; [|apply Hbody; assumption].
  intros a1 s1 [Ht1 Hlt]. simpl.
  eapply safe_mono; [|apply IH; [exact Ht1|]].
  - intros a2 s2 [Ht2 Hle]. split; [exact Ht2 | lia].
  - specialize (Hcond st Ht Hc). lia.
Qed.

(** The primitive operations return or throw, and move the cursor by at
    most one token. *)
Lemma safe_expect type value st :
  safe (fun _ s' => tokens s' = tokens st /\ pos s' = pos st + 1)
    (expect type value st).
Proof.
  unfold expect, bind, this, gets, throw, advance.
  destruct (check type value st); simpl; auto.
Qed.

Lemma safe_match type value st :
  safe (fun b s' => tokens s' = tokens st /\ pos st <= pos s'
                    /\ (b = true -> check type value st = true))
    (match_ type value st).
Proof.
  rewrite match_eq. destruct (check type value st); simpl;
    repeat split; auto; try lia; try discriminate.
Qed.

Lemma safe_advance st :
  safe (fun _ s' => tokens s' = tokens st /\ pos s' = pos st + 1) (advance st).
Proof. simpl. auto. Qed.

Lemma safe_this st :
  safe (fun s0 s' => s0 = st /\ s' = st) (this st).
Proof. simpl. auto. Qed.

Lemma safe_generateId st :
  safe (fun _ s' => tokens s' = tokens st /\ pos s' = pos st) (generateId st).
Proof. simpl. auto. Qed.

Lemma safe_setElement id e st :
  safe (fun _ s' => tokens s' = tokens st /\ pos s' = pos st)
    (setElement id e st).
Proof. simpl. auto. Qed.

Lemma safe_setRootPackage id st :
  safe (fun _ s' => tokens s' = tokens st /\ pos s' = pos st)
    (setRootPackage id st).
Proof. simpl. auto. Qed.

Lemma safe_pushChild p c st :
  safe (fun _ s' => tokens s' = tokens st /\ pos s' = pos st)
    (pushChild p c st).
Proof.
  unfold pushChild, bind, this, gets.
  destruct (JsMap.get p (elements (model st))); simpl; auto.
Qed.

Lemma safe_ret {A} (a : A) (st : State) :
  safe (fun _ s' => tokens s' = tokens st /\ pos s' = pos st)
    (ret (E := Exn) a st).
Proof. simpl. auto. Qed.

Create HintDb safedb.
Hint Resolve safe_expect safe_match safe_advance safe_this safe_generateId
  safe_setElement safe_setRootPackage safe_pushChild safe_ret : safedb.
Hint Extern 1 (_ = _) => congruence : safedb.

(** Facts on the cursor that the steps so far have established. *)
Ltac cursor :=
  cbn [tokens pos set_model set_pos] in *;
  repeat match goal with
         | H : _ /\ _ |- _ => destruct H
         end;
  repeat match goal with |- _ /\ _ => split end;
  first [congruence | lia | auto].

Ltac in_tokens :=
  let s := fresh "s" in
  let Hs := fresh "Hs" in
  let Hc := fresh "Hc" in
  intros s Hs Hc; rewrite <- Hs;
  first [ apply inBody_in_range; exact Hc
        | apply inStatement_in_range; exact Hc ].

(** One step of a production: runs its first operation, which returns or
    throws, then goes on with the rest. *)
Ltac safe_step toks :=
  cbv beta zeta; cbn [tokens pos set_model set_pos] in *;
  repeat match goal with
         | H : _ /\ _ |- _ => destruct H
         end;
  lazymatch goal with
  | |- safe ?Q (bind this ?k ?s) => change (safe Q (k s s))
  | |- safe _ (bind (if ?b then _ else _) _ _) => destruct b eqn:?
  | |- safe _ (bind (bind _ _) _ _) => rewrite bind_assoc
  | |- safe _ (bind (whenId ?r _ _) _ _) =>
      unfold whenId; destruct r as [?|]; [destruct (truthy _)|]
  | |- safe _ (whenId ?r _ _ _) =>
      unfold whenId; destruct r as [?|]; [destruct (truthy _)|]
  | |- safe _ (bind (while _ _ _ _) _ _) =>
      apply safe_bind; eapply safe_mono; cycle 1;
      [ apply (safe_while toks);
        [ in_tokens | intros ? ? ? ? | cursor | cursor ]
      | cbv beta; intros ? ? ? ]
  | |- safe _ (while _ _ _ _ _) =>
      eapply safe_mono; cycle 1;
      [ apply (safe_while toks);
        [ in_tokens | intros ? ? ? ? | cursor | cursor ]
      | cbv beta; intros ? ? ? ]
  | |- safe _ (bind _ _ _) =>
      apply safe_bind; eapply safe_mono; cycle 1;
      [ solve [eauto 3 with safedb nocore]
      | cbv beta; intros ? ? ? ]
  | |- safe _ ((if ?b then _ else _) _) => destruct b eqn:?
  | |- safe _ ((let '(_, _) := ?x in _) _) => destruct x
  | |- safe _ (ret _ _) => simpl; cursor
  | |- safe _ (_ _) =>
      eapply safe_mono; cycle 1;
      [ solve [eauto 3 with safedb nocore] | cbv beta; intros ? ? ?; cursor ]
  | |- _ => cursor
  end.

Section NoAction.
Variable fuel : nat.
Variable toks : list Token.t.
Hypothesis Hfuel : length toks < fuel.
Hypothesis Hno : no_action toks.

Lemma check_action st :
  tokens st = toks -> check KEYWORD (kw "action") st = false.
Proof.
  intros Ht. unfold check, current.
  destruct (Nat.lt_ge_cases (pos st) (length (tokens st))) as [Hlt|Hge].
  - apply Hno. rewrite <- Ht. apply nth_In, Hlt.
  - rewrite nth_overflow by exact Hge. reflexivity.
Qed.

Lemma parsePort_safe parent st :
  tokens st = toks ->
  safe (fun _ s' => tokens s' = toks /\ pos st + 1 <= pos s') (parsePort parent st).
Proof. intros Ht. unfold parsePort. repeat safe_step toks. Qed.

Lemma parsePart_safe parent st :
  tokens st = toks ->
  safe (fun _ s' => tokens s' = toks /\ pos st + 1 <= pos s') (parsePart parent st).
Proof. intros Ht. unfold parsePart. repeat safe_step toks. Qed.

Lemma parseItemDef_safe parent st :
  tokens st = toks ->
  safe (fun _ s' => tokens s' = toks /\ pos st + 1 <= pos s')
    (parseItemDef fuel parent st).
Proof. intros Ht. unfold parseItemDef. repeat safe_step toks. Qed.

Lemma parsePortDef_safe parent st :
  tokens st = toks ->
  safe (fun _ s' => tokens s' = toks /\ pos st + 1 <= pos s')
    (parsePortDef fuel parent st).
Proof. intros Ht. unfold parsePortDef. repeat safe_step toks. Qed.

Lemma parseRequirementDef_safe parent st :
  tokens st = toks ->
  safe (fun _ s' => tokens s' = toks /\ pos st + 1 <= pos s')
    (parseRequirementDef fuel parent st).
Proof. intros Ht. unfold parseRequirementDef. repeat safe_step toks. Qed.

(** Under [no_action] the branch after [match('KEYWORD', 'action')] is not
    taken. *)
Ltac no_action_branch :=
  exfalso;
  repeat match goal with
         | H : _ /\ _ |- _ => destruct H
         end;
  match goal with
  | H : true = true -> check KEYWORD (kw "action") ?s = true |- _ =>
      rewrite check_action in H by cursor; specialize (H eq_refl);
      discriminate H
  end.

Lemma parseState_safe parent st :
  tokens st = toks ->
  safe (fun _ s' => tokens s' = toks /\ pos st + 1 <= pos s')
    (parseState fuel parent st).
Proof.
  intros Ht. unfold parseState.
  repeat first [safe_step toks | no_action_branch].
Qed.

Lemma parseTransition_safe parent st :
  tokens st = toks ->
  safe (fun _ s' => tokens s' = toks /\ pos st + 1 <= pos s')
    (parseTransition fuel parent st).
Proof.
  intros Ht. unfold parseTransition. repeat safe_step toks.
  all: unfold transitionClause; repeat safe_step toks.
Qed.

Lemma dotted_safe :
  forall n name st,
    tokens st = toks -> length toks - pos st < n ->
    safe (fun _ s' => tokens s' = toks /\ pos st <= pos s') (dotted n name st).
Proof.
  induction n as [|n IH]; intros name st Ht Hn; [lia|].
  simpl dotted. apply safe_bind. eapply safe_mono; [|apply safe_match].
  cbv beta. intros b s1 (Ht1 & Hle & Hb). destruct b.
  - specialize (Hb eq_refl). apply check_in_range in Hb; [|discriminate].
    apply safe_bind. eapply safe_mono; [|apply safe_expect].
    cbv beta. intros x s2 (Ht2 & Hp2).
    eapply safe_mono; [|apply IH].
    + intros a s3 [Ht3 Hle3]. split; [exact Ht3 | lia].
    + congruence.
    + rewrite <- Ht in *. lia.
  - simpl. split; [congruence | lia].
Qed.

Lemma parseQualifiedName_safe st :
  tokens st = toks ->
  safe (fun _ s' => tokens s' = toks /\ pos st + 1 <= pos s')
    (parseQualifiedName fuel st).
Proof.
  intros Ht. unfold parseQualifiedName.
  apply safe_bind. eapply safe_mono; [|apply safe_expect].
  cbv beta. intros x s1 (Ht1 & Hp1).
  eapply safe_mono; [|apply dotted_safe].
  - intros a s2 [Ht2 Hle2]. split; [exact Ht2 | lia].
  - congruence.
  - lia.
Qed.

Hint Resolve parsePort_safe parsePart_safe parseItemDef_safe parsePortDef_safe
  parseRequirementDef_safe parseState_safe parseTransition_safe
  parseQualifiedName_safe : safedb.

Lemma parseConnection_safe parent st :
  tokens st = toks ->
  safe (fun _ s' => tokens s' = toks /\ pos st + 1 <= pos s')
    (parseConnection fuel parent st).
Proof. intros Ht. unfold parseConnection. repeat safe_step toks. Qed.

Lemma parseBind_safe parent st :
  tokens st = toks ->
  safe (fun _ s' => tokens s' = toks /\ pos st + 1 <= pos s')
    (parseBind fuel parent st).
Proof. intros Ht. unfold parseBind. repeat safe_step toks. Qed.

Hint Resolve parseConnection_safe parseBind_safe : safedb.

Lemma parseStateDef_safe parent st :
  tokens st = toks ->
  safe (fun _ s' => tokens s' = toks /\ pos st + 1 <= pos s')
    (parseStateDef fuel parent st).
Proof.
  intros Ht. unfold parseStateDef, parseStateDefBody. repeat safe_step toks.
Qed.

Hint Resolve parseStateDef_safe : safedb.

Lemma parsePartDef_safe parent st :
  tokens st = toks ->
  safe (fun _ s' => tokens s' = toks /\ pos st + 1 <= pos s')
    (parsePartDef fuel parent st).
Proof.
  intros Ht. unfold parsePartDef, parsePartDefBody. repeat safe_step toks.
Qed.

Hint Resolve parsePartDef_safe : safedb.

Lemma parsePackage_safe parent st :
  tokens st = toks ->
  safe (fun _ s' => tokens s' = toks /\ pos st + 1 <= pos s')
    (parsePackage fuel parent st).
Proof.
  intros Ht. unfold parsePackage, parsePackageBody. repeat safe_step toks.
Qed.

End NoAction.

Lemma filter_length {A} (f : A -> bool) (l : list A) :
  length (filter f l) <= length l.
Proof.
  induction l as [|a l IH]; simpl; [lia|]. destruct (f a); simpl; lia.
Qed.

(** X13.  The loop that skips an action body is the only one that can run for
    ever: on a source none of whose tokens is the keyword [action],
    [parse] returns a model or throws, with fuel above the length of the
    source plus one. *)
Theorem parse_terminates_without_action fuel source p :
  length source + 1 < fuel ->
  (forall toks, Lexer.tokenize fuel source = Some toks -> no_action toks) ->
  safe (fun _ _ => True) (parse fuel source p).
Proof.
  intros Hfuel Hno.
  destruct (tokenize_total fuel source) as (toks & eof & Ht & _ & _ & Hn);
    [lia|].
  specialize (Hno _ Ht). unfold parse. rewrite Ht.
  set (toks' := filter notComment (toks ++ [eof])).
  assert (Hlen : length toks' < fuel).
  { pose proof (filter_length notComment (toks ++ [eof])) as Hf.
    rewrite length_app in Hf. simpl in Hf. unfold toks'. lia. }
  assert (Hno' : no_action toks').
  { intros t Hin. apply Hno. apply filter_In in Hin. tauto. }
  unfold bind at 1 2 3 4 5, modify, this, gets.
  cbn [set_pos set_model tokens pos model idCounter].
  set (st := mk toks' 0 _ 0).
  destruct (check KEYWORD (kw "package") st); unfold bind.
  - pose proof (parsePackage_safe fuel toks' Hlen Hno' None st eq_refl) as Hp.
    destruct (parsePackage fuel None st) as [[] s'| |]; simpl in *; auto.
  - simpl. exact I.
Qed.

Lemma parse_terminates_without_action_witness :
  safe (fun _ _ => True)
    (Parser.parse 60 (js "package P { state def S { state A; } }")
       Parser.new).
Proof.
  apply parse_terminates_without_action.
  - vm_compute. lia.
  - intros toks H. vm_compute in H. inversion H; subst toks.
    intros t Hin. simpl in Hin.
    repeat (destruct Hin as [<-|Hin]; [reflexivity|]). destruct Hin.
Defined.

End Termination.

(* ================================================================== *)
(** * The shape of the element graph: proofs *)

Section ShapeFacts.
Implicit Types (m : JsMap.t Element.t) (e : Element.t).

Lemma keeps_types_has_type m m' T k :
  keeps_types m m' -> JsMap.get k m <> None ->
  has_type m' T k = has_type m T k.
Proof.
  intros Hk Hin. unfold has_type.
  destruct (JsMap.get k m) as [e|] eqn:He; [|congruence].
  destruct (Hk k e He) as (e' & -> & ->). reflexivity.
Qed.

Lemma keeps_types_elem_shape m m' e :
  keeps_types m m' -> elem_shape m e -> elem_shape m' e.
Proof.
  intros Hk (Hf & Hc & Hl & Hn).
  assert (Hof : forall T, of_type m' T (Element.children e)
                          = of_type m T (Element.children e)).
  { intros T. apply filter_ext_in. intros ch Hin.
    apply keeps_types_has_type; [exact Hk|].
    destruct (Hc ch Hin) as (ce & -> & _). discriminate. }
  repeat split; auto.
  - intros ch Hin. destruct (Hc ch Hin) as (ce & Hce & Hal).
    destruct (Hk ch ce Hce) as (ce' & Hce' & Ht). exists ce'.
    rewrite Ht. auto.
  - rewrite Hof. apply Hl; assumption.
  - rewrite Hof. apply Hl; assumption.
  - rewrite Hof. apply Hl; assumption.
  - rewrite Hof. apply Hl; assumption.
Qed.

Lemma keeps_types_set_new m id e :
  JsMap.get id m = None -> keeps_types m (JsMap.set id e m).
Proof.
  intros Hnone k e0 Hk. exists e0. split; [|reflexivity].
  rewrite get_set_other; [exact Hk|]. intros ->. congruence.
Qed.

Lemma keeps_types_set_old m p pe pe' :
  JsMap.get p m = Some pe -> Element.type pe' = Element.type pe ->
  keeps_types m (JsMap.set p pe' m).
Proof.
  intros Hp Ht k e0 Hk. destruct (list_eq_dec N.eq_dec k p) as [->|Hne].
  - exists pe'. rewrite get_set_same. split; [reflexivity|]. congruence.
  - exists e0. rewrite get_set_other by exact Hne. auto.
Qed.

Lemma Shape_weaken r m (P Q : jsstring -> jsstring -> Prop) :
  (forall p k, P p k -> Q p k) -> Shape r m P -> Shape r m Q.
Proof.
  intros HPQ [He Hr Hc]. split; auto.
  intros k e p Hk Hp. destruct (Hc k e p Hk Hp); auto.
Qed.

(** Storing a finished element under its own id, which is not a key yet:
    the children that were waiting for it are listed now. *)
Lemma Shape_node r m P id e parent :
  Shape r m (fun p k => P p k \/ (p = id /\ In k (Element.children e))) ->
  JsMap.get id m = None ->
  ElementType.eqb (Element.type e) ElementType.package = false ->
  Element.parent e = Some parent ->
  elem_shape m e ->
  Shape r (JsMap.set id e m) (fun p k => P p k \/ (p = parent /\ k = id)).
Proof.
  intros [He Hr Hc] Hnone Hty Hpar Hes.
  pose proof (keeps_types_set_new m id e Hnone) as Hk.
  split.
  - intros k e0 Hg. destruct (list_eq_dec N.eq_dec k id) as [->|Hne].
    + rewrite get_set_same in Hg. inversion Hg; subst.
      eapply keeps_types_elem_shape; eassumption.
    + rewrite get_set_other in Hg by exact Hne.
      eapply keeps_types_elem_shape; [exact Hk | eapply He, Hg].
  - intros k e0 Hg H0. destruct (list_eq_dec N.eq_dec k id) as [->|Hne].
    + rewrite get_set_same in Hg. inversion Hg; subst.
      destruct H0 as [H0|H0]; [|congruence].
      rewrite H0 in Hty. discriminate.
    + rewrite get_set_other in Hg by exact Hne. eapply Hr; eassumption.
  - intros k e0 p Hg Hp. destruct (list_eq_dec N.eq_dec k id) as [->|Hne].
    + rewrite get_set_same in Hg. inversion Hg; subst.
      right. right. split; [congruence | reflexivity].
    + rewrite get_set_other in Hg by exact Hne.
      destruct (Hc k e0 p Hg Hp) as [(pe & Hpe & Hin)|[HP|[-> Hin]]].
      * left. exists pe. split; [|exact Hin].
        rewrite get_set_other; [exact Hpe|]. intros ->. congruence.
      * right. left. exact HP.
      * left. exists e. split; [apply get_set_same | exact Hin].
Qed.

(** Appending to the children of [pe], which is in the map under [p], the
    child [ch] that was waiting for it. *)
Lemma Shape_push r m P p pe ch ce :
  Shape r m (fun q k => P q k \/ (q = p /\ k = ch)) ->
  JsMap.get p m = Some pe ->
  Element.type pe = ElementType.package ->
  JsMap.get ch m = Some ce ->
  allowed ElementType.package (Element.type ce) = true ->
  ~ In ch (Element.children pe) ->
  Shape r
    (JsMap.set p (Element.with_children (Element.children pe ++ [ch]) pe) m)
    P.
Proof.
  intros [He Hr Hc] Hp Hty Hch Hal Hnin.
  set (pe' := Element.with_children (Element.children pe ++ [ch]) pe).
  assert (Hk : keeps_types m (JsMap.set p pe' m))
    by (eapply keeps_types_set_old; [exact Hp | reflexivity]).
  assert (Hlisted : forall q k, listed m q k -> listed (JsMap.set p pe' m) q k).
  { intros q k (qe & Hq & Hin). destruct (list_eq_dec N.eq_dec q p) as [->|Hne].
    - exists pe'. rewrite get_set_same. split; [reflexivity|].
      rewrite Hp in Hq. inversion Hq; subst. simpl.
      apply in_or_app. auto.
    - exists qe. rewrite get_set_other by exact Hne. auto. }
  assert (Hnew : listed (JsMap.set p pe' m) p ch).
  { exists pe'. rewrite get_set_same. split; [reflexivity|]. simpl.
    apply in_or_app. right. left. reflexivity. }
  split.
  - intros k e0 Hg. destruct (list_eq_dec N.eq_dec k p) as [->|Hne].
    + rewrite get_set_same in Hg. inversion Hg; subst e0. clear Hg.
      destruct (He p pe Hp) as (Hf & Htc & Hl & Hnd).
      eapply keeps_types_elem_shape; [exact Hk|].
      split; [exact Hf | split; [|split]].
      * intros x Hin. simpl in Hin. apply in_app_or in Hin.
        destruct Hin as [Hin|[<-|[]]]; [apply Htc, Hin|].
        exists ce. simpl. rewrite Hty. auto.
      * split; simpl; rewrite Hty; discriminate.
      * simpl. apply NoDup_app; [exact Hnd | repeat constructor; intros [] |].
        intros x Hx [<-|[]]. contradiction.
    + rewrite get_set_other in Hg by exact Hne.
      eapply keeps_types_elem_shape; [exact Hk | eapply He, Hg].
  - intros k e0 Hg H0. destruct (list_eq_dec N.eq_dec k p) as [->|Hne].
    + rewrite get_set_same in Hg. inversion Hg; subst e0.
      eapply Hr; [exact Hp | exact H0].
    + rewrite get_set_other in Hg by exact Hne. eapply Hr; eassumption.
  - intros k e0 q Hg Hq.
    assert (Hold : exists e1, JsMap.get k m = Some e1
                              /\ Element.parent e1 = Some q).
    { destruct (list_eq_dec N.eq_dec k p) as [->|Hne].
      - rewrite get_set_same in Hg. inversion Hg; subst e0. eauto.
      - rewrite get_set_other in Hg by exact Hne. eauto. }
    destruct Hold as (e1 & He1 & Hq1).
    destruct (Hc k e1 q He1 Hq1) as [H|[H|[-> ->]]]; auto.
Qed.

Lemma filled_trans c1 m c2 m' c3 :
  filled c1 m c2 -> filled c2 m' c3 ->
  (forall k, JsMap.get k m <> None -> JsMap.get k m' <> None) ->
  filled c1 m' c3.
Proof.
  intros H1 H2 Hk n Hn. destruct (Nat.le_gt_cases n c2).
  - apply Hk, H1. lia.
  - apply H2. lia.
Qed.

Lemma fresh_elem_shape m T parent e : fresh_elem T parent e -> elem_shape m e.
Proof.
  intros (Ht & _ & _ & Hch & Hf & Hpo & Hpa & Hs & Htr).
  unfold elem_shape, typed_children, lists_exact.
  rewrite Hch, Ht, Hpo, Hpa, Hs, Htr. repeat split; auto.
  - intros ch [].
  - constructor.
Qed.

End ShapeFacts.

Section ParserShape.
Import Parser.

Lemma get_set_mono {V} (k k' : jsstring) (v : V) m :
  JsMap.get k m <> None -> JsMap.get k (JsMap.set k' v m) <> None.
Proof.
  intros H. destruct (list_eq_dec N.eq_dec k k') as [->|Hne].
  - rewrite get_set_same. discriminate.
  - rewrite get_set_other by exact Hne. exact H.
Qed.

(** Storing the element [e], whose body was parsed up to [s]. *)
Lemma make_node r P T parent st s st' id e :
  Inv (els st) (idCounter st) ->
  id = elem_ (idCounter st + 1) ->
  filling r P id T parent e (els s) ->
  filled (idCounter st + 1) (els s) (idCounter s) ->
  idCounter st + 1 <= idCounter s ->
  els st' = JsMap.set id e (els s) -> idCounter st' = idCounter s ->
  rootPackage (model st') = rootPackage (model st) ->
  makes r P T parent st id st'.
Proof.
  intros HI -> (HS & Hnone & Ht & HT & Hpar & Hes) Hfl Hle Hels Hc Hroot.
  unfold makes. rewrite Hels, Hc. split; [|split; [|split; [|split]]];
    [ | | | | exact Hroot].
  - apply Shape_node; auto. rewrite Ht. exact HT.
  - eapply Inv_fresh; [exact HI | lia].
  - exists e. split; [apply get_set_same | exact Ht].
  - intros n Hn. destruct (Nat.eq_dec n (idCounter st + 1)) as [->|Hne].
    + rewrite get_set_same. discriminate.
    + apply get_set_mono, Hfl. lia.
Qed.

(** Storing a new element without children. *)
Lemma make_leaf r P T parent st s st' id e :
  Inv (els st) (idCounter st) -> Shape r (els st) P ->
  id = elem_ (idCounter st + 1) ->
  els s = els st -> idCounter s = idCounter st + 1 ->
  els st' = JsMap.set id e (els s) -> idCounter st' = idCounter s ->
  rootPackage (model st') = rootPackage (model st) ->
  fresh_elem T parent e ->
  makes r P T parent st id st'.
Proof.
  intros HI HS Hid Hels Hc Hels' Hc' Hroot Hfr.
  apply make_node with (s := s) (e := e); auto; [| | lia].
  - unfold filling. rewrite Hels.
    pose proof Hfr as (Ht & HT & Hpar & Hch & _).
    repeat match goal with |- _ /\ _ => split end; auto.
    + eapply Shape_weaken; [|exact HS]. auto.
    + subst id. eapply Inv_fresh; [exact HI | lia].
    + eapply fresh_elem_shape, Hfr.
  - intros n Hn. rewrite Hc in Hn. lia.
Qed.


(** Updates of an object under construction that keep it fresh. *)
Lemma fresh_push_items T parent i e :
  fresh_elem T parent e -> fresh_elem T parent (push_items i e).
Proof.
  unfold fresh_elem, push_items. destruct e as [? ? ? ? ? ? []]; simpl; auto.
Qed.

Lemma fresh_set_reqId T parent v e :
  fresh_elem T parent e -> fresh_elem T parent (set_reqId v e).
Proof.
  unfold fresh_elem, set_reqId. destruct e as [? ? ? ? ? ? []]; simpl; auto.
Qed.

Lemma fresh_set_text T parent v e :
  fresh_elem T parent e -> fresh_elem T parent (set_text v e).
Proof.
  unfold fresh_elem, set_text. destruct e as [? ? ? ? ? ? []]; simpl; auto.
Qed.

Lemma fresh_set_entryAction T parent v e :
  fresh_elem T parent e -> fresh_elem T parent (set_entryAction v e).
Proof.
  unfold fresh_elem, set_entryAction.
  destruct e as [? ? ? ? ? ? []]; simpl; auto.
Qed.

Hint Resolve fresh_push_items fresh_set_reqId fresh_set_text
  fresh_set_entryAction : core.

(** Loops that move only the cursor, and qualified names. *)
Ltac cursor_loops :=
  repeat match goal with
         | H : while _ _ (fun _ : unit => _) _ _ = Return _ _ |- _ =>
             apply (while_frame (fun _ : unit => True)) in H;
             [ destruct H as [H _]
             | intros ? ? ? ? _ ?; exec; (split; [frames | exact I])
             | exact I ]
         | H : parseQualifiedName _ _ = Return _ _ |- _ =>
             apply parseQualifiedName_frame in H
         end.

(** A new element without children: the facts [exec] collected give the
    hypotheses of [make_leaf]. *)
Ltac fresh_leaf :=
  match goal with
  | H : els ?s1 = JsMap.set _ _ (els ?s0) |- makes _ _ _ _ _ _ ?s1 =>
      eapply make_leaf with (s := s0);
      [ eassumption | eassumption | frames | frames | frames | eassumption
      | frames | frames | first [ eassumption | repeat split ] ]
  end.

Lemma parsePort_makes parent st id st' r P :
  parsePort parent st = Return id st' ->
  Inv (els st) (idCounter st) -> Shape r (els st) P ->
  makes r P ElementType.port parent st id st'.
Proof. unfold parsePort. intros H HI HS. exec; fresh_leaf. Qed.

Lemma parsePart_makes parent st id st' r P :
  parsePart parent st = Return id st' ->
  Inv (els st) (idCounter st) -> Shape r (els st) P ->
  makes r P ElementType.part parent st id st'.
Proof. unfold parsePart. intros H HI HS. exec; fresh_leaf. Qed.

Lemma parseItemDef_makes fuel parent st id st' r P :
  parseItemDef fuel parent st = Return id st' ->
  Inv (els st) (idCounter st) -> Shape r (els st) P ->
  makes r P ElementType.item_def parent st id st'.
Proof.
  unfold parseItemDef. intros H HI HS. exec; cursor_loops; exec; fresh_leaf.
Qed.

(** Replaces a loop that moves only the cursor and keeps its object fresh
    by these two facts. *)
Ltac fresh_loop T parent :=
  match goal with
  | H : while _ _ _ _ _ = Return _ _ |- _ =>
      apply (while_frame (fresh_elem T parent)) in H;
      [ destruct H
      | let HJ := fresh "HJ" in
        intros ? ? ? ? HJ ?; exec; cursor_loops; exec;
        (split; [frames | auto])
      | repeat split ]
  end.

Lemma parsePortDef_makes fuel parent st id st' r P :
  parsePortDef fuel parent st = Return id st' ->
  Inv (els st) (idCounter st) -> Shape r (els st) P ->
  makes r P ElementType.port_def parent st id st'.
Proof.
  unfold parsePortDef. intros H HI HS. exec.
  - fresh_loop ElementType.port_def parent. exec. fresh_leaf.
  - fresh_leaf.
Qed.

Lemma parseRequirementDef_makes fuel parent st id st' r P :
  parseRequirementDef fuel parent st = Return id st' ->
  Inv (els st) (idCounter st) -> Shape r (els st) P ->
  makes r P ElementType.requirement_def parent st id st'.
Proof.
  unfold parseRequirementDef. intros H HI HS. exec.
  - fresh_loop ElementType.requirement_def parent. exec. fresh_leaf.
  - fresh_leaf.
Qed.

Lemma parseState_makes fuel parent st id st' r P :
  parseState fuel parent st = Return id st' ->
  Inv (els st) (idCounter st) -> Shape r (els st) P ->
  makes r P ElementType.state parent st id st'.
Proof.
  unfold parseState. intros H HI HS. exec.
  - fresh_loop ElementType.state parent. exec. fresh_leaf.
  - fresh_leaf.
Qed.

Lemma parseTransition_makes fuel parent st id st' r P :
  parseTransition fuel parent st = Return id st' ->
  Inv (els st) (idCounter st) -> Shape r (els st) P ->
  makes r P ElementType.transition parent st id st'.
Proof.
  unfold parseTransition. intros H HI HS. exec.
  match goal with
  | H : while _ _ _ _ _ = Return _ _ |- _ =>
      apply (while_frame (fun _ => True)) in H;
      [ destruct H as [H _]
      | intros [[? ?] ?] ? ? ? _ ?; unfold transitionClause in *; exec;
      (split; [frames | exact I])
      | exact I ]
  end.
  fresh_leaf.
Qed.

Lemma parseConnection_makes fuel parent st r0 st' r P :
  parseConnection fuel parent st = Return r0 st' ->
  Inv (els st) (idCounter st) -> Shape r (els st) P ->
  match r0 with
  | Some id => makes r P ElementType.connection parent st id st'
  | None => frame st st'
  end.
Proof.
  unfold parseConnection. intros H HI HS.
  exec; cursor_loops; exec; first [fresh_leaf | frames].
Qed.

Lemma parseBind_makes fuel parent st id st' r P :
  parseBind fuel parent st = Return id st' ->
  Inv (els st) (idCounter st) -> Shape r (els st) P ->
  makes r P ElementType.bind parent st id st'.
Proof. unfold parseBind. intros H HI HS. exec. cursor_loops. fresh_leaf. Qed.

(** ** Productions with a body of child elements *)

Lemma Ext_keeps_types m c m' c' : Ext m c m' c' -> keeps_types m m'.
Proof.
  intros HE k e Hk. exists e. split; [apply (ext_old _ _ _ _ HE), Hk|].
  reflexivity.
Qed.

Lemma of_type_push m m1 T a ch ce :
  keeps_types m m1 -> typed_children m a ->
  JsMap.get ch m1 = Some ce ->
  of_type m1 T (Element.children a ++ [ch])
  = snoc_if (ElementType.eqb (Element.type ce) T)
      (of_type m T (Element.children a)) ch.
Proof.
  intros Hk Htc Hce. unfold of_type. rewrite filter_app. simpl.
  replace (filter (has_type m1 T) (Element.children a))
    with (filter (has_type m T) (Element.children a)).
  - unfold has_type at 2. rewrite Hce. unfold snoc_if.
    destruct (ElementType.eqb _ _); [reflexivity | apply app_nil_r].
  - apply filter_ext_in. intros x Hin. symmetry.
    apply keeps_types_has_type; [exact Hk|].
    destruct (Htc x Hin) as (xe & -> & _). discriminate.
Qed.

Lemma pushes_lists_in_order a ch Tc a' :
  pushes a ch Tc a' -> lists_in_order a -> lists_in_order a'.
Proof.
  intros (_ & _ & _ & Hch & _ & Hpo & Hpa & Hs & Ht) (H1 & H2 & H3 & H4).
  unfold lists_in_order. rewrite Hch, Hpo, Hpa, Hs, Ht. unfold snoc_if.
  repeat split;
    match goal with
    | |- context [if ?b then _ else _] => destruct b
    end;
    first [apply Subseq_keep; assumption | apply Subseq_skip; assumption].
Qed.

(** One iteration that pushes the child [ch] a production returned. *)
Lemma body_push r P pid T parent s0 e0 a s ch s1 a' Tc :
  body_inv r P pid T parent s0 e0 a s ->
  produces pid s ch s1 ->
  makes r (fun p k => P p k \/ (p = pid /\ In k (Element.children a)))
    Tc pid s ch s1 ->
  allowed T Tc = true ->
  pushes a ch Tc a' ->
  body_inv r P pid T parent s0 e0 a' s1.
Proof.
  intros (Hu & (HS & Hnone & Hty & HT & Hpar & Hf & Htc & Hl & Hnd)
          & Hfl & Hal & Hroot)
    Hp (HS1 & Hnew & (ce & Hce & Htce) & Hfl1 & Hroot1) Hallow Hpush.
  pose proof Hp as (HI1 & HE1 & _).
  pose proof Hu as (_ & HE & _).
  pose proof Hpush as (Hid' & Hpar' & Hty' & Hch' & Hf' & Hpo & Hpa & Hst & Htr).
  pose proof (Ext_keeps_types _ _ _ _ HE1) as Hk.
  unfold body_inv. split; [|split; [|split; [|split]]].
  - eapply under_push; [exact Hu | exact Hp | exact Hid' | exact Hpar'
                       | exact Hch' |].
    eapply pushes_lists_in_order; [exact Hpush | apply Hu].
  - unfold filling. split; [|split; [|split; [|split; [|split]]]];
      try congruence.
    + eapply Shape_weaken; [|exact HS1]. simpl. rewrite Hch'.
      intros p k [[H|[-> H]]|[-> ->]]; auto.
      * right. split; [reflexivity|]. apply in_or_app. auto.
      * right. split; [reflexivity|]. apply in_or_app. right. left.
        reflexivity.
    + destruct (JsMap.get pid (els s1)) eqn:Hg; [|reflexivity].
      destruct (ext_new _ _ _ _ HE1 pid) as [H|(n & Hn & Heq)];
        [congruence | congruence |].
      destruct Hal as (n0 & Hn0 & Heq0). rewrite Heq0 in Heq.
      apply elem_inj in Heq. pose proof (ext_counter _ _ _ _ HE). lia.
    + split; [|split; [|split]].
      * rewrite Hty', Hty. rewrite Hty in Hf'. exact Hf'.
      * intros x Hin. rewrite Hch' in Hin. rewrite Hty', Hty.
        apply in_app_or in Hin. destruct Hin as [Hin|[<-|[]]].
        -- destruct (Htc x Hin) as (xe & Hxe & Hax).
           destruct (Hk x xe Hxe) as (xe' & Hxe' & Hte).
           exists xe'. rewrite Hte, <- Hty. auto.
        -- exists ce. rewrite Htce. auto.
      * unfold lists_exact. rewrite Hty', Hch', Hpo, Hpa, Hst, Htr.
        rewrite !(of_type_push (els s) (els s1) _ a ch ce Hk Htc Hce).
        rewrite Htce. destruct Hl as [Hl1 Hl2].
        split; intros H0; [destruct (Hl1 H0) as [-> ->]
                          | destruct (Hl2 H0) as [-> ->]]; auto.
      * rewrite Hch'. apply NoDup_app;
          [exact Hnd | repeat constructor; intros [] |].
        intros x Hx [Heq|[]]. subst x.
        destruct (Htc ch Hx) as (xe & Hxe & _). congruence.
  - eapply filled_trans; [exact Hfl | exact Hfl1 |].
    intros k Hg. destruct (JsMap.get k (els s)) as [e|] eqn:He; [|congruence].
    rewrite (ext_old _ _ _ _ HE1 _ _ He). discriminate.
  - exact Hal.
  - congruence.
Qed.

(** One iteration that moves only the cursor. *)
Lemma body_frame r P pid T parent s0 e0 a s s1 :
  body_inv r P pid T parent s0 e0 a s -> frame s s1 ->
  body_inv r P pid T parent s0 e0 a s1.
Proof.
  intros (Hu & HF & Hfl & Hal & Hroot) Hf.
  pose proof (under_frame _ _ _ _ _ _ Hu Hf) as Hu1.
  unfold body_inv. replace (els s1) with (els s) by frames.
  replace (idCounter s1) with (idCounter s) by frames.
  replace (model s1) with (model s) by frames. auto.
Qed.

(** The body starts right after the id of the element was generated. *)
Lemma body_start r P T parent st sb e0 pid :
  Inv (els st) (idCounter st) -> Shape r (els st) P ->
  els sb = els st -> idCounter sb = idCounter st + 1 ->
  pid = elem_ (idCounter st + 1) ->
  fresh_elem T parent e0 ->
  body_inv r P pid T parent sb e0 e0 sb.
Proof.
  intros HI HS Hels Hc -> Hfr.
  pose proof Hfr as (Ht & HT & Hpar & Hch & _ & Hpo & Hpa & Hs & Htr).
  unfold body_inv. split; [|split; [|split; [|split]]].
  - apply under_start; [| exact Hch | apply lists_in_order_leaf; assumption].
    rewrite Hels, Hc. eapply Inv_le; [exact HI | lia].
  - unfold filling. rewrite Hels.
    repeat match goal with |- _ /\ _ => split end; auto.
    + eapply Shape_weaken; [|exact HS]. auto.
    + eapply Inv_fresh; [exact HI | lia].
    + eapply fresh_elem_shape, Hfr.
  - intros n Hn. lia.
  - exists (idCounter st + 1). split; [lia | reflexivity].
  - reflexivity.
Qed.

(** Storing the element whose body was parsed from [sb] to [se]. *)
Lemma make_body r P T parent st sb se se' st' id e0 e' :
  Inv (els st) (idCounter st) ->
  id = elem_ (idCounter st + 1) ->
  model sb = model st -> idCounter sb = idCounter st + 1 ->
  body_inv r P id T parent sb e0 e' se ->
  model se' = model se -> idCounter se' = idCounter se ->
  els st' = JsMap.set id e' (els se') -> idCounter st' = idCounter se' ->
  rootPackage (model st') = rootPackage (model se') ->
  makes r P T parent st id st'.
Proof.
  intros HI Hid Hm Hc (Hu & HF & Hfl & Hal & Hroot) Hm' Hc' Hset Hcset Hr.
  pose proof Hu as (_ & HE & _). pose proof (ext_counter _ _ _ _ HE).
  apply make_node with (s := se') (e := e'); auto.
  - unfold els. rewrite Hm'. exact HF.
  - unfold els. rewrite Hm', Hc', <- Hc. exact Hfl.
  - lia.
  - congruence.
Qed.

(** The object [a] after a push, from its type and fields. *)
Ltac pushes_goal Hb a :=
  let Hty := fresh "Hty" in
  let Hf := fresh "Hf" in
  pose proof Hb as (_ & (_ & _ & Hty & _ & _ & Hf & _) & _);
  destruct a as [? ? ? ? ? ? []]; simpl in Hty, Hf; subst;
  try discriminate Hf; repeat split.

(** One iteration that pushes the child a production returned;
    [produced] and [made] are the two lemmas on that production. *)
Ltac pushed_child produced made :=
  match goal with
  | Hb : body_inv _ _ _ _ _ _ _ ?a ?s, H : _ = Return ?ch ?s1
    |- body_inv _ _ _ _ _ _ _ _ ?s1 =>
      let H' := fresh "H" in
      pose proof H as H';
      apply produced in H'; [| apply Hb];
      eapply made in H; [| apply Hb | apply Hb];
      eapply body_push; [exact Hb | exact H' | exact H | reflexivity |];
      pushes_goal Hb a
  end.

Ltac moved_on :=
  match goal with
  | Hb : body_inv _ _ _ _ _ _ _ ?a ?s |- body_inv _ _ _ _ _ _ _ ?a _ =>
      eapply body_frame; [exact Hb | frames]
  end.

Lemma parseStateDefBody_body fuel pid e0 st e' st' r P parent :
  parseStateDefBody fuel pid e0 st = Return e' st' ->
  body_inv r P pid ElementType.state_def parent st e0 e0 st ->
  body_inv r P pid ElementType.state_def parent st e0 e' st'.
Proof.
  unfold parseStateDefBody. intros H Hb.
  apply (while_inv
           (fun a s => body_inv r P pid ElementType.state_def parent st e0 a s))
    in H; [destruct H as [H _]; exact H | | exact Hb].
  clear H Hb. intros a s a' s' Hb _ H. exec.
  - pushed_child parseState_produces parseState_makes.
  - pushed_child parseTransition_produces parseTransition_makes.
  - moved_on.
  - moved_on.
  - moved_on.
Qed.

(** A new element with a body: the facts [exec] collected give the
    hypotheses of [body_start] and [make_body]. *)
Ltac body_node body_lemma :=
  match goal with
  | Hb : _ = Return ?e1 ?s2,
    H : els ?s1 = JsMap.set _ ?e1 (els ?s0) |- makes _ _ _ _ ?st _ ?s1 =>
      eapply body_lemma in Hb;
      [ eapply make_body with (se := s2) (se' := s0);
        [ eassumption | frames | | | exact Hb | frames | frames
        | eassumption | frames | frames ];
        frames
      | eapply body_start with (st := st);
        [ eassumption | eassumption | frames | frames | frames
        | repeat split ] ]
  end.

Lemma parseStateDef_makes fuel parent st id st' r P :
  parseStateDef fuel parent st = Return id st' ->
  Inv (els st) (idCounter st) -> Shape r (els st) P ->
  makes r P ElementType.state_def parent st id st'.
Proof.
  unfold parseStateDef. intros H HI HS. exec.
  - body_node parseStateDefBody_body.
  - fresh_leaf.
Qed.

Lemma parsePartDefBody_body fuel pid e0 st e' st' r P parent :
  parsePartDefBody fuel pid e0 st = Return e' st' ->
  body_inv r P pid ElementType.part_def parent st e0 e0 st ->
  body_inv r P pid ElementType.part_def parent st e0 e' st'.
Proof.
  unfold parsePartDefBody. intros H Hb.
  apply (while_inv
           (fun a s => body_inv r P pid ElementType.part_def parent st e0 a s))
    in H; [destruct H as [H _]; exact H | | exact Hb].
  clear H Hb. intros a s a' s' Hb _ H. exec.
  - pushed_child parsePort_produces parsePort_makes.
  - pushed_child parsePart_produces parsePart_makes.
  - pushed_child parseStateDef_produces parseStateDef_makes.
  - match goal with
    | H : parseConnection _ _ _ = Return ?c _ |- _ =>
        let H' := fresh "H" in
        pose proof H as H';
        apply parseConnection_produces in H'; [| apply Hb];
        eapply parseConnection_makes in H; [| apply Hb | apply Hb];
        destruct c as [i|]; unfold whenId
    end.
    + match goal with
      | H : produces _ _ _ _ |- _ => rewrite (produces_truthy _ _ _ _ H)
      end.
      eapply body_push; [exact Hb | eassumption | eassumption | reflexivity |].
      pushes_goal Hb a.
    + moved_on.
  - pushed_child parseBind_produces parseBind_makes.
  - moved_on.
Qed.

Lemma parsePartDef_makes fuel parent st id st' r P :
  parsePartDef fuel parent st = Return id st' ->
  Inv (els st) (idCounter st) -> Shape r (els st) P ->
  makes r P ElementType.part_def parent st id st'.
Proof.
  unfold parsePartDef. intros H HI HS. exec.
  - body_node parsePartDefBody_body.
  - fresh_leaf.
Qed.

(** ** The package *)

Lemma pushChild_root parentId elemId st u st' :
  pushChild parentId elemId st = Return u st' ->
  rootPackage (model st') = rootPackage (model st).
Proof.
  unfold pushChild, bind, this, gets.
  destruct (JsMap.get parentId (elements (model st))); [|discriminate].
  intros H. inversion H. reflexivity.
Qed.

Lemma package_push r s ch s1 u s2 Tc :
  package_inv r s ->
  produces r s ch s1 ->
  makes r (fun _ _ => False) Tc r s ch s1 ->
  allowed ElementType.package Tc = true ->
  pushChild r ch s1 = Return u s2 ->
  package_inv r s2.
Proof.
  intros (HI & HS & Hfl & (pe & Hpe & Hty & Hpar) & Hroot) Hp
    (HS1 & Hnew & (ce & Hce & Htce) & Hfl1 & Hroot1) Hal Hpush.
  pose proof (pushChild_Inv _ _ _ _ _ _ Hp Hpush) as HI2.
  pose proof (pushChild_root _ _ _ _ _ Hpush) as Hroot2.
  destruct Hp as (HI1 & HE1 & _).
  apply pushChild_Return in Hpush. destruct Hpush as (pe1 & Hpe1 & Hels & Hc).
  assert (pe1 = pe).
  { rewrite (ext_old _ _ _ _ HE1 _ _ Hpe) in Hpe1. congruence. }
  subst pe1.
  unfold package_inv. split; [exact HI2 | split; [|split; [|split]]].
  - rewrite Hels. eapply Shape_push; eauto.
    + rewrite Htce. exact Hal.
    + intros Hin.
      destruct (shape_elem _ _ _ HS _ _ Hpe) as (_ & Htc & _).
      destruct (Htc ch Hin) as (xe & Hxe & _). congruence.
  - rewrite Hels, Hc. eapply filled_trans; [exact Hfl | | ].
    + intros n Hn. apply get_set_mono, Hfl1, Hn.
    + intros k Hg. apply get_set_mono.
      destruct (JsMap.get k (els s)) as [e|] eqn:He; [|congruence].
      rewrite (ext_old _ _ _ _ HE1 _ _ He). discriminate.
  - rewrite Hels, get_set_same. eexists. split; [reflexivity|]. auto.
  - congruence.
Qed.

Lemma package_frame r s s1 : package_inv r s -> frame s s1 -> package_inv r s1.
Proof.
  intros H Hf. unfold package_inv in *.
  replace (els s1) with (els s) by frames.
  replace (idCounter s1) with (idCounter s) by frames.
  replace (model s1) with (model s) by frames. exact H.
Qed.

Ltac pushed_to_root produced made :=
  match goal with
  | Hb : package_inv _ ?s, H : _ = Return ?ch ?s1,
    Hp : pushChild _ ?ch ?s1 = Return _ _ |- _ =>
      let H' := fresh "H" in
      pose proof H as H';
      apply produced in H'; [| apply Hb];
      eapply made in H; [| apply Hb | apply Hb];
      eapply package_push; [exact Hb | exact H' | exact H | reflexivity
                           | exact Hp]
  end.

Lemma parsePackageBody_package fuel r st u st' :
  parsePackageBody fuel r st = Return u st' ->
  package_inv r st -> package_inv r st'.
Proof.
  unfold parsePackageBody. intros H Hb.
  apply (while_inv (fun (_ : unit) s => package_inv r s)) in H;
    [destruct H as [H _]; exact H | | exact Hb].
  clear H Hb. intros [] s [] s' Hb _ H. exec.
  - pushed_to_root parseItemDef_produces parseItemDef_makes.
  - pushed_to_root parsePortDef_produces parsePortDef_makes.
  - pushed_to_root parsePartDef_produces parsePartDef_makes.
  - pushed_to_root parsePart_produces parsePart_makes.
  - pushed_to_root parseRequirementDef_produces parseRequirementDef_makes.
  - pushed_to_root parseStateDef_produces parseStateDef_makes.
  - match goal with
    | H : parseConnection _ _ _ = Return ?c _ |- _ =>
        let H' := fresh "H" in
        pose proof H as H';
        apply parseConnection_produces in H'; [| apply Hb];
        eapply parseConnection_makes in H; [| apply Hb | apply Hb];
        destruct c as [i|]; unfold whenId in *
    end.
    + match goal with
      | H : produces _ _ _ _ |- _ =>
          rewrite (produces_truthy _ _ _ _ H) in *
      end.
      eapply package_push;
        [exact Hb | eassumption | eassumption | reflexivity | eassumption].
    + exec. eapply package_frame; [exact Hb | frames].
  - pushed_to_root parseBind_produces parseBind_makes.
  - eapply package_frame; [exact Hb | frames].
Qed.

Lemma get_singleton {V} (k k0 : jsstring) (v v0 : V) :
  JsMap.get k [(k0, v0)] = Some v -> k = k0 /\ v = v0.
Proof.
  simpl. destruct (str_eqb k k0) eqn:Hk; [|discriminate].
  apply str_eqb_eq in Hk. intros H. inversion H. auto.
Qed.

Lemma get_singleton_same {V} (k : jsstring) (v : V) :
  JsMap.get k [(k, v)] = Some v.
Proof. simpl. rewrite str_eqb_refl. reflexivity. Qed.

(** The map that holds the root package alone. *)
Lemma package_start s name :
  els s = [(elem_ 1, Element.mk ElementType.package name (elem_ 1) None
                       [] [] NoFields)] ->
  idCounter s = 1 -> rootPackage (model s) = Some (elem_ 1) ->
  package_inv (elem_ 1) s.
Proof.
  intros Hels Hc Hroot. unfold package_inv. rewrite Hels, Hc.
  split; [|split; [|split; [|split]]].
  - apply (Inv_set JsMap.empty 1); try reflexivity.
    + eapply Inv_le; [apply Inv_empty | lia].
    + exists 1. split; [lia | reflexivity].
    + intros ch [].
    + apply lists_in_order_leaf; reflexivity.
  - split.
    + intros k e Hg. apply get_singleton in Hg. destruct Hg as [-> ->].
      split; [reflexivity | split; [intros ch [] | split]].
      * split; discriminate.
      * constructor.
    + intros k e Hg _. apply get_singleton in Hg. tauto.
    + intros k e p Hg Hp. apply get_singleton in Hg. destruct Hg as [-> ->].
      discriminate.
  - intros n Hn. assert (n = 1) by lia. subst n.
    rewrite get_singleton_same. discriminate.
  - eexists. split; [apply get_singleton_same | split; reflexivity].
  - exact Hroot.
Qed.

Lemma setRootPackage_root id st u st' :
  setRootPackage id st = Return u st' ->
  rootPackage (model st') = Some id.
Proof. intros H. inversion H. reflexivity. Qed.

Lemma parsePackage_package fuel st u st' :
  parsePackage fuel None st = Return u st' ->
  els st = JsMap.empty -> idCounter st = 0 ->
  package_inv (elem_ 1) st'.
Proof.
  unfold parsePackage. change (absent None) with true. cbv iota.
  intros H Hels Hc. exec.
  match goal with
  | H : parsePackageBody _ (elem_ (idCounter ?s + 1)) _ = Return _ _ |- _ =>
      assert (Hn : idCounter s = 0) by frames; rewrite Hn in *; clear Hn
  end.
  change (0 + 1) with 1 in *.
  match goal with
  | Hset : els ?s1 = JsMap.set _ _ (els ?s0),
    Hroot : setRootPackage _ ?s1 = Return _ ?s2,
    Hbody : parsePackageBody _ _ ?sb = Return _ ?se |- _ =>
      pose proof (setRootPackage_root _ _ _ _ Hroot) as Hr;
      apply setRootPackage_Return in Hroot; destruct Hroot as [Hels2 Hc2];
      replace (els s0) with (@JsMap.empty Element.t) in Hset by frames;
      assert (Hb : package_inv (elem_ 1) s2);
      [ eapply package_start; [rewrite Hels2, Hset; reflexivity | frames | exact Hr]
      | apply parsePackageBody_package in Hbody;
        [ eapply package_frame; [exact Hbody | frames]
        | eapply package_frame; [exact Hb | frames] ] ]
  end.
Qed.

(** A model that [parse] returns is the empty model, or the final state
    of the parser satisfies the invariant of the package. *)
Lemma parse_package fuel source p m st' :
  parse fuel source p = Return m st' ->
  m = model st'
  /\ (m = mkModel JsMap.empty None \/ package_inv (elem_ 1) st').
Proof.
  unfold parse. destruct (Lexer.tokenize fuel source) as [toks|];
    [|discriminate].
  unfold modify. intros H. exec.
  all: repeat match goal with
         | H : Return _ _ = Return _ _ |- _ => inversion H; subst; clear H
         | H : gets model _ = Return _ _ |- _ => inversion H; subst; clear H
         end.
  - split; [reflexivity|]. right.
    match goal with
    | H : parsePackage _ _ _ = Return _ _ |- _ =>
        apply parsePackage_package in H; [exact H | reflexivity | reflexivity]
    end.
  - split; [reflexivity|]. left. reflexivity.
Qed.

End ParserShape.

(* ================================================================== *)
(** * Properties of the element graph *)

Section GraphProperties.
Import Parser.

Lemma NoDup_elems n c : NoDup (map elem_ (seq n c)).
Proof.
  generalize (seq_NoDup c n). generalize (seq n c) as l.
  induction l as [|a l IH]; simpl; intros Hnd; [constructor|].
  inversion Hnd as [|? ? Hnot Hnd']; subst. constructor; [|auto].
  intros Hin. apply in_map_iff in Hin. destruct Hin as (b & Heq & Hb).
  apply elem_inj in Heq. subst b. contradiction.
Qed.

(** The keys of an element map that satisfies the invariant and holds
    every id up to [c] are these ids. *)
Lemma keys_complete m c :
  Inv m c -> filled 0 m c ->
  length m = c
  /\ forall k, JsMap.get k m <> None <-> exists n, 1 <= n <= c /\ k = elem_ n.
Proof.
  intros HI Hfl.
  assert (Hiff : forall k, In k (JsMap.keys m) <-> In k (map elem_ (seq 1 c))).
  { intros k. rewrite <- get_In_keys, in_map_iff. split.
    - intros Hk. destruct (JsMap.get k m) as [e|] eqn:He; [|congruence].
      destruct (inv_key _ _ HI _ _ He) as (_ & n & Hn & ->).
      exists n. split; [reflexivity | apply in_seq; lia].
    - intros (n & <- & Hn). apply in_seq in Hn. apply Hfl. lia. }
  split.
  - assert (Hlen : length (JsMap.keys m) = length (map elem_ (seq 1 c))).
    { apply Nat.le_antisymm; apply NoDup_incl_length.
      - apply (inv_nodup _ _ HI).
      - intros k. apply Hiff.
      - apply NoDup_elems.
      - intros k. apply Hiff. }
    unfold JsMap.keys in Hlen. rewrite !length_map, length_seq in Hlen.
    exact Hlen.
  - intros k. rewrite get_In_keys, Hiff, in_map_iff. split.
    + intros (n & <- & Hn). apply in_seq in Hn. exists n. split; [lia|auto].
    + intros (n & Hn & ->). exists n. split; [reflexivity|]. apply in_seq. lia.
Qed.

(** X1.  The ids of a model that [parse] returns are [elem_1], ..., [elem_n],
    where [n] is the number of its elements: each of these ids is the key
    of one element, whose [id] it is, and there is no other key. *)
Theorem parse_ids_dense fuel source p m st' :
  parse fuel source p = Return m st' ->
  NoDup (JsMap.keys (elements m))
  /\ (forall k e, ModelContext.getElement (Some m) k = Some e ->
                  Element.id e = k)
  /\ (forall k, ModelContext.getElement (Some m) k <> None
                <-> exists n, 1 <= n <= length (elements m) /\ k = elem_ n).
Proof.
  intros H. pose proof (parse_Inv _ _ _ _ _ H) as HI.
  apply parse_package in H. destruct H as [-> [Hm|Hp]].
  - rewrite Hm. simpl. split; [constructor | split; [discriminate|]].
    intros k. split; [congruence | intros (n & Hn & _); lia].
  - destruct Hp as (_ & _ & Hfl & _).
    destruct (keys_complete _ _ HI Hfl) as [Hlen Hiff].
    split; [apply (inv_nodup _ _ HI) | split].
    + intros k e Hk. apply (inv_key _ _ HI _ _ Hk).
    + intros k. unfold ModelContext.getElement, els in *. rewrite Hlen.
      apply Hiff.
Qed.

Lemma parse_ids_dense_witness :
  exists m st',
    parse 60 (js "package M { part def P { port p1; part a; } }") Parser.new
    = Return m st'
    /\ (forall k, ModelContext.getElement (Some m) k <> None
                  <-> exists n, 1 <= n <= length (elements m) /\ k = elem_ n).
Proof.
  eexists _, _. split.
  - vm_compute. reflexivity.
  - eapply (parse_ids_dense 60
              (js "package M { part def P { port p1; part a; } }") Parser.new).
    vm_compute. reflexivity.
Defined.

(** X2.  The elements of a model that [parse] returns form a tree.  A model
    without a root package has no element.  The root package is an
    element of type [package] without a parent, and it is the only
    package and the only element without a parent; every other element
    has a parent that is in the model and that lists it among its
    children, once. *)
Theorem parse_tree fuel source p m st' :
  parse fuel source p = Return m st' ->
  (rootPackage m = None -> elements m = [])
  /\ (forall r, rootPackage m = Some r ->
        exists e, ModelContext.getElement (Some m) r = Some e
                  /\ Element.type e = ElementType.package
                  /\ Element.parent e = None)
  /\ (forall k e, ModelContext.getElement (Some m) k = Some e ->
        rootPackage m <> Some k ->
        Element.type e <> ElementType.package
        /\ exists q pe,
             Element.parent e = Some q
             /\ ModelContext.getElement (Some m) q = Some pe
             /\ In k (Element.children pe)
             /\ NoDup (Element.children pe)).
Proof.
  intros H. apply parse_package in H. destruct H as [-> [Hm|Hp]].
  - rewrite Hm. simpl. repeat split; try discriminate.
  - destruct Hp as (_ & HS & _ & (re & Hre & Hty & Hpar) & Hroot).
    unfold ModelContext.getElement, els in *.
    split; [congruence | split].
    + intros r Hr. rewrite Hroot in Hr. inversion Hr; subst r. eauto.
    + intros k e Hk Hnot.
      assert (Hne : k <> elem_ 1) by congruence.
      split.
      * intros Hp. apply Hne. eapply (shape_root _ _ _ HS); eauto.
      * destruct (Element.parent e) as [q|] eqn:Hq.
        -- destruct (shape_conv _ _ _ HS _ _ _ Hk Hq)
             as [(pe & Hpe & Hin)|[]].
           exists q, pe. repeat split; auto.
           apply (shape_elem _ _ _ HS _ _ Hpe).
        -- exfalso. apply Hne. eapply (shape_root _ _ _ HS); eauto.
Qed.

Lemma parse_tree_witness :
  exists m st',
    parse 60 (js "package M { part def P { port p1; part a; } }") Parser.new
    = Return m st'
    /\ (rootPackage m = None -> elements m = []).
Proof.
  eexists _, _. split.
  - vm_compute. reflexivity.
  - eapply (parse_tree 60
              (js "package M { part def P { port p1; part a; } }") Parser.new).
    vm_compute. reflexivity.
Defined.

(** X3.  In a model that [parse] returns, the fields of every element are
    those of its type, and every child is of a type that the body of its
    parent can hold: a package holds definitions, parts, connections and
    binds; a part definition holds ports, parts, state definitions,
    connections and binds; a state definition holds states and transitions; an
    element of another type has no children. *)
Theorem parse_containment fuel source p m st' :
  parse fuel source p = Return m st' ->
  forall k e, ModelContext.getElement (Some m) k = Some e ->
    fields_match (Element.type e) (Element.fields e) = true
    /\ (forall ch, In ch (Element.children e) ->
          exists ce, ModelContext.getElement (Some m) ch = Some ce
                     /\ allowed (Element.type e) (Element.type ce) = true)
    /\ (Element.type e <> ElementType.package ->
        Element.type e <> ElementType.part_def ->
        Element.type e <> ElementType.state_def ->
        Element.children e = []).
Proof.
  intros H k e Hk. apply parse_package in H. destruct H as [-> [Hm|Hp]].
  - rewrite Hm in Hk. discriminate.
  - destruct Hp as (_ & HS & _).
    unfold ModelContext.getElement, els in *.
    destruct (shape_elem _ _ _ HS _ _ Hk) as (Hf & Htc & _).
    split; [exact Hf | split; [exact Htc|]].
    intros H1 H2 H3. destruct (Element.children e) as [|ch l] eqn:Hch;
      [reflexivity|].
    destruct (Htc ch) as (ce & _ & Hal); [rewrite Hch; left; reflexivity|].
    destruct (Element.type e); simpl in Hal; congruence.
Qed.

Lemma parse_containment_witness :
  exists m st' e,
    parse 60 (js "package M { part def P { port p1; part a; } }") Parser.new
    = Return m st'
    /\ ModelContext.getElement (Some m) (js "elem_2") = Some e
    /\ fields_match (Element.type e) (Element.fields e) = true.
Proof.
  eexists _, _, _. split; [|split].
  - vm_compute. reflexivity.
  - vm_compute. reflexivity.
  - exact (proj1 (parse_containment 60
                    (js "package M { part def P { port p1; part a; } }")
                    Parser.new _ _ ltac:(vm_compute; reflexivity)
                    (js "elem_2") _ ltac:(vm_compute; reflexivity))).
Defined.

(** Resolving the ids of [chs] that are of type [T] gives the elements of
    type [T] among the resolved [chs]. *)
Lemma defined_of_type (m : SysMLModel) T chs :
  ModelContext.defined
    (map (ModelContext.getElement (Some m)) (of_type (elements m) T chs))
  = ElementDetails.ofType T
      (ModelContext.defined (map (ModelContext.getElement (Some m)) chs)).
Proof.
  unfold of_type, ElementDetails.ofType, has_type, ModelContext.getElement.
  induction chs as [|ch chs IH]; simpl; [reflexivity|].
  destruct (JsMap.get ch (elements m)) as [ce|] eqn:Hce; simpl.
  - destruct (ElementType.eqb (Element.type ce) T); simpl; rewrite ?Hce, IH;
      reflexivity.
  - exact IH.
Qed.

(** Resolving ids that are keys of elements with these ids, and taking the
    ids again, gives the ids. *)
Lemma ids_of_defined (m : SysMLModel) c chs :
  Inv (elements m) c ->
  (forall ch, In ch chs -> JsMap.get ch (elements m) <> None) ->
  map Element.id
    (ModelContext.defined (map (ModelContext.getElement (Some m)) chs))
  = chs.
Proof.
  intros HI. unfold ModelContext.getElement.
  induction chs as [|ch chs IH]; simpl; intros Hin; [reflexivity|].
  destruct (JsMap.get ch (elements m)) as [ce|] eqn:Hce.
  - simpl. rewrite IH by auto.
    destruct (inv_key _ _ HI _ _ Hce) as [-> _]. reflexivity.
  - exfalso. apply (Hin ch); auto.
Qed.

(** X4.  [getChildren] on a model that [parse] returns drops nothing: it
    returns one element for each id of [children], in that order, and
    each of them has the element asked for as its parent. *)
Theorem parse_getChildren fuel source p m st' :
  parse fuel source p = Return m st' ->
  forall k e, ModelContext.getElement (Some m) k = Some e ->
    map Element.id (ModelContext.getChildren (Some m) k) = Element.children e
    /\ forall c, In c (ModelContext.getChildren (Some m) k) ->
                 Element.parent c = Some k.
Proof.
  intros H k e Hk. apply parse_Inv in H.
  unfold ModelContext.getChildren. rewrite Hk.
  unfold ModelContext.getElement in Hk.
  pose proof (inv_children _ _ H _ _ Hk) as Hch.
  split.
  - eapply ids_of_defined; [exact H|]. intros ch Hin.
    destruct (Hch ch Hin) as (ce & -> & _). discriminate.
  - unfold ModelContext.getElement.
    induction (Element.children e) as [|ch chs IH]; simpl; [tauto|].
    destruct (Hch ch) as (ce & Hce & Hp); [left; reflexivity|].
    rewrite Hce. intros c [<-|Hin]; [exact Hp|].
    apply IH; [|exact Hin]. intros x Hx. apply Hch. right. exact Hx.
Qed.

Lemma parse_getChildren_witness :
  exists m st' e,
    parse 60 (js "package M { part def P { port p1; part a; } }") Parser.new
    = Return m st'
    /\ ModelContext.getElement (Some m) (js "elem_2") = Some e
    /\ map Element.id (ModelContext.getChildren (Some m) (js "elem_2"))
       = Element.children e.
Proof.
  eexists _, _, _. split; [|split].
  - vm_compute. reflexivity.
  - vm_compute. reflexivity.
  - exact (proj1 (parse_getChildren 60
                    (js "package M { part def P { port p1; part a; } }")
                    Parser.new _ _ ltac:(vm_compute; reflexivity)
                    (js "elem_2") _ ltac:(vm_compute; reflexivity))).
Defined.

(** X5.  In a model that [parse] returns, the lists [ports] and [parts] of a
    part definition are the ids of the ports and of the parts that the
    details panel finds among its children, in the same order; the lists
    [states] and [transitions] of a state definition are the ids of the
    states and of the transitions among its children. *)
Theorem parse_lists_by_type fuel source p m st' :
  parse fuel source p = Return m st' ->
  forall k e, ModelContext.getElement (Some m) k = Some e ->
    (Element.type e = ElementType.part_def ->
     map Element.id
       (fst (ElementDetails.PartDefDetails (ModelContext.getChildren (Some m) k)))
     = Element.ports e
     /\ map Element.id
          (snd (ElementDetails.PartDefDetails
                  (ModelContext.getChildren (Some m) k)))
        = Element.parts e)
    /\ (Element.type e = ElementType.state_def ->
        map Element.id
          (fst (ElementDetails.StateDefDetails
                  (ModelContext.getChildren (Some m) k)))
        = Element.states e
        /\ map Element.id
             (snd (ElementDetails.StateDefDetails
                     (ModelContext.getChildren (Some m) k)))
           = Element.transitions e).
Proof.
  intros H k e Hk. pose proof (parse_Inv _ _ _ _ _ H) as HI.
  apply parse_package in H. destruct H as [-> [Hm|Hp]].
  - rewrite Hm in Hk. discriminate.
  - destruct Hp as (_ & HS & _).
    unfold ModelContext.getChildren. rewrite Hk.
    unfold ModelContext.getElement in Hk. unfold els in *.
    destruct (shape_elem _ _ _ HS _ _ Hk) as (_ & Htc & [Hl1 Hl2] & _).
    assert (Hids : forall T,
               map Element.id
                 (ElementDetails.ofType T
                    (ModelContext.defined
                       (map (ModelContext.getElement (Some (model st')))
                          (Element.children e))))
               = of_type (elements (model st')) T (Element.children e)).
    { intros T. rewrite <- defined_of_type.
      eapply ids_of_defined; [exact HI|]. intros ch Hin.
      apply filter_In in Hin. destruct Hin as [Hin _].
      destruct (Htc ch Hin) as (ce & -> & _). discriminate. }
    unfold ElementDetails.PartDefDetails, ElementDetails.StateDefDetails.
    simpl fst. simpl snd. rewrite !Hids.
    split; intros Ht; [destruct (Hl1 Ht) | destruct (Hl2 Ht)]; auto.
Qed.

Lemma parse_lists_by_type_witness :
  exists m st' e,
    parse 60 (js "package M { part def P { port p1; part a; } }") Parser.new
    = Return m st'
    /\ ModelContext.getElement (Some m) (js "elem_2") = Some e
    /\ Element.type e = ElementType.part_def
    /\ map Element.id
         (fst (ElementDetails.PartDefDetails
                 (ModelContext.getChildren (Some m) (js "elem_2"))))
       = Element.ports e.
Proof.
  eexists _, _, _. split; [|split; [|split]].
  - vm_compute. reflexivity.
  - vm_compute. reflexivity.
  - vm_compute. reflexivity.
  - exact (proj1 (proj1 (parse_lists_by_type 60
                    (js "package M { part def P { port p1; part a; } }")
                    Parser.new _ _ ltac:(vm_compute; reflexivity)
                    (js "elem_2") _ ltac:(vm_compute; reflexivity))
                  ltac:(vm_compute; reflexivity))).
Defined.

Lemma In_defined {A} (l : list (option A)) a :
  In a (ModelContext.defined l) <-> In (Some a) l.
Proof.
  induction l as [|[b|] l IH]; simpl; [tauto| |].
  - rewrite IH. split; (intros [H|H]; [left; congruence | right; exact H]).
  - rewrite IH. split; [auto | intros [H|H]; [discriminate | exact H]].
Qed.

(** X6.  Part definitions stand at the top level only: in a model that [parse]
    returns, the elements that [getPartDefs] returns are the part
    definitions among the elements that [getRootElements] returns. *)
Theorem parse_getPartDefs fuel source p m st' :
  parse fuel source p = Return m st' ->
  forall e, In e (ModelContext.getPartDefs (Some m))
            <-> In e (ModelContext.getRootElements (Some m))
                /\ Element.type e = ElementType.part_def.
Proof.
  intros H e. pose proof (parse_Inv _ _ _ _ _ H) as HI.
  unfold ModelContext.getPartDefs. rewrite filter_In, ElementType_eqb_eq.
  apply parse_package in H. destruct H as [-> [Hm|Hp]].
  - rewrite Hm. simpl. tauto.
  - destruct Hp as (_ & HS & _ & (re & Hre & Hty & Hpar) & Hroot).
    unfold ModelContext.getRootElements, ModelContext.getChildren,
      ModelContext.getElement, els in *.
    rewrite Hroot, elem_truthy, Hre, In_defined, in_map_iff.
    split; intros [Hin Ht]; (split; [|exact Ht]).
    + destruct (In_values _ _ (inv_nodup _ _ HI) Hin) as (k & Hk).
      exists k. split; [exact Hk|].
      destruct (Element.parent e) as [q|] eqn:Hq.
      * destruct (shape_conv _ _ _ HS _ _ _ Hk Hq) as [(pe & Hpe & Hl)|[]].
        destruct (shape_elem _ _ _ HS _ _ Hpe) as (_ & Htc & _).
        destruct (Htc k Hl) as (ce & Hce & Hal).
        assert (ce = e) by congruence. subst ce. rewrite Ht in Hal.
        assert (q = elem_ 1).
        { eapply (shape_root _ _ _ HS); [exact Hpe|]. left.
          destruct (Element.type pe); simpl in Hal; congruence. }
        subst q. congruence.
      * assert (k = elem_ 1)
          by (eapply (shape_root _ _ _ HS); [exact Hk | auto]).
        subst k. congruence.
    + destruct Hin as (k & Hk & _). eapply get_In_values, Hk.
Qed.

Lemma parse_getPartDefs_witness :
  exists m st',
    parse 60 (js "package M { part def P { port p1; part a; } }") Parser.new
    = Return m st'
    /\ forall e, In e (ModelContext.getPartDefs (Some m))
                 <-> In e (ModelContext.getRootElements (Some m))
                     /\ Element.type e = ElementType.part_def.
Proof.
  eexists _, _. split.
  - vm_compute. reflexivity.
  - eapply (parse_getPartDefs 60
              (js "package M { part def P { port p1; part a; } }") Parser.new).
    vm_compute. reflexivity.
Defined.

End GraphProperties.

(* ================================================================== *)
(** * The diagram: proofs *)

Section CanvasFacts.
Import DiagramCanvas.
Variable toLowerCase : jsstring -> jsstring.

Lemma nth_nodesFrom model viewMode sel k l i n :
  nth_error (nodesFrom model viewMode sel k l) i = Some n ->
  exists partDef, nth_error l i = Some partDef
                  /\ n = node model viewMode sel (k + i) partDef.
Proof.
  revert k i. induction l as [|a l IH]; intros k [|i]; simpl;
    try discriminate.
  - intros H. inversion H. exists a. rewrite Nat.add_0_r. auto.
  - intros H. destruct (IH _ _ H) as (pd & Hpd & ->). exists pd.
    split; [exact Hpd|]. f_equal. lia.
Qed.

Lemma position_apart viewMode i j :
  i <> j ->
  apart viewMode
    (i mod cols * (nodeWidth viewMode + horizontalGap) + 50,
     i / cols * (nodeHeight viewMode + verticalGap) + 50)
    (j mod cols * (nodeWidth viewMode + horizontalGap) + 50,
     j / cols * (nodeHeight viewMode + verticalGap) + 50).
Proof.
  intros Hne. unfold apart. cbn [fst snd].
  pose proof (Nat.div_mod_eq i cols) as Hi.
  pose proof (Nat.div_mod_eq j cols) as Hj.
  revert Hi Hj.
  generalize (i mod cols) (j mod cols) (i / cols) (j / cols)
    (nodeWidth viewMode) (nodeHeight viewMode) horizontalGap verticalGap.
  intros a b c d W H gx gy Hi Hj.
  destruct (Nat.lt_trichotomy a b) as [Hab|[Hab|Hab]].
  - left. nia.
  - destruct (Nat.lt_trichotomy c d) as [Hcd|[Hcd|Hcd]].
    + right. right. left. nia.
    + exfalso. apply Hne. rewrite Hi, Hj, Hab, Hcd. reflexivity.
    + right. right. right. nia.
  - right. left. nia.
Qed.

Lemma newNodes_ids model viewMode selectedElement :
  map Node.id (newNodes model viewMode selectedElement)
  = map Element.id (ModelContext.getPartDefs model).
Proof.
  unfold newNodes. generalize 0.
  induction (ModelContext.getPartDefs model) as [|a l IH];
    intros k; simpl; [reflexivity|]. rewrite IH. reflexivity.
Qed.

(** X7.  The diagram has one node for each part definition that [getPartDefs]
    returns, in that order and with the id of the part definition, in
    rows of four; the boxes of two nodes never overlap: they are a column
    gap apart or a row gap apart. *)
Theorem newNodes_layout model viewMode selectedElement :
  map Node.id (newNodes model viewMode selectedElement)
  = map Element.id (ModelContext.getPartDefs model)
  /\ (forall i n,
        nth_error (newNodes model viewMode selectedElement) i = Some n ->
        fst (Node.position n)
        <= 3 * (nodeWidth viewMode + horizontalGap) + 50)
  /\ (forall i j ni nj,
        nth_error (newNodes model viewMode selectedElement) i = Some ni ->
        nth_error (newNodes model viewMode selectedElement) j = Some nj ->
        i <> j ->
        apart viewMode (Node.position ni) (Node.position nj)).
Proof.
  split; [apply newNodes_ids | unfold newNodes; split].
  - intros i n H. apply nth_nodesFrom in H. destruct H as (pd & _ & ->).
    cbn [node Node.position fst].
    assert (Ha : (0 + i) mod cols < 4)
      by (apply Nat.mod_upper_bound; discriminate).
    apply Nat.add_le_mono_r, Nat.mul_le_mono_r. lia.
  - intros i j ni nj Hi Hj Hne.
    apply nth_nodesFrom in Hi, Hj.
    destruct Hi as (pi & _ & ->). destruct Hj as (pj & _ & ->).
    cbn [node Node.position]. apply position_apart. lia.
Qed.

Lemma connect_ok model viewMode sel conns edges conn edges' :
  connect toLowerCase model viewMode sel edges conn = Some edges' ->
  In conn conns ->
  edges_ok (newNodes model viewMode sel) conns edges ->
  edges_ok (newNodes model viewMode sel) conns edges'.
Proof.
  unfold connect. intros H Hconn Hok.
  destruct (source_of conn) as [source|]; [|discriminate].
  destruct (target_of conn) as [target|]; [|discriminate].
  cbv zeta in H.
  destruct (find _ (newNodes model viewMode sel)) as [ns|] eqn:Hs;
    [|inversion H; subst; exact Hok].
  destruct (find (named toLowerCase (split (ch ".") target)) _)
    as [nt|] eqn:Ht; [|inversion H; subst; exact Hok].
  destruct (str_eqb (Node.id ns) (Node.id nt)) eqn:Hne; simpl in H;
    [inversion H; subst; exact Hok|].
  destruct (find _ edges) as [e0|] eqn:Hf; inversion H; subst; clear H;
    [exact Hok|].
  destruct Hok as [Hnd Hall]. split.
  - rewrite map_app. simpl. apply NoDup_app; [exact Hnd | | ].
    + repeat constructor. intros [].
    + intros x Hx [<-|[]]. apply in_map_iff in Hx.
      destruct Hx as (e & He & Hin).
      apply (find_none _ _ Hf) in Hin. simpl in Hin.
      rewrite He, str_eqb_refl in Hin. discriminate.
  - intros e Hin. apply in_app_or in Hin. destruct Hin as [Hin|[<-|[]]];
      [apply Hall, Hin|]. simpl.
    apply find_some in Hs, Ht. destruct Hs as [Hs _], Ht as [Ht _].
    repeat split.
    + apply in_map, Hs.
    + apply in_map, Ht.
    + intros Heq. rewrite Heq, str_eqb_refl in Hne. discriminate.
    + exists conn. auto.
Qed.

Lemma forEach_ok model viewMode sel conns l :
  (forall conn, In conn l ->
     In conn conns
     /\ source_of conn <> None /\ target_of conn <> None) ->
  forall edges,
    edges_ok (newNodes model viewMode sel) conns edges ->
    exists edges',
      forEach toLowerCase model viewMode sel edges l = Some edges'
      /\ edges_ok (newNodes model viewMode sel) conns edges'.
Proof.
  induction l as [|conn l IH]; intros Hl edges Hok; simpl.
  - eauto.
  - destruct (Hl conn) as (Hin & Hs & Ht); [left; reflexivity|].
    destruct (connect toLowerCase model viewMode sel edges conn)
      as [edges1|] eqn:Hc.
    + apply IH; [intros c Hc'; apply Hl; right; exact Hc'|].
      eapply connect_ok; eassumption.
    + exfalso. unfold connect in Hc.
      destruct (source_of conn); [|congruence].
      destruct (target_of conn); [|congruence].
      cbv zeta in Hc.
      repeat match type of Hc with
             | match ?x with _ => _ end = None => destruct x
             | (if ?x then _ else _) = None => destruct x
             end; discriminate.
Qed.

Lemma NoDup_map_filter {A B} (f : A -> B) (g : A -> bool) l :
  NoDup (map f l) -> NoDup (map f (filter g l)).
Proof.
  induction l as [|a l IH]; simpl; intros H; [constructor|].
  inversion H as [|? ? Hnot Hnd]; subst.
  destruct (g a); simpl; [|auto]. constructor; [|auto].
  intros Hin. apply Hnot. apply in_map_iff in Hin.
  destruct Hin as (x & Hx & Hin). apply filter_In in Hin.
  apply in_map_iff. exists x. tauto.
Qed.

(** The ids of the values of an element map are its keys. *)
Lemma ids_are_keys m c :
  Inv m c -> map Element.id (JsMap.values m) = JsMap.keys m.
Proof.
  intros HI. unfold JsMap.values, JsMap.keys. rewrite map_map.
  apply map_ext_in. intros [k e] Hin. simpl.
  apply (In_get _ _ _ (inv_nodup _ _ HI)) in Hin.
  apply (inv_key _ _ HI _ _ Hin).
Qed.

(** X8.  The diagram of a model that [parse] returns is a graph: the effect
    raises no error; the nodes have different ids; the edges have
    different ids; each edge joins two different nodes and is the edge of
    a connection of the model.  In the view mode [sysml] there are no
    edges.  This holds whatever [toLowerCase] does. *)
Theorem effect_graph fuel source p m st' viewMode selectedElement :
  Parser.parse fuel source p = Return m st' ->
  exists nodes edges,
    effect toLowerCase (Some m) viewMode selectedElement
    = Some (nodes, edges)
    /\ nodes = newNodes (Some m) viewMode selectedElement
    /\ NoDup (map Node.id nodes)
    /\ NoDup (map Edge.id edges)
    /\ (forall e, In e edges ->
          In (Edge.source e) (map Node.id nodes)
          /\ In (Edge.target e) (map Node.id nodes)
          /\ Edge.source e <> Edge.target e
          /\ exists conn, In conn (connections m)
                          /\ Edge.id e = js "edge-" ++ Element.id conn)
    /\ (viewMode = sysml -> edges = []).
Proof.
  intros H. pose proof (parse_Inv _ _ _ _ _ H) as HI.
  assert (Hnodes : NoDup (map Node.id (newNodes (Some m) viewMode
                                         selectedElement))).
  { rewrite newNodes_ids.
    unfold ModelContext.getPartDefs. apply NoDup_map_filter.
    rewrite (ids_are_keys _ _ HI). apply (inv_nodup _ _ HI). }
  assert (Hconn : forall conn, In conn (connections m) ->
            In conn (connections m)
            /\ source_of conn <> None /\ target_of conn <> None).
  { intros conn Hin. split; [exact Hin|].
    unfold connections in Hin. apply filter_In in Hin.
    destruct Hin as [Hin Hty]. apply ElementType_eqb_eq in Hty.
    destruct (In_values _ _ (inv_nodup _ _ HI) Hin) as (k & Hk).
    apply parse_package in H. destruct H as [-> [Hm|Hp]].
    - rewrite Hm in Hk. discriminate.
    - destruct Hp as (_ & HS & _).
      destruct (shape_elem _ _ _ HS _ _ Hk) as (Hf & _).
      rewrite Hty in Hf. unfold source_of, target_of.
      destruct (Element.fields conn); try discriminate Hf.
      split; discriminate. }
  unfold effect. destruct viewMode.
  - exists (newNodes (Some m) sysml selectedElement), [].
    split; [reflexivity | split; [reflexivity | split; [exact Hnodes|]]].
    split; [constructor | split; [intros e [] | reflexivity]].
  - destruct (forEach_ok (Some m) simplified selectedElement (connections m)
                (connections m) Hconn []) as (edges & -> & Hnd & Hall).
    { split; [constructor | intros e []]. }
    exists (newNodes (Some m) simplified selectedElement), edges.
    split; [reflexivity | split; [reflexivity | split; [exact Hnodes|]]].
    split; [exact Hnd | split; [exact Hall | discriminate]].
Qed.

End CanvasFacts.

Lemma effect_graph_witness :
  exists m st',
    Parser.parse 90
      (js "package M { part def A; part def B; interface connect (A.x, B.y); }")
      Parser.new = Return m st'
    /\ exists nodes edges,
         DiagramCanvas.effect (fun s => s) (Some m) simplified None
         = Some (nodes, edges)
         /\ nodes = DiagramCanvas.newNodes (Some m) simplified None
         /\ NoDup (map Node.id nodes)
         /\ NoDup (map Edge.id edges)
         /\ (forall e, In e edges ->
               In (Edge.source e) (map Node.id nodes)
               /\ In (Edge.target e) (map Node.id nodes)
               /\ Edge.source e <> Edge.target e
               /\ exists conn, In conn (DiagramCanvas.connections m)
                               /\ Edge.id e = js "edge-" ++ Element.id conn)
         /\ (simplified = sysml -> edges = []).
Proof.
  eexists _, _. split; [vm_compute; reflexivity|].
  eapply (effect_graph (fun s => s) 90
            (js "package M { part def A; part def B; interface connect (A.x, B.y); }")
            Parser.new).
  vm_compute. reflexivity.
Defined.

(* ================================================================== *)
(** * The lexer: the tokens *)

Section LexerTokens.
Import Lexer.
Variable source : jsstring.

Lemma nondecreasing_snoc l x y :
  nondecreasing (l ++ [x]) -> x <= y -> nondecreasing (l ++ [x; y]).
Proof.
  induction l as [|a l IH]; simpl.
  - intros _ Hxy. repeat split; auto.
  - intros [Hall Hnd] Hxy. split; [|auto].
    apply Forall_app in Hall. destruct Hall as [Hl Hx].
    apply Forall_app. split; [exact Hl|].
    inversion Hx; subst. repeat constructor; auto. lia.
Qed.

Lemma nondecreasing_last l x y :
  nondecreasing (l ++ [x]) -> x <= y -> nondecreasing (l ++ [y]).
Proof.
  induction l as [|a l IH]; simpl.
  - auto.
  - intros [Hall Hnd] Hxy. split; [|eauto].
    apply Forall_app in Hall. destruct Hall as [Hl Hx].
    apply Forall_app. split; [exact Hl|].
    inversion Hx; subst. repeat constructor. lia.
Qed.

Lemma newlines_mono n n' : n <= n' ->
  newlines (firstn n source) <= newlines (firstn n' source).
Proof.
  unfold newlines. generalize (N.eqb (ch newline)). intros f.
  revert n n'. induction source as [|c s IH]; intros n n' Hle.
  - rewrite !firstn_nil. auto.
  - destruct n as [|n]; [simpl; lia|]. destruct n' as [|n']; [lia|].
    simpl. specialize (IH n n' ltac:(lia)).
    destruct (f c); simpl; lia.
Qed.

Lemma newlines_step n :
  charIs newline (at_ source n) = true ->
  newlines (firstn (n + 1) source) = newlines (firstn n source) + 1.
Proof.
  unfold newlines, charIs, test, at_. generalize (N.eqb (ch newline)).
  intros f. revert n.
  induction source as [|c s IH]; intros n; [destruct n; discriminate|].
  destruct n as [|n]; simpl.
  - intros ->. reflexivity.
  - intros H. specialize (IH n H). destruct (f c); simpl; lia.
Qed.

Lemma slice_forall p start e :
  (forall i, start <= i < e -> test p (at_ source i) = true) ->
  forallb p (slice source start e) = true.
Proof.
  intros H. apply forallb_forall. intros x Hin. unfold slice in Hin.
  apply In_nth_error in Hin. destruct Hin as (i & Hi).
  assert (Hlt : i < Nat.min e (length source) - start).
  { assert (Hn : nth_error
                   (firstn (Nat.min e (length source) - start)
                      (skipn start source)) i <> None) by congruence.
    apply nth_error_Some in Hn. rewrite length_firstn in Hn. lia. }
  rewrite nth_error_firstn in Hi.
  destruct (Nat.ltb_spec i (Nat.min e (length source) - start)); [|lia].
  rewrite nth_error_skipn in Hi.
  specialize (H (start + i) ltac:(lia)). unfold at_ in H. rewrite Hi in H.
  exact H.
Qed.

Lemma slice_cons start e c :
  start < e -> at_ source start = Some c ->
  slice source start e = c :: slice source (start + 1) e.
Proof.
  unfold slice, at_. intros Hlt Hc.
  assert (Hlen : start < length source)
    by (apply nth_error_Some; congruence).
  replace (Nat.min e (length source) - start)
    with (S (Nat.min e (length source) - (start + 1))) by lia.
  rewrite <- (firstn_skipn start source) in Hc at 1.
  rewrite nth_error_app2 in Hc by (rewrite length_firstn; lia).
  rewrite length_firstn in Hc.
  replace (start - Nat.min start (length source)) with 0 in Hc by lia.
  destruct (skipn start source) as [|c' rest] eqn:Hsk; [discriminate|].
  simpl in Hc. inversion Hc; subst c'. simpl. f_equal.
  replace (start + 1) with (S start) by lia.
  rewrite <- (skipn_skipn 1 start). rewrite Hsk. reflexivity.
Qed.

Lemma slice_prefix start e a b :
  start + 2 <= e ->
  at_ source start = Some a -> at_ source (start + 1) = Some b ->
  exists w, slice source start e = a :: b :: w.
Proof.
  intros Hle Ha Hb. rewrite (slice_cons start e a) by (auto; lia).
  rewrite (slice_cons (start + 1) e b) by (auto; lia). eauto.
Qed.

Lemma at_lt i c : at_ source i = Some c -> i < length source.
Proof. unfold at_. intros H. apply nth_error_Some. congruence. Qed.

Lemma lt_at i : i < length source -> exists c, at_ source i = Some c.
Proof.
  unfold at_. intros H. apply nth_error_Some in H.
  destruct (nth_error source i); [eauto | congruence].
Qed.

(** Pushing a well-formed token on the line of the lexer. *)
Lemma lex_push st s1 t p' c' :
  lex_inv source st ->
  tokens s1 = tokens st -> line st <= line s1 ->
  line s1 <= 1 + newlines (firstn (pos s1) source) ->
  token_ok t = true -> Token.line t = line s1 -> 1 <= Token.column t ->
  pos s1 <= p' -> 1 <= c' ->
  lex_inv source (mk (tokens s1 ++ [t]) p' (line s1) c').
Proof.
  intros (Hall & Hnd & Hl1 & Hl2 & Hc) Ht Hle Hnl Hok Hline Hcol Hp Hc'.
  unfold lex_inv. simpl. rewrite Ht.
  split; [|split; [|split; [|split]]]; try lia.
  - apply Forall_app. split; [exact Hall|]. repeat constructor; auto. lia.
  - rewrite map_app, <- app_assoc. simpl. rewrite Hline.
    apply nondecreasing_snoc; [|lia].
    eapply nondecreasing_last; [exact Hnd | exact Hle].
  - pose proof (newlines_mono (pos s1) p' Hp). lia.
Qed.

(** Moving on without a token. *)
Lemma lex_move st p' l' c' :
  lex_inv source st ->
  pos st <= p' -> line st <= l' ->
  l' <= 1 + newlines (firstn p' source) -> 1 <= c' ->
  lex_inv source (mk (tokens st) p' l' c').
Proof.
  intros (Hall & Hnd & Hl1 & Hl2 & Hc) Hp Hl Hnl Hc'.
  unfold lex_inv. simpl.
  split; [exact Hall | split; [|split; [|split]]]; try lia.
  eapply nondecreasing_last; [exact Hnd | exact Hl].
Qed.

Lemma scanning_start st start p :
  lex_inv source st -> pos st <= start ->
  forall c', 1 <= c' ->
  scanning source st start p (mk (tokens st) start (line st) c').
Proof.
  intros (_ & _ & _ & Hl2 & _) Hle c' Hc'. unfold scanning. simpl.
  repeat split; auto; try lia.
  pose proof (newlines_mono (pos st) start Hle). lia.
Qed.

(** A scanning loop: its body moves [pos] by one and keeps the column
    positive; on a newline it may move to the next line. *)
Lemma scan_loop fuel st start (p : char -> bool) cond (body : L unit) s0 s' :
  (forall s, cond s = true -> test p (at_ source (pos s)) = true) ->
  (forall s s1, 1 <= column s -> body s = Return tt s1 ->
     tokens s1 = tokens s /\ pos s1 = pos s + 1 /\ 1 <= column s1
     /\ (line s1 = line s
         \/ (line s1 = line s + 1
             /\ charIs newline (at_ source (pos s)) = true))) ->
  scanning source st start p s0 ->
  while fuel cond (fun _ => body) tt s0 = Return tt s' ->
  scanning source st start p s' /\ cond s' = false.
Proof.
  intros Hcond Hbody Hs0 Hw.
  apply (while_inv (fun (_ : unit) s => scanning source st start p s))
    in Hw; [exact Hw | | exact Hs0].
  intros [] s [] s1 (Ht & Hl & Hnl & Hc & Hp & Hch) Hc1 Hb.
  destruct (Hbody _ _ Hc Hb) as (Ht1 & Hp1 & Hc' & Hline).
  unfold scanning. rewrite Ht1, Hp1.
  split; [exact Ht | split; [|split; [|split; [exact Hc' | split]]]].
  - destruct Hline as [->|[-> _]]; lia.
  - destruct Hline as [->|[-> Hn]].
    + pose proof (newlines_mono (pos s) (pos s + 1)). lia.
    + rewrite (newlines_step _ Hn). lia.
  - lia.
  - intros i Hi. destruct (Nat.eq_dec i (pos s)) as [->|Hne].
    + apply Hcond, Hc1.
    + apply Hch. lia.
Qed.

(** Inversion of the operations of the lexer that returned. *)
Ltac lexec :=
  repeat
    (cbv beta zeta in *;
     match goal with
     | H : bind _ _ _ = Return _ _ |- _ =>
         apply bind_Return in H; destruct H as (? & ? & ? & H)
     | H : gets _ _ = Return _ _ |- _ => inversion H; subst; clear H
     | H : modify _ _ = Return _ _ |- _ => inversion H; subst; clear H
     | H : ret _ _ = Return _ _ |- _ => inversion H; subst; clear H
     | H : push _ _ = Return _ _ |- _ => unfold push in H
     | H : incr_pos _ _ = Return _ _ |- _ => unfold incr_pos in H
     | H : incr_column _ = Return _ _ |- _ => unfold incr_column in H
     | H : next_line _ = Return _ _ |- _ => unfold next_line in H
     | H : (if ?b then _ else _) _ = Return _ _ |- _ => destruct b eqn:?
     end).

Ltac scan_body :=
  let s := fresh "s" in
  let s1 := fresh "s" in
  let H := fresh "H" in
  let Hc := fresh "Hc" in
  intros s s1 Hc H; lexec; simpl; repeat split; auto; try lia;
  try (right; split; [lia | assumption]).

Lemma scanning_refl st p :
  lex_inv source st -> scanning source st (pos st) p st.
Proof.
  intros (_ & _ & _ & Hl2 & Hc). unfold scanning. repeat split; auto; lia.
Qed.

(** Replaces the scanning loop of a rule by what it establishes: [p]
    holds of the characters passed, and the condition is false at the
    end. *)
Ltac scanned p :=
  match goal with
  | HI : lex_inv _ ?st, H : while _ _ _ tt ?s0 = Return ?u ?s1 |- _ =>
      destruct u;
      apply (scan_loop _ st (pos s0) p) in H;
      [ destruct H as [(Ht & Hl & Hnl & Hcol & Hp & Hch) Hexit];
        simpl in Hp, Hch, Hexit
      | let s := fresh "s" in
        let Hs := fresh "Hs" in
        intros s Hs; apply andb_prop in Hs; destruct Hs as [Hs ?];
        try assumption
      | scan_body
      | first [ apply scanning_refl, HI
              | apply scanning_start;
                [exact HI | simpl; lia | first [lia | apply HI]] ] ]
  end.

(** The loop stopped past [i], where its condition holds. *)
Ltac passed i :=
  match goal with
  | Hexit : _ = false, Hp : _ <= pos ?s1 |- _ =>
      let Heq := fresh "Heq" in
      destruct (Nat.eq_dec (pos s1) i) as [Heq|]; [exfalso | lia];
      rewrite Heq in Hexit
  end.

(** Names the state before the rule [s0] and the state after its loop
    [se]. *)
Ltac name_states :=
  cbn [tokens pos line column];
  match goal with
  | HI : lex_inv _ ?st |- lex_inv _ (mk (tokens ?s1 ++ _) _ _ _) =>
      rename st into s0; rename s1 into se
  | HI : lex_inv _ ?st |- lex_inv _ (mk (tokens ?s1) _ _ _) =>
      rename st into s0; rename s1 into se
  end.

Lemma not_exit (cond : nat -> bool) s i :
  cond (pos s) = false -> cond i = true -> pos s <> i.
Proof. intros H1 H2 Heq. congruence. Qed.

Lemma identifier_inv fuel st st' :
  lex_inv source st ->
  test isIdentStart (at_ source (pos st)) = true ->
  identifier fuel source st = Return tt st' -> lex_inv source st'.
Proof.
  intros HI Hc H. unfold identifier in H. lexec. scanned isIdentPart.
  name_states.
  destruct (at_ source (pos s0)) as [c|] eqn:Hat; [|discriminate].
  simpl in Hc.
  assert (Hlt : pos s0 < pos se).
  { assert (pos se <> pos s0); [|lia].
    apply (not_exit (fun i => (i <? length source)
                              && test isIdentPart (at_ source i)));
      [exact Hexit|].
    apply andb_true_intro. split.
    - apply Nat.ltb_lt. eapply at_lt, Hat.
    - rewrite Hat. unfold test, isIdentPart. rewrite Hc. reflexivity. }
  eapply lex_push with (st := s0) (s1 := se); auto; try lia;
    try solve [simpl; apply HI].
  unfold token_ok. rewrite (slice_cons _ _ _ Hlt Hat).
  assert (Hw : word_ok isIdentStart isIdentPart
                 (c :: slice source (pos s0 + 1) (pos se)) = true).
  { unfold word_ok. rewrite Hc. apply slice_forall. intros i Hi.
    apply Hch. lia. }
  cbn [Token.type Token.value].
  destruct (KEYWORDS_has _) eqn:Hk; cbv iota; rewrite Hw; reflexivity.
Qed.

Lemma number_inv fuel st st' :
  lex_inv source st ->
  test isNumberPart (at_ source (pos st)) = true ->
  number fuel source st = Return tt st' -> lex_inv source st'.
Proof.
  intros HI Hc H. unfold number in H. lexec. scanned isNumberPart.
  name_states.
  destruct (at_ source (pos s0)) as [c|] eqn:Hat; [|discriminate].
  simpl in Hc.
  assert (Hlt : pos s0 < pos se).
  { assert (pos se <> pos s0); [|lia].
    apply (not_exit (fun i => (i <? length source)
                              && test isNumberPart (at_ source i)));
      [exact Hexit|].
    apply andb_true_intro. split.
    - apply Nat.ltb_lt. eapply at_lt, Hat.
    - rewrite Hat. exact Hc. }
  eapply lex_push with (st := s0) (s1 := se); auto; try lia;
    try solve [simpl; apply HI].
  unfold token_ok. rewrite (slice_cons _ _ _ Hlt Hat).
  cbn [Token.type Token.value word_ok]. rewrite Hc.
  apply slice_forall. intros i Hi. apply Hch. lia.
Qed.

Lemma stringLiteral_inv fuel st st' :
  lex_inv source st ->
  stringLiteral fuel source st = Return tt st' -> lex_inv source st'.
Proof.
  intros HI H. unfold stringLiteral in H. lexec.
  scanned (fun c => negb (N.eqb (ch quote) c)).
  - name_states.
    eapply lex_push with (st := s0) (s1 := se); auto; try lia;
      try solve [simpl; apply HI].
    unfold token_ok. cbn [Token.type Token.value].
    apply slice_forall. exact Hch.
  - apply Nat.ltb_lt in Hs. destruct (lt_at _ Hs) as (c & Hc).
    rewrite Hc in *. assumption.
Qed.

Lemma lineComment_inv fuel st st' :
  lex_inv source st ->
  charIs "/" (at_ source (pos st)) = true ->
  charIs "/" (at_ source (pos st + 1)) = true ->
  lineComment fuel source st = Return tt st' -> lex_inv source st'.
Proof.
  intros HI Hc1 Hc2 H. unfold lineComment in H. lexec.
  scanned (fun c => negb (N.eqb (ch newline) c)).
  - name_states.
    destruct (at_ source (pos s0)) as [a|] eqn:Ha; [|discriminate].
    destruct (at_ source (pos s0 + 1)) as [b|] eqn:Hb; [|discriminate].
    unfold charIs, test in Hc1, Hc2. apply N.eqb_eq in Hc1, Hc2.
    subst a b.
    assert (Hlt : pos s0 + 2 <= pos se).
    { assert (pos se <> pos s0 /\ pos se <> pos s0 + 1); [|lia].
      split;
        apply (not_exit (fun i => (i <? length source)
                                  && negb (charIs newline (at_ source i))));
        try exact Hexit; apply andb_true_intro; split;
        try (apply Nat.ltb_lt; eapply at_lt; eassumption).
      - rewrite Ha. reflexivity.
      - rewrite Hb. reflexivity. }
    eapply lex_push with (st := s0) (s1 := se); auto; try lia;
      try solve [simpl; apply HI].
    unfold token_ok.
    destruct (slice_prefix _ _ _ _ Hlt Ha Hb) as (w & Hw).
    cbn [Token.type Token.value]. rewrite Hw. reflexivity.
  - apply Nat.ltb_lt in Hs. destruct (lt_at _ Hs) as (c & Hc).
    rewrite Hc in *. assumption.
Qed.

Lemma blockComment_inv fuel st st' :
  lex_inv source st ->
  charIs "/" (at_ source (pos st)) = true ->
  charIs "*" (at_ source (pos st + 1)) = true ->
  blockComment fuel source st = Return tt st' -> lex_inv source st'.
Proof.
  intros HI Hc1 Hc2 H. unfold blockComment in H. lexec.
  scanned (fun _ : char => true).
  - name_states.
    destruct (at_ source (pos s0)) as [a|] eqn:Ha; [|discriminate].
    destruct (at_ source (pos s0 + 1)) as [b|] eqn:Hb; [|discriminate].
    unfold charIs, test in Hc1, Hc2. apply N.eqb_eq in Hc1, Hc2.
    subst a b.
    eapply lex_push with (st := s0) (s1 := se); auto; try lia;
      try solve [simpl; apply HI].
    unfold token_ok.
    destruct (slice_prefix (pos s0) (pos se + 2) _ _ ltac:(lia) Ha Hb)
      as (w & Hw).
    cbn [Token.type Token.value]. rewrite Hw. reflexivity.
  - apply Nat.ltb_lt in Hs.
    destruct (lt_at (pos s)) as (c & Hc); [lia|]. rewrite Hc. reflexivity.
Qed.

Lemma single_token_ok c type line column :
  singleTokens c = Some type ->
  token_ok (Token.mk type [c] line column) = true.
Proof.
  unfold singleTokens. intros H.
  repeat match type of H with
         | (if N.eqb c ?k then _ else _) = _ =>
             let Hk := fresh "Hk" in
             destruct (N.eqb c k) eqn:Hk;
             [ apply N.eqb_eq in Hk; subst c; inversion H; subst;
               reflexivity | ]
         end.
  discriminate.
Qed.

(** One iteration of the main loop keeps the invariant. *)
Lemma step_inv fuel st st' :
  lex_inv source st -> pos st < length source ->
  step fuel source st = Return tt st' -> lex_inv source st'.
Proof.
  intros HI Hlt H. unfold step in H.
  apply bind_Return in H. destruct H as (s & s1 & Hg & H).
  inversion Hg; subst s s1; clear Hg. cbv zeta in H.
  destruct (test isSpace (at_ source (pos st))) eqn:Hsp.
  { lexec.
    - cbn [tokens pos line column]; apply (lex_move st); auto; try lia.
      rewrite (newlines_step _ ltac:(eassumption)).
      destruct HI as (_ & _ & _ & Hl & _). lia.
    - cbn [tokens pos line column]; apply (lex_move st); auto; try lia.
      destruct HI as (_ & _ & _ & Hl & _).
      pose proof (newlines_mono (pos st) (pos st + 1)). lia. }
  destruct (charIs "/" (at_ source (pos st))
            && charIs "/" (at_ source (pos st + 1))) eqn:Hlc.
  { apply andb_prop in Hlc. destruct Hlc.
    eapply lineComment_inv; eassumption. }
  destruct (charIs "/" (at_ source (pos st))
            && charIs "*" (at_ source (pos st + 1))) eqn:Hbc.
  { apply andb_prop in Hbc. destruct Hbc.
    eapply blockComment_inv; eassumption. }
  destruct (charIs quote (at_ source (pos st))) eqn:Hq;
    [eapply stringLiteral_inv; eassumption|].
  destruct (test isDigit (at_ source (pos st))) eqn:Hd; cbn [andb orb] in H.
  { eapply number_inv; [exact HI | | exact H].
    unfold test, isNumberPart in *.
    destruct (at_ source (pos st)); auto. rewrite Hd. reflexivity. }
  assert (Hmove : lex_inv source
                    (mk (tokens st) (pos st + 1) (line st) (column st + 1))).
  { cbn [tokens pos line column]; apply (lex_move st); auto; try lia.
    destruct HI as (_ & _ & _ & Hl & _).
    pose proof (newlines_mono (pos st) (pos st + 1)). lia. }
  assert (Hrest :
    (match at_ source (pos st) with
     | Some c =>
         match singleTokens c with
         | Some ty =>
             push (Token.mk ty [c] (line st) (column st)) ;;
             incr_pos 1 ;; incr_column
         | None => incr_pos 1 ;; incr_column
         end
     | None => incr_pos 1 ;; incr_column
     end) st = Return tt st' -> lex_inv source st').
  { clear H. intros H.
    destruct (at_ source (pos st)) as [c|] eqn:Hc;
      [destruct (singleTokens c) as [ty|] eqn:Hty|]; lexec;
      try exact Hmove.
    cbn [tokens pos line column].
    eapply lex_push with (st := st) (s1 := st); auto; try lia;
      try solve [simpl; apply HI].
    apply single_token_ok, Hty. }
  destruct (charIs "." (at_ source (pos st))) eqn:Hdot; cbn [andb orb] in H.
  { destruct (test isDigit (at_ source (pos st + 1))) eqn:Hd2.
    - eapply number_inv; [exact HI | | exact H].
      unfold charIs, test, isNumberPart in *.
      destruct (at_ source (pos st)); auto.
      apply N.eqb_eq in Hdot. subst. reflexivity.
    - destruct (test isIdentStart (at_ source (pos st))) eqn:Hi;
        [ eapply identifier_inv; [exact HI | exact Hi | exact H]
        | exact (Hrest H) ]. }
  destruct (test isIdentStart (at_ source (pos st))) eqn:Hi;
    [ eapply identifier_inv; [exact HI | exact Hi | exact H]
    | exact (Hrest H) ].
Qed.

(** The tokens that [tokenize] returns: the tokens of the main loop,
    which satisfy the invariant for some final state, and the
    end-of-input token on the last line. *)
Lemma tokenize_inv fuel toks :
  tokenize fuel source = Some toks ->
  exists s, lex_inv source s
            /\ toks = tokens s ++ [Token.mk EOF [] (line s) (column s)].
Proof.
  unfold tokenize.
  destruct (main fuel source (mk [] 0 1 1)) as [[] s| |] eqn:Hm;
    try discriminate.
  intros H. inversion H; subst toks; clear H. exists s. split; [|reflexivity].
  unfold main in Hm.
  apply (while_inv (fun (_ : unit) s => lex_inv source s)) in Hm;
    [apply Hm | |].
  - intros [] s0 [] s1 HI Hc Hs. apply Nat.ltb_lt in Hc.
    eapply step_inv; eassumption.
  - unfold lex_inv. simpl. repeat split; auto; lia.
Qed.

(** ** The texts of the tokens *)

Lemma located_le lo toks hi hi' :
  located source lo toks hi -> hi <= hi' -> located source lo toks hi'.
Proof.
  revert lo. induction toks as [|t rest IH]; simpl; intros lo H Hle; [lia|].
  destruct H as (a & b & Ha & Hab & Hv & H). exists a, b. auto.
Qed.

Lemma located_snoc lo toks hi t a b hi' :
  located source lo toks hi ->
  hi <= a -> a <= b -> b <= hi' -> Token.value t = slice source a b ->
  located source lo (toks ++ [t]) hi'.
Proof.
  revert lo. induction toks as [|t0 rest IH]; simpl; intros lo H Ha Hab Hb Hv.
  - exists a, b. repeat split; auto; lia.
  - destruct H as (a0 & b0 & Ha0 & Hab0 & Hv0 & H). exists a0, b0.
    repeat split; auto.
Qed.

Lemma slice_empty i : slice source i i = [].
Proof.
  unfold slice. replace (Nat.min i (length source) - i) with 0 by lia.
  reflexivity.
Qed.

Lemma slice_one i c : at_ source i = Some c -> [c] = slice source i (i + 1).
Proof.
  intros H. rewrite (slice_cons i (i + 1) c) by (auto; lia).
  rewrite slice_empty. reflexivity.
Qed.

(** The token that a rule pushed is the piece of the source that its loop
    passed. *)
Ltac located_push :=
  cbn [tokens pos];
  match goal with
  | HL : located _ 0 (tokens ?s0) (pos ?s0), Ht : tokens _ = tokens ?s0
    |- _ =>
      rewrite Ht;
      eapply (located_snoc 0 (tokens s0) (pos s0));
      [ exact HL | | | | reflexivity ]; simpl; lia
  end.

Lemma identifier_located fuel st st' :
  lex_inv source st -> located source 0 (tokens st) (pos st) ->
  identifier fuel source st = Return tt st' ->
  located source 0 (tokens st') (pos st').
Proof.
  intros HI HL H. unfold identifier in H. lexec. scanned isIdentPart.
  located_push.
Qed.

Lemma number_located fuel st st' :
  lex_inv source st -> located source 0 (tokens st) (pos st) ->
  number fuel source st = Return tt st' ->
  located source 0 (tokens st') (pos st').
Proof.
  intros HI HL H. unfold number in H. lexec. scanned isNumberPart.
  located_push.
Qed.

Lemma stringLiteral_located fuel st st' :
  lex_inv source st -> located source 0 (tokens st) (pos st) ->
  stringLiteral fuel source st = Return tt st' ->
  located source 0 (tokens st') (pos st').
Proof.
  intros HI HL H. unfold stringLiteral in H. lexec.
  scanned (fun c => negb (N.eqb (ch quote) c)).
  - located_push.
  - apply Nat.ltb_lt in Hs. destruct (lt_at _ Hs) as (c & Hc).
    rewrite Hc in *. assumption.
Qed.

Lemma lineComment_located fuel st st' :
  lex_inv source st -> located source 0 (tokens st) (pos st) ->
  lineComment fuel source st = Return tt st' ->
  located source 0 (tokens st') (pos st').
Proof.
  intros HI HL H. unfold lineComment in H. lexec.
  scanned (fun c => negb (N.eqb (ch newline) c)).
  - located_push.
  - apply Nat.ltb_lt in Hs. destruct (lt_at _ Hs) as (c & Hc).
    rewrite Hc in *. assumption.
Qed.

Lemma blockComment_located fuel st st' :
  lex_inv source st -> located source 0 (tokens st) (pos st) ->
  blockComment fuel source st = Return tt st' ->
  located source 0 (tokens st') (pos st').
Proof.
  intros HI HL H. unfold blockComment in H. lexec.
  scanned (fun _ : char => true).
  - located_push.
  - apply Nat.ltb_lt in Hs.
    destruct (lt_at (pos s)) as (c & Hc); [lia|]. rewrite Hc. reflexivity.
Qed.

Lemma step_located fuel st st' :
  lex_inv source st -> located source 0 (tokens st) (pos st) ->
  step fuel source st = Return tt st' ->
  located source 0 (tokens st') (pos st').
Proof.
  intros HI HL H. unfold step in H.
  apply bind_Return in H. destruct H as (s & s1 & Hg & H).
  inversion Hg; subst s s1; clear Hg. cbv zeta in H.
  assert (Hmove : forall l c,
             located source 0 (tokens (mk (tokens st) (pos st + 1) l c))
               (pos (mk (tokens st) (pos st + 1) l c))).
  { intros l c. simpl. apply (located_le _ _ (pos st)); [exact HL | lia]. }
  destruct (test isSpace (at_ source (pos st))).
  { lexec; apply Hmove. }
  destruct (charIs "/" (at_ source (pos st))
            && charIs "/" (at_ source (pos st + 1)));
    [eapply lineComment_located; eassumption|].
  destruct (charIs "/" (at_ source (pos st))
            && charIs "*" (at_ source (pos st + 1)));
    [eapply blockComment_located; eassumption|].
  destruct (charIs quote (at_ source (pos st)));
    [eapply stringLiteral_located; eassumption|].
  destruct (test isDigit (at_ source (pos st))
            || charIs "." (at_ source (pos st))
               && test isDigit (at_ source (pos st + 1)));
    [eapply number_located; eassumption|].
  destruct (test isIdentStart (at_ source (pos st)));
    [eapply identifier_located; eassumption|].
  destruct (at_ source (pos st)) as [c|] eqn:Hc;
    [destruct (singleTokens c) as [ty|]|]; lexec; try apply Hmove.
  cbn [tokens pos].
  eapply (located_snoc 0 (tokens st) (pos st) _ (pos st) (pos st + 1));
    [exact HL | lia | lia | lia | apply slice_one, Hc].
Qed.

(** X14.  The lexer takes the text of its tokens from the source, in
    order: the texts of the tokens that [tokenize] returns before the end
    of input are slices of the source between positions that do not
    decrease, so that no two of them overlap. *)
Theorem tokenize_texts_in_order fuel toks :
  tokenize fuel source = Some toks ->
  exists body eof hi,
    toks = body ++ [eof] /\ located source 0 body hi.
Proof.
  unfold tokenize.
  destruct (main fuel source (mk [] 0 1 1)) as [[] s| |] eqn:Hm;
    try discriminate.
  intros H. inversion H; subst toks; clear H.
  exists (tokens s), (Token.mk EOF [] (line s) (column s)), (pos s).
  split; [reflexivity|]. unfold main in Hm.
  apply (while_inv
           (fun (_ : unit) s =>
              lex_inv source s /\ located source 0 (tokens s) (pos s)))
    in Hm; [apply Hm | |].
  - intros [] s0 [] s1 [HI HL] Hc Hs. apply Nat.ltb_lt in Hc. split.
    + eapply step_inv; eassumption.
    + eapply step_located; eassumption.
  - split; [|simpl; lia]. unfold lex_inv. simpl. repeat split; auto; lia.
Qed.

Lemma nondecreasing_bound l x :
  nondecreasing (l ++ [x]) -> Forall (fun y => y <= x) l.
Proof.
  induction l as [|a l IH]; simpl; [constructor|].
  intros [Hall Hnd]. constructor; [|auto].
  apply Forall_app in Hall. destruct Hall as [_ Hx]. inversion Hx. lia.
Qed.

Lemma newlines_firstn n : newlines (firstn n source) <= newlines source.
Proof.
  destruct (Nat.le_ge_cases n (length source)) as [H|H].
  - rewrite <- (firstn_all source) at 2. apply newlines_mono, H.
  - rewrite firstn_all2 by exact H. auto.
Qed.

(** What [tokenize] returns: the tokens of the rules and the
    end-of-input token, in the order of their lines. *)
Lemma tokenize_shape fuel toks :
  tokenize fuel source = Some toks ->
  exists body eof,
    toks = body ++ [eof]
    /\ Token.type eof = EOF /\ Token.value eof = []
    /\ Forall (fun t => token_ok t = true) body
    /\ nondecreasing (map Token.line toks)
    /\ Forall (fun t => 1 <= Token.line t <= 1 + newlines source
                        /\ 1 <= Token.column t) toks.
Proof.
  intros H. apply tokenize_inv in H.
  destruct H as (s & (Hall & Hnd & Hl1 & Hl & Hc) & ->).
  exists (tokens s), (Token.mk EOF [] (line s) (column s)).
  pose proof (newlines_firstn (pos s)) as Hn.
  split; [reflexivity|]. split; [reflexivity|]. split; [reflexivity|].
  split; [|split].
  - eapply Forall_impl; [|exact Hall]. simpl. tauto.
  - rewrite map_app. exact Hnd.
  - apply Forall_app. split.
    + apply nondecreasing_bound in Hnd.
      rewrite Forall_forall in *. intros t Ht.
      specialize (Hall t Ht).
      specialize (Hnd (Token.line t) (in_map _ _ _ Ht)). simpl in Hnd. lia.
    + constructor; [simpl; lia | constructor].
Qed.

End LexerTokens.

Section LexerProperties.

(** X9.  Every token that [tokenize] returns before the last one has the text
    of its type: a keyword of the table for KEYWORD, an identifier that
    is no keyword for IDENTIFIER, digits and dots for NUMBER, a text
    without double quote for STRING, a text that starts with two slashes
    or slash and star for COMMENT, the one character of the table for the
    punctuation; the last token is the end of input, with empty text. *)
Theorem tokenize_tokens_wellformed fuel source toks :
  Lexer.tokenize fuel source = Some toks ->
  exists body eof,
    toks = body ++ [eof]
    /\ Forall (fun t => token_ok t = true) body
    /\ Token.type eof = EOF /\ Token.value eof = [].
Proof.
  intros H. apply tokenize_shape in H.
  destruct H as (body & eof & -> & Ht & Hv & Hall & _).
  exists body, eof. auto.
Qed.

Lemma tokenize_tokens_wellformed_witness :
  exists body eof,
    [ Token.mk KEYWORD (js "part") 1 1; Token.mk IDENTIFIER (js "a") 1 6;
      Token.mk SEMICOLON (js ";") 1 7; Token.mk COMMENT (js "// c") 2 1;
      Token.mk EOF [] 2 1 ] = body ++ [eof]
    /\ Forall (fun t => token_ok t = true) body
    /\ Token.type eof = EOF /\ Token.value eof = [].
Proof.
  apply (tokenize_tokens_wellformed 30
           (js "part a;" ++ [ch Lexer.newline] ++ js "// c")).
  vm_compute. reflexivity.
Defined.

(** X10.  The line numbers of the tokens that [tokenize] returns do not
    decrease, each is between 1 and 1 plus the number of newline
    characters of the source, and each column is at least 1. *)
Theorem tokenize_lines fuel source toks :
  Lexer.tokenize fuel source = Some toks ->
  nondecreasing (map Token.line toks)
  /\ Forall (fun t => 1 <= Token.line t <= 1 + newlines source
                      /\ 1 <= Token.column t) toks.
Proof.
  intros H. apply tokenize_shape in H.
  destruct H as (body & eof & _ & _ & _ & _ & Hnd & Hall). auto.
Qed.

Lemma tokenize_lines_witness :
  let source := js "part a;" ++ [ch Lexer.newline] ++ js "// c" in
  exists toks,
    Lexer.tokenize 30 source = Some toks
    /\ nondecreasing (map Token.line toks)
    /\ Forall (fun t => 1 <= Token.line t <= 1 + newlines source
                        /\ 1 <= Token.column t) toks.
Proof.
  intros source. eexists. split; [vm_compute; reflexivity|].
  apply (tokenize_lines 30 source). vm_compute. reflexivity.
Defined.

Lemma tokenize_texts_in_order_witness :
  exists body eof hi,
    [ Token.mk KEYWORD (js "part") 1 1; Token.mk IDENTIFIER (js "a") 1 6;
      Token.mk SEMICOLON (js ";") 1 7; Token.mk EOF [] 1 8 ]
    = body ++ [eof]
    /\ located (js "part a;") 0 body hi.
Proof.
  apply (tokenize_texts_in_order (js "part a;") 30).
  vm_compute. reflexivity.
Defined.

End LexerProperties.

(* ================================================================== *)
(** * The parser: the errors *)

Section ParserErrors.
Import Parser.

Lemma sound_bind {A B} toks (Q : B -> State -> Prop) (m : P A)
    (k : A -> P B) s :
  sound toks (fun a s1 => sound toks Q (k a s1)) (m s) ->
  sound toks Q (bind m k s).
Proof. unfold bind. destruct (m s); simpl; auto. Qed.

Lemma sound_mono {A} toks (Q Q' : A -> State -> Prop)
    (o : Outcome Exn State A) :
  (forall a s, Q a s -> Q' a s) -> sound toks Q o -> sound toks Q' o.
Proof. intros H. destruct o; simpl; auto. Qed.

Lemma sound_while {A} toks (I : A -> State -> Prop) cond (body : A -> P A) :
  (forall a s, I a s -> cond s = true -> sound toks I (body a s)) ->
  forall fuel a st,
    I a st ->
    sound toks (fun a' s' => I a' s' /\ cond s' = false)
      (while fuel cond body a st).
Proof.
  intros Hbody. induction fuel as [|fuel IH]; intros a st HI; [simpl; trivial|].
  rewrite while_S. destruct (cond st) eqn:Hc; [|simpl; auto].
  apply sound_bind. eapply sound_mono; [|apply Hbody; assumption].
  intros a1 s1 HI1. apply IH, HI1.
Qed.

Variables (body : list Token.t) (eof : Token.t).
Hypothesis Heof : Token.type eof = EOF.


Lemma good_current s : on_token body eof s -> In (current s) (body ++ [eof]).
Proof.
  intros [Ht Hp]. unfold current. rewrite Ht. apply nth_In.
  rewrite length_app. simpl. lia.
Qed.

(** On a token that is not the end of input, the cursor is before the
    last token. *)
Lemma good_advance s :
  on_token body eof s -> Token.type (current s) <> EOF ->
  on_token body eof (set_pos (pos s + 1) s).
Proof.
  intros [Ht Hp] Hne. split; [exact Ht|]. simpl.
  destruct (Nat.eq_dec (pos s) (length body)) as [Heq|]; [|lia].
  exfalso. apply Hne. unfold current. rewrite Ht, Heq.
  rewrite app_nth2 by lia. rewrite Nat.sub_diag. exact Heof.
Qed.

Lemma check_not_eof type value s :
  check type value s = true -> type <> EOF -> Token.type (current s) <> EOF.
Proof. intros H Hne. apply token_is_type in H. congruence. Qed.

Lemma not_check_eof s :
  check EOF any s = false -> Token.type (current s) <> EOF.
Proof.
  unfold check, token_is. intros H Heq. rewrite Heq in H. discriminate.
Qed.

Lemma inBody_not_eof s : inBody s = true -> Token.type (current s) <> EOF.
Proof.
  unfold inBody. intros H. apply andb_prop in H. destruct H as [_ H].
  apply negb_true_iff in H. apply not_check_eof, H.
Qed.

Lemma inStatement_not_eof s :
  inStatement s = true -> Token.type (current s) <> EOF.
Proof.
  unfold inStatement. intros H. apply andb_prop in H. destruct H as [_ H].
  apply negb_true_iff in H. apply not_check_eof, H.
Qed.

(** ** The primitive operations *)

Lemma sound_expect type value s :
  type <> EOF -> on_token body eof s ->
  sound (body ++ [eof]) (fun _ s' => on_token body eof s')
    (expect type value s).
Proof.
  intros Hne Hg. unfold expect, bind, this, gets, throw, advance.
  destruct (check type value s) eqn:Hc; simpl.
  - apply good_advance; [exact Hg|]. eapply check_not_eof; eassumption.
  - exists type, value, (current s). split; [apply good_current, Hg|].
    split; [exact Hc | reflexivity].
Qed.

Lemma sound_match type value s :
  type <> EOF -> on_token body eof s ->
  sound (body ++ [eof])
    (fun b s' => on_token body eof s' /\ (b = false -> s' = s))
    (match_ type value s).
Proof.
  intros Hne Hg. rewrite match_eq.
  destruct (check type value s) eqn:Hc; simpl; [|auto].
  split; [|discriminate]. apply good_advance; [exact Hg|].
  eapply check_not_eof; eassumption.
Qed.

Lemma sound_advance s :
  Token.type (current s) <> EOF -> on_token body eof s ->
  sound (body ++ [eof]) (fun _ s' => on_token body eof s') (advance s).
Proof. intros Hne Hg. simpl. apply good_advance; assumption. Qed.

Lemma sound_generateId s :
  on_token body eof s ->
  sound (body ++ [eof]) (fun _ s' => on_token body eof s')
    (generateId s).
Proof. intros Hg. exact Hg. Qed.

Lemma sound_setElement id e s :
  on_token body eof s ->
  sound (body ++ [eof]) (fun _ s' => on_token body eof s')
    (setElement id e s).
Proof. intros Hg. exact Hg. Qed.

Lemma sound_setRootPackage id s :
  on_token body eof s ->
  sound (body ++ [eof]) (fun _ s' => on_token body eof s')
    (setRootPackage id s).
Proof. intros Hg. exact Hg. Qed.

(** The loop that skips the body of an action returns on a closing
    brace only. *)
Lemma sound_skip fuel s :
  tokens s = body ++ [eof] ->
  sound (body ++ [eof]) (fun _ s' => on_token body eof s')
    (while fuel (fun st => negb (check RBRACE any st))
       (fun _ => advance ;; ret tt) tt s).
Proof.
  intros Ht.
  apply (sound_mono (body ++ [eof])
           (fun (_ : unit) s' =>
              tokens s' = body ++ [eof] /\ negb (check RBRACE any s') = false));
    [|apply (sound_while (body ++ [eof])
               (fun (_ : unit) s => tokens s = body ++ [eof]));
      [|exact Ht]].
  - intros [] s' [Ht' Hc]. apply negb_false_iff in Hc.
    pose proof (check_in_range RBRACE any s' ltac:(discriminate) Hc) as Hlt.
    rewrite Ht', length_app in Hlt. simpl in Hlt.
    split; [exact Ht'|].
    destruct (Nat.eq_dec (pos s') (length body)) as [Heq|]; [|lia].
    apply token_is_type in Hc. unfold current in Hc.
    rewrite Ht', Heq, app_nth2, Nat.sub_diag in Hc by lia. simpl in Hc.
    congruence.
  - intros [] s1 Ht1 _. simpl. exact Ht1.
Qed.


Lemma sound_ret {A} (a : A) s :
  on_token body eof s ->
  sound (body ++ [eof]) (fun _ s' => on_token body eof s')
    (ret (E := Exn) a s).
Proof. intros Hg. exact Hg. Qed.

Create HintDb sounddb.
Hint Resolve sound_expect sound_match sound_advance sound_generateId
  sound_setElement sound_setRootPackage sound_ret inBody_not_eof
  inStatement_not_eof : sounddb.
Hint Extern 1 (_ <> EOF) => discriminate : sounddb.

(** One step of a production: runs its first operation, which keeps the
    cursor on a token or throws the error of [expect]. *)
Ltac sound_step :=
  cbv beta zeta;
  repeat match goal with
         | H : _ /\ _ |- _ => destruct H
         | H : false = false -> _ |- _ => specialize (H eq_refl)
         | H : true = false -> _ |- _ => clear H
         | H : ?s' = ?s |- _ => is_var s'; is_var s; subst s'
         end;
  lazymatch goal with
  | |- sound ?t ?Q (bind this ?k ?s) => change (sound t Q (k s s))
  | |- sound _ _ (bind (if ?b then _ else _) _ _) => destruct b eqn:?
  | |- sound _ _ (bind (bind _ _) _ _) => rewrite bind_assoc
  | |- sound _ _ (bind (whenId ?r _ _) _ _) =>
      unfold whenId; destruct r as [?|]; [destruct (truthy _)|]
  | |- sound _ _ (whenId ?r _ _ _) =>
      unfold whenId; destruct r as [?|]; [destruct (truthy _)|]
  | |- sound _ _
         (bind (while _ (fun st => negb (check RBRACE any st)) _ _) _ _) =>
      apply sound_bind; eapply sound_mono; cycle 1;
      [ apply sound_skip;
        match goal with H : on_token _ _ _ |- _ => exact (proj1 H) end
      | cbv beta; intros ? ? ? ]
  | |- sound _ _ (bind (while _ _ _ _) _ _) =>
      apply sound_bind; eapply sound_mono; cycle 1;
      [ apply (sound_while (body ++ [eof]) (fun _ s => on_token body eof s));
        [ intros ? ? ? ? | assumption ]
      | cbv beta; intros ? ? [? _] ]
  | |- sound _ _ (while _ _ _ _ _) =>
      eapply sound_mono; cycle 1;
      [ apply (sound_while (body ++ [eof]) (fun _ s => on_token body eof s));
        [ intros ? ? ? ? | assumption ]
      | cbv beta; intros ? ? [? _] ]
  | |- sound _ _ (bind _ _ _) =>
      apply sound_bind; eapply sound_mono; cycle 1;
      [ solve [eauto 3 with sounddb nocore]
      | cbv beta; intros ? ? ? ]
  | |- sound _ _ ((if ?b then _ else _) _) => destruct b eqn:?
  | |- sound _ _ ((let '(_, _) := ?x in _) _) => destruct x
  | |- sound _ _ (ret _ _) => simpl; assumption
  | |- sound _ _ (_ _) =>
      eapply sound_mono; cycle 1;
      [ solve [eauto 3 with sounddb nocore]
      | cbv beta; intros ? ? ?; assumption ]
  | |- _ => assumption
  end.

Variable fuel : nat.

Lemma parsePort_sound parent s :
  on_token body eof s ->
  sound (body ++ [eof]) (fun _ s' => on_token body eof s')
    (parsePort parent s).
Proof. intros Hg. unfold parsePort. repeat sound_step. Qed.

Lemma parsePart_sound parent s :
  on_token body eof s ->
  sound (body ++ [eof]) (fun _ s' => on_token body eof s')
    (parsePart parent s).
Proof. intros Hg. unfold parsePart. repeat sound_step. Qed.

Lemma parseItemDef_sound parent s :
  on_token body eof s ->
  sound (body ++ [eof]) (fun _ s' => on_token body eof s')
    (parseItemDef fuel parent s).
Proof. intros Hg. unfold parseItemDef. repeat sound_step. Qed.

Lemma parsePortDef_sound parent s :
  on_token body eof s ->
  sound (body ++ [eof]) (fun _ s' => on_token body eof s')
    (parsePortDef fuel parent s).
Proof. intros Hg. unfold parsePortDef. repeat sound_step. Qed.

Lemma parseRequirementDef_sound parent s :
  on_token body eof s ->
  sound (body ++ [eof]) (fun _ s' => on_token body eof s')
    (parseRequirementDef fuel parent s).
Proof. intros Hg. unfold parseRequirementDef. repeat sound_step. Qed.

Lemma parseState_sound parent s :
  on_token body eof s ->
  sound (body ++ [eof]) (fun _ s' => on_token body eof s')
    (parseState fuel parent s).
Proof. intros Hg. unfold parseState. repeat sound_step. Qed.

Lemma parseTransition_sound parent s :
  on_token body eof s ->
  sound (body ++ [eof]) (fun _ s' => on_token body eof s')
    (parseTransition fuel parent s).
Proof.
  intros Hg. unfold parseTransition. repeat sound_step.
  all: unfold transitionClause; repeat sound_step.
Qed.

Lemma dotted_sound :
  forall n name s,
    on_token body eof s ->
    sound (body ++ [eof]) (fun _ s' => on_token body eof s')
      (dotted n name s).
Proof.
  induction n as [|n IH]; intros name s Hg; [exact I|].
  simpl dotted. sound_step. sound_step.
  - sound_step. apply IH. assumption.
  - sound_step.
Qed.

Lemma parseQualifiedName_sound s :
  on_token body eof s ->
  sound (body ++ [eof]) (fun _ s' => on_token body eof s')
    (parseQualifiedName fuel s).
Proof.
  intros Hg. unfold parseQualifiedName. sound_step.
  apply dotted_sound. assumption.
Qed.

Hint Resolve parsePort_sound parsePart_sound parseItemDef_sound
  parsePortDef_sound parseRequirementDef_sound parseState_sound
  parseTransition_sound parseQualifiedName_sound : sounddb.

Lemma parseConnection_sound parent s :
  on_token body eof s ->
  sound (body ++ [eof]) (fun _ s' => on_token body eof s')
    (parseConnection fuel parent s).
Proof. intros Hg. unfold parseConnection. repeat sound_step. Qed.

Lemma parseBind_sound parent s :
  on_token body eof s ->
  sound (body ++ [eof]) (fun _ s' => on_token body eof s')
    (parseBind fuel parent s).
Proof. intros Hg. unfold parseBind. repeat sound_step. Qed.

Hint Resolve parseConnection_sound parseBind_sound : sounddb.

Lemma parseStateDef_sound parent s :
  on_token body eof s ->
  sound (body ++ [eof]) (fun _ s' => on_token body eof s')
    (parseStateDef fuel parent s).
Proof.
  intros Hg. unfold parseStateDef, parseStateDefBody. repeat sound_step.
Qed.

Hint Resolve parseStateDef_sound : sounddb.

Lemma parsePartDef_sound parent s :
  on_token body eof s ->
  sound (body ++ [eof]) (fun _ s' => on_token body eof s')
    (parsePartDef fuel parent s).
Proof.
  intros Hg. unfold parsePartDef, parsePartDefBody. repeat sound_step.
Qed.

(** ** The package: the parent of [pushChild] is in the map *)

Lemma pushChild_sound parentId elemId s0 s :
  on_token body eof s -> produces parentId s0 elemId s ->
  JsMap.get parentId (els s0) <> None ->
  sound (body ++ [eof]) (fun _ s' => in_package body eof parentId s')
    (pushChild parentId elemId s).
Proof.
  intros Hg Hp Hin.
  destruct (JsMap.get parentId (els s0)) as [pe0|] eqn:H0; [|congruence].
  pose proof Hp as (HI & HE & _).
  apply (ext_old _ _ _ _ HE) in H0.
  destruct (pushChild parentId elemId s) as [u s'| |] eqn:Hpush.
  - simpl. split; [|split].
    + unfold pushChild, bind, this, gets in Hpush. fold (els s) in Hpush.
      rewrite H0 in Hpush. inversion Hpush. exact Hg.
    + eapply pushChild_Inv; eassumption.
    + apply pushChild_Return in Hpush.
      destruct Hpush as (pe & _ & -> & _). rewrite get_set_same. discriminate.
  - unfold pushChild, bind, this, gets in Hpush. fold (els s) in Hpush.
    rewrite H0 in Hpush. discriminate.
  - exact I.
Qed.

(** A production of the package body followed by the push of its element
    on the package. *)
Lemma pushed_sound (X : P jsstring) parentId s :
  in_package body eof parentId s ->
  sound (body ++ [eof]) (fun _ s' => on_token body eof s') (X s) ->
  (forall id s', X s = Return id s' -> produces parentId s id s') ->
  sound (body ++ [eof]) (fun _ s' => in_package body eof parentId s')
    (bind X (pushChild parentId) s).
Proof.
  intros (Hg & HI & Hin) Hs Hp. unfold bind.
  destruct (X s) as [id s1| |] eqn:HX; simpl in *; auto.
  eapply pushChild_sound; [exact Hs | apply Hp; reflexivity | exact Hin].
Qed.

Lemma in_package_frame parentId s s' :
  in_package body eof parentId s -> on_token body eof s' -> frame s s' ->
  in_package body eof parentId s'.
Proof.
  intros (_ & HI & Hin) Hg (_ & Hm & Hc). unfold in_package, els in *.
  rewrite Hm, Hc. auto.
Qed.

Ltac pushed_in_package sound_lemma produces_lemma :=
  apply pushed_sound;
  [ assumption
  | apply sound_lemma;
    match goal with H : in_package _ _ _ _ |- _ => exact (proj1 H) end
  | intros ? ? ?; eapply produces_lemma;
    [ eassumption
    | match goal with
      | H : in_package _ _ _ _ |- _ => exact (proj1 (proj2 H))
      end ] ].

Lemma parsePackageBody_sound parentId s :
  in_package body eof parentId s ->
  sound (body ++ [eof]) (fun _ s' => in_package body eof parentId s')
    (parsePackageBody fuel parentId s).
Proof.
  intros Hin. unfold parsePackageBody.
  eapply sound_mono; cycle 1;
    [ apply (sound_while (body ++ [eof])
               (fun _ s => in_package body eof parentId s));
      [|exact Hin]
    | cbv beta; intros ? ? [? _]; assumption ].
  clear s Hin. intros [] s Hin Hc.
  change (sound (body ++ [eof]) (fun _ s' => in_package body eof parentId s')
            ((fun st =>
               (if check KEYWORD (kw "item") st
                   && lookAhead KEYWORD (kw "def") st
                then bind (parseItemDef fuel parentId) (pushChild parentId)
                else if check KEYWORD (kw "port") st
                        && lookAhead KEYWORD (kw "def") st
                then bind (parsePortDef fuel parentId) (pushChild parentId)
                else if check KEYWORD (kw "part") st
                        && lookAhead KEYWORD (kw "def") st
                then bind (parsePartDef fuel parentId) (pushChild parentId)
                else if check KEYWORD (kw "part") st
                then bind (parsePart parentId) (pushChild parentId)
                else if check KEYWORD (kw "requirement") st
                        && lookAhead KEYWORD (kw "def") st
                then bind (parseRequirementDef fuel parentId)
                       (pushChild parentId)
                else if check KEYWORD (kw "state") st
                        && lookAhead KEYWORD (kw "def") st
                then bind (parseStateDef fuel parentId) (pushChild parentId)
                else if check KEYWORD (kw "interface") st
                then bind (parseConnection fuel parentId)
                       (fun elemId =>
                          whenId elemId (fun i => pushChild parentId i)
                            (ret tt))
                else if check KEYWORD (kw "bind") st
                then bind (parseBind fuel parentId) (pushChild parentId)
                else bind advance (fun _ => ret tt)) s) s)).
  cbv beta.
  repeat match goal with
         | |- sound _ _ ((if ?b then _ else _) _) => destruct b
         end.
  - pushed_in_package parseItemDef_sound parseItemDef_produces.
  - pushed_in_package parsePortDef_sound parsePortDef_produces.
  - pushed_in_package parsePartDef_sound parsePartDef_produces.
  - pushed_in_package parsePart_sound parsePart_produces.
  - pushed_in_package parseRequirementDef_sound parseRequirementDef_produces.
  - pushed_in_package parseStateDef_sound parseStateDef_produces.
  - pose proof Hin as (Hg & HI & Hp).
    pose proof (parseConnection_sound parentId s Hg) as Hs.
    unfold bind.
    destruct (parseConnection fuel parentId s) as [r s1| |] eqn:HX;
      simpl in *; auto.
    apply parseConnection_produces in HX; [|exact HI].
    destruct r as [i|]; unfold whenId.
    + rewrite (produces_truthy _ _ _ _ HX).
      eapply pushChild_sound; eassumption.
    + simpl. eapply in_package_frame; eassumption.
  - pushed_in_package parseBind_sound parseBind_produces.
  - simpl. destruct Hin as (Hg & HI & Hp). split; [|split]; auto.
    apply good_advance; [exact Hg | apply inBody_not_eof, Hc].
Qed.

Lemma sound_expect_frame type value s :
  type <> EOF -> on_token body eof s ->
  sound (body ++ [eof]) (fun _ s' => on_token body eof s' /\ frame s s')
    (expect type value s).
Proof.
  intros Hne Hg. pose proof (sound_expect type value s Hne Hg) as H.
  destruct (expect type value s) as [t s'| |] eqn:He; simpl in *; auto.
  apply expect_Return in He. destruct He as (_ & _ & ->).
  split; [exact H | repeat split].
Qed.

Lemma parsePackage_sound parent s :
  on_token body eof s -> Inv (els s) (idCounter s) ->
  sound (body ++ [eof]) (fun _ s' => on_token body eof s')
    (parsePackage fuel parent s).
Proof.
  intros Hg HI. unfold parsePackage.
  apply sound_bind. eapply sound_mono;
    [|apply sound_expect_frame; [discriminate | exact Hg]].
  cbv beta. intros _ s1 (Hg1 & _ & Hm1 & Hc1).
  apply sound_bind. eapply sound_mono;
    [|apply sound_expect_frame; [discriminate | exact Hg1]].
  cbv beta. intros name s2 (Hg2 & _ & Hm2 & Hc2).
  set (id := elem_ (idCounter s2 + 1)).
  set (pkg := Element.mk ElementType.package (Token.value name) id parent
                [] [] NoFields).
  set (s3 := mk (tokens s2) (pos s2)
               (mkModel (JsMap.set id pkg (els s2)) (rootPackage (model s2)))
               (idCounter s2 + 1)).
  assert (Hin3 : forall r,
             in_package body eof id
               (set_model (mkModel (els s3) r) s3)).
  { intros r. split; [exact Hg2|]. split.
    - unfold els. simpl. fold (els s2). unfold els. rewrite Hm2, Hm1, Hc2, Hc1.
      fold (els s). apply Inv_set.
      + eapply Inv_le; [exact HI | lia].
      + exists (idCounter s + 1). split; [lia|]. unfold id. congruence.
      + unfold id. rewrite Hc2, Hc1. eapply Inv_fresh; [exact HI | lia].
      + reflexivity.
      + intros ch [].
      + apply lists_in_order_leaf; reflexivity.
    - unfold els. simpl. rewrite get_set_same. discriminate. }
  assert (Hrest : forall s4,
             in_package body eof id s4 ->
             sound (body ++ [eof]) (fun _ s' => on_token body eof s')
               ((expect LBRACE any ;; parsePackageBody fuel id ;;
                 expect RBRACE any ;; ret tt) s4)).
  { intros s4 (Hg4 & HI4 & Hp4).
    apply sound_bind. eapply sound_mono;
      [|apply sound_expect_frame; [discriminate | exact Hg4]].
    cbv beta. intros _ s5 (Hg5 & Hf5).
    apply sound_bind. eapply sound_mono;
      [|apply parsePackageBody_sound;
        apply (in_package_frame id s4);
        [exact (conj Hg4 (conj HI4 Hp4)) | exact Hg5 | exact Hf5]].
    cbv beta. intros _ s6 (Hg6 & _). repeat sound_step. }
  destruct (absent parent).
  - change (sound (body ++ [eof]) (fun _ s' => on_token body eof s')
              ((expect LBRACE any ;; parsePackageBody fuel id ;;
                expect RBRACE any ;; ret tt)
                 (set_model (mkModel (els s3) (Some id)) s3))).
    apply Hrest, Hin3.
  - change (sound (body ++ [eof]) (fun _ s' => on_token body eof s')
              ((expect LBRACE any ;; parsePackageBody fuel id ;;
                expect RBRACE any ;; ret tt) s3)).
    apply Hrest. exact (Hin3 (rootPackage (model s2))).
Qed.

End ParserErrors.

Section ParseErrors.
Import Parser.

Lemma filter_notComment_eof body eof :
  Token.type eof = EOF ->
  filter notComment (body ++ [eof]) = filter notComment body ++ [eof].
Proof.
  intros H. rewrite filter_app. simpl. unfold notComment. rewrite H.
  reflexivity.
Qed.

(** X12.  An error that [parse] throws is the error of [expect]: the message
    names a token type and a token of the source that is not of that
    type (or has not the expected text), which is no comment and whose
    line is a line of the source.  The access to the children of a missing
    parent never fails. *)
Theorem parse_throws_expected fuel source p e :
  parse fuel source p = Throw e ->
  exists toks type value tok,
    Lexer.tokenize fuel source = Some toks
    /\ In tok toks
    /\ Token.type tok <> COMMENT
    /\ 1 <= Token.line tok <= 1 + newlines source
    /\ token_is type value tok = false
    /\ e = Error (expected type value tok).
Proof.
  unfold parse.
  destruct (Lexer.tokenize fuel source) as [toks|] eqn:Ht; [|discriminate].
  destruct (tokenize_shape source fuel toks Ht)
    as (body & eof & -> & Heof & _ & _ & _ & Hlines).
  rewrite (filter_notComment_eof _ _ Heof).
  set (body' := filter notComment body).
  unfold bind at 1 2 3 4 5, modify, this, gets.
  cbn [set_pos set_model tokens pos model idCounter].
  set (st := mk (body' ++ [eof]) 0 _ 0).
  assert (Hg : on_token body' eof st) by (split; [reflexivity | simpl; lia]).
  intros H.
  assert (He : expected_error (body' ++ [eof]) e).
  { destruct (check KEYWORD (kw "package") st); unfold bind in H.
    - pose proof (parsePackage_sound body' eof Heof fuel None st Hg Inv_empty)
        as Hs.
      destruct (parsePackage fuel None st) as [[] s'| |]; simpl in *;
        try discriminate.
      inversion H; subst. exact Hs.
    - discriminate. }
  destruct He as (type & value & tok & Hin & Hno & ->).
  assert (Hin' : In tok (body ++ [eof]) /\ Token.type tok <> COMMENT).
  { apply in_app_or in Hin. destruct Hin as [Hin|[<-|[]]].
    - apply filter_In in Hin. destruct Hin as [Hin Hc]. split.
      + apply in_or_app. left. exact Hin.
      + unfold notComment in Hc. apply negb_true_iff in Hc.
        intros Heq. rewrite Heq in Hc. discriminate.
    - split; [apply in_or_app; right; left; reflexivity | congruence]. }
  destruct Hin' as [Hin' Hc].
  exists (body ++ [eof]), type, value, tok.
  rewrite Forall_forall in Hlines.
  repeat split; auto; apply (Hlines tok Hin').
Qed.

Lemma parse_throws_expected_witness :
  exists toks type value tok,
    Lexer.tokenize 60 (js "package P { part def { } }") = Some toks
    /\ In tok toks
    /\ Token.type tok <> COMMENT
    /\ 1 <= Token.line tok
         <= 1 + newlines (js "package P { part def { } }")
    /\ token_is type value tok = false
    /\ Error (expected IDENTIFIER any (Token.mk LBRACE (js "{") 1 22))
       = Error (expected type value tok).
Proof.
  apply (parse_throws_expected 60 (js "package P { part def { } }") new).
  vm_compute. reflexivity.
Defined.

End ParseErrors.

Section LexerLength.

(** X11.  [tokenize] returns at most one token for each code unit of the
    source, and the end-of-input token. *)
Theorem tokenize_length fuel source toks :
  Lexer.tokenize fuel source = Some toks ->
  length toks <= length source + 1.
Proof.
  intros H.
  destruct (tokenize_total (fuel + S (length source)) source)
    as (body & eof & Ht & _ & _ & Hn); [lia|].
  apply (tokenize_mono fuel (fuel + S (length source))) in H; [|lia].
  rewrite H in Ht. inversion Ht; subst. rewrite length_app. simpl. lia.
Qed.

Lemma tokenize_length_witness :
  length [ Token.mk KEYWORD (js "part") 1 1; Token.mk IDENTIFIER (js "a") 1 6;
           Token.mk SEMICOLON (js ";") 1 7; Token.mk EOF [] 1 8 ]
  <= length (js "part a;") + 1.
Proof.
  apply (tokenize_length 30 (js "part a;")). vm_compute. reflexivity.
Defined.

End LexerLength.
